(** * Duel game server: sessions, combat resolution and the realtime gateway

    A shallow embedding of the TypeScript sources
    [config/CharacterType.ts], [config/AbilityOffense.ts],
    [config/AbilityDefense.ts], [models/Ability.ts], [models/Character.ts],
    [models/Session.ts], [services/sessionManager.ts], [routes/games.ts] and
    [sockets/sessions.ts], followed by the properties proved about them.

    Conventions of the embedding.
    - JavaScript numbers that hold integers (health, attack and defense
      power, slot numbers, round numbers) are [Z]; every arithmetic step of
      the sources keeps them integral ([Math.floor] is applied wherever a
      fraction could appear).  Sums and differences of integers, and the
      halving of an integer, are exact in binary64 as long as the values
      stay within 2^53 in magnitude, which is the range the properties are
      stated for; they are written on [Z].
    - The two products with a fraction, [Math.random() * (max - min + 1)]
      and [baseAttack * 1.5], are rounded to the nearest binary64 value,
      ties to even, as the processor does ([Number_mul]); the overflow to
      [Infinity] at 2^1024 is not represented.
    - [Math.random()] reads the next value of a tape; the values the
      runtime can return are the doubles in [0,1).
    - A [Map] is a [gmap], a [Set] a [gset].  A [Character] object is
      reachable only through the entry of [Session.players] that holds it,
      and every [players.set] stores a freshly constructed object, so the
      map from player identifier to [Character] value is the object store:
      a field assignment through any alias of the object is an update of
      that entry.
    - A method that mutates [this] and may throw is a function from the
      state before to an outcome and the state after; a [throw] keeps the
      mutations made before it, as in JavaScript. *)

From Stdlib Require Import ZArith QArith Qround Qabs Qpower Lqa Ascii.
From stdpp Require Import gmap strings list fin_maps.

Local Open Scope Z_scope.

(** ** The runtime: random numbers, exceptions, mutable state *)

(** The successive values returned by [Math.random()]. *)
Definition Rng : Type := nat → Q.

Definition Rand (A : Type) : Type := Rng → A * Rng.

Definition Math_random : Rand Q :=
  λ g, (g 0%nat, λ n, g (S n)).

Definition rand_ret {A} (a : A) : Rand A := λ g, (a, g).

Definition rand_bind {A B} (m : Rand A) (f : A → Rand B) : Rand B :=
  λ g, let '(a, g') := m g in f a g'.

#[global] Instance Rand_ret : MRet Rand := @rand_ret.
#[global] Instance Rand_bind : MBind Rand := λ A B f m, rand_bind m f.

(** [a < b] on the values of [Math.random()]. *)
Definition Qltb (a b : Q) : bool := negb (Qle_bool b a).

(** [Math.floor] of a rational. *)
Definition Math_floor (q : Q) : Z := Qfloor q.

(** *** Binary64 arithmetic

    A JavaScript number is an IEEE 754 binary64 value: [m * 2^e] with
    [|m| <= 2^53] and [e >= -1074].  The result of a multiplication is the
    exact product rounded to the nearest such value, ties to the even
    mantissa. *)
Definition pow2 (e : Z) : Q := (2 ^ e)%Q.

(** The integer part of the binary logarithm of a positive rational. *)
Definition ilog2 (x : Q) : Z :=
  let k := Z.log2 (Qnum x) - Z.log2 (Z.pos (Qden x)) in
  if Qle_bool (pow2 k) x then k else k - 1.

(** The nearest integer, the even one at a tie. *)
Definition round_half_even (s : Q) : Z :=
  let f := Qfloor s in
  match (s - inject_Z f ?= 1 # 2)%Q with
  | Lt => f
  | Gt => f + 1
  | Eq => if Z.even f then f else f + 1
  end.

(** A positive [x] is scaled to a mantissa of 53 bits (fewer below
    2^-1022, where the exponent stays at -1074), and the mantissa is
    rounded. *)
Definition round_positive (x : Q) : Q :=
  let e := Z.max (ilog2 x - 52) (-1074) in
  (inject_Z (round_half_even (x / pow2 e)) * pow2 e)%Q.

Definition round_binary64 (x : Q) : Q :=
  match (x ?= 0)%Q with
  | Eq => 0%Q
  | Gt => round_positive x
  | Lt => (- round_positive (- x))%Q
  end.

(** [a * b] on numbers. *)
Definition Number_mul (a b : Q) : Q := round_binary64 (a * b).

(** The values a number can hold (below the overflow threshold). *)
Definition is_double (q : Q) : Prop :=
  ∃ m e : Z, Z.abs m ≤ 2 ^ 53 ∧ -1074 ≤ e ∧ (q == inject_Z m * pow2 e)%Q.

(** The errors thrown by the model ([throw new Error(...)]) and the one
    raised by the runtime when a property of [undefined] is read;
    [message] is the text of the error. *)
Inductive Error : Type :=
  | SessionFull
  | NoSlotsAvailable
  | InvalidCharacterType (characterTypeId : string)
  | InvalidAbilityId (abilityId : string)
  | PlayersNotFound
  | TypeError.

(** The double quote character, as a string. *)
Definition quote : string := String "034"%char EmptyString.

Definition message (e : Error) : string :=
  match e with
  | SessionFull => "Session is already full"
  | NoSlotsAvailable => "No player slots available"
  | InvalidCharacterType t =>
      "Character type " +:+ quote +:+ t +:+ quote +:+ " not recognized"
  | InvalidAbilityId a => "Ability " +:+ quote +:+ a +:+ quote +:+ " not found"
  | PlayersNotFound => "One or both players not found"
  | TypeError => "Cannot read properties of undefined"
  end.

Inductive Result (A : Type) : Type :=
  | Ok (a : A)
  | Throw (e : Error).
Arguments Ok {A} a.
Arguments Throw {A} e.

(** A method on an object of state [S]: it reads and writes the object and
    the random tape, and returns or throws. *)
Definition Eff (S A : Type) : Type := S → Rng → Result A * S * Rng.

Definition eff_ret {S A} (a : A) : Eff S A := λ s g, (Ok a, s, g).

Definition eff_bind {S A B} (m : Eff S A) (f : A → Eff S B) : Eff S B :=
  λ s g,
    match m s g with
    | (Ok a, s', g') => f a s' g'
    | (Throw e, s', g') => (Throw e, s', g')
    end.

#[global] Instance Eff_ret {S} : MRet (Eff S) := @eff_ret S.
#[global] Instance Eff_bind {S} : MBind (Eff S) := λ A B f m, eff_bind m f.

Definition throw {S A} (e : Error) : Eff S A := λ s g, (Throw e, s, g).
Definition get {S} : Eff S S := λ s g, (Ok s, s, g).
Definition put {S} (s : S) : Eff S unit := λ _ g, (Ok tt, s, g).
Definition liftRand {S A} (m : Rand A) : Eff S A :=
  λ s g, let '(a, g') := m g in (Ok a, s, g').

(** The object after a call, whether the call returned or threw. *)
Definition state_after {S A} (r : Result A * S * Rng) : S := r.1.2.
Definition outcome {S A} (r : Result A * S * Rng) : Result A := r.1.1.
Definition rng_after {S A} (r : Result A * S * Rng) : Rng := r.2.

(** ** config/CharacterType.ts *)

Module CharacterType.
Inductive t : Type := Warrior | Mage.

Definition value (c : t) : string :=
  match c with Warrior => "warrior" | Mage => "mage" end.

(** [Object.values(CharacterType)] *)
Definition values : list t := [Warrior; Mage].
End CharacterType.

Module CharacterTypeData.
Record t : Type := { name : string; attacks : list string }.

Definition get (c : CharacterType.t) : t :=
  match c with
  | CharacterType.Warrior =>
      {| name := "Warrior"; attacks := ["slash"; "stab"; "shieldBash"] |}
  | CharacterType.Mage =>
      {| name := "Mage"; attacks := ["fireball"; "icebolt"; "arcaneBlast"] |}
  end.
End CharacterTypeData.

(** ** config/AbilityOffense.ts and config/AbilityDefense.ts *)

Module OffenseAbility.
Inductive t : Type := BoostAttackOnAttack.

Definition value (a : t) : string :=
  match a with BoostAttackOnAttack => "boostAttackOnAttack" end.

Definition values : list t := [BoostAttackOnAttack].

Definition displayName (a : t) : string :=
  match a with BoostAttackOnAttack => "Boost Attack on Attack" end.

Definition description (a : t) : string :=
  match a with
  | BoostAttackOnAttack =>
      "25% chance to increase your damage by 50% when attacking."
  end.
End OffenseAbility.

Module DefenseAbility.
Inductive t : Type := HalfDamageOnDefend | HealUnder30.

Definition value (a : t) : string :=
  match a with
  | HalfDamageOnDefend => "halfDamageOnDefend"
  | HealUnder30 => "healUnder30"
  end.

Definition values : list t := [HalfDamageOnDefend; HealUnder30].

Definition displayName (a : t) : string :=
  match a with
  | HalfDamageOnDefend => "Half Damage on Defend"
  | HealUnder30 => "Heal Under 30"
  end.

Definition description (a : t) : string :=
  match a with
  | HalfDamageOnDefend =>
      "25% chance to take only half damage when attacked."
  | HealUnder30 =>
      "25% chance to heal 5 HP if your health falls below 30."
  end.
End DefenseAbility.

(** [OffenseBehavior]: the hook of an offense ability. *)
Record OffenseBehavior : Type := { onAttack : Z → Rand Z }.

(** [DefenseBehavior]: both hooks are optional. *)
Record DefenseBehavior : Type := {
  onDefend : option (Z → Rand Z);
  afterDamage : option (Z → Rand Z)
}.

(** The closures stored in the two behavior tables.  [1.5] and [0.25]
    are doubles; [netDamage / 2] is exact. *)
Definition BoostAttackOnAttack_onAttack (baseAttack : Z) : Rand Z :=
  r ← Math_random;
  if Qltb r (1 # 4)
  then mret (Math_floor (Number_mul (inject_Z baseAttack) (3 # 2)))
  else mret baseAttack.

Definition HalfDamageOnDefend_onDefend (netDamage : Z) : Rand Z :=
  r ← Math_random;
  if Qltb r (1 # 4)
  then mret (Math_floor (inject_Z netDamage / inject_Z 2))
  else mret netDamage.

(** The draw is made only when the health is strictly between 0 and 30
    ([&&] does not evaluate its right operand otherwise). *)
Definition HealUnder30_afterDamage (healthAfterDamage : Z) : Rand Z :=
  if (0 <? healthAfterDamage) && (healthAfterDamage <? 30)
  then
    r ← Math_random;
    if Qltb r (1 # 4)
    then mret (healthAfterDamage + 5)
    else mret healthAfterDamage
  else mret healthAfterDamage.

Definition OffenseBehaviors (a : OffenseAbility.t) : OffenseBehavior :=
  match a with
  | OffenseAbility.BoostAttackOnAttack =>
      {| onAttack := BoostAttackOnAttack_onAttack |}
  end.

Definition DefenseBehaviors (a : DefenseAbility.t) : DefenseBehavior :=
  match a with
  | DefenseAbility.HalfDamageOnDefend =>
      {| onDefend := Some HalfDamageOnDefend_onDefend; afterDamage := None |}
  | DefenseAbility.HealUnder30 =>
      {| onDefend := None; afterDamage := Some HealUnder30_afterDamage |}
  end.

(** ** models/Ability.ts *)

Inductive AbilityKind : Type := offense | defense.

(** [AbilityType = OffenseAbility | DefenseAbility] *)
Inductive AbilityType : Type :=
  | off (a : OffenseAbility.t)
  | def (a : DefenseAbility.t).

Definition AbilityType_value (a : AbilityType) : string :=
  match a with
  | off o => OffenseAbility.value o
  | def d => DefenseAbility.value d
  end.

Module Ability.
Record t : Type := {
  id : AbilityType;
  name : string;
  description : string;
  kind : AbilityKind
}.

Definition all : list t :=
  let offenseList :=
    map (λ offKey,
           {| id := off offKey;
              name := OffenseAbility.displayName offKey;
              description := OffenseAbility.description offKey;
              kind := offense |})
        OffenseAbility.values in
  let defenseList :=
    map (λ defKey,
           {| id := def defKey;
              name := DefenseAbility.displayName defKey;
              description := DefenseAbility.description defKey;
              kind := defense |})
        DefenseAbility.values in
  offenseList ++ defenseList.

Definition findById (i : string) : option t :=
  find (λ a, String.eqb (AbilityType_value (id a)) i) all.
End Ability.

(** ** models/Character.ts *)

Module Character.
Record t : Type := {
  type : CharacterType.t;
  name : string;
  health : Z;
  attackPower : Z;
  defensePower : Z;
  ability : Ability.t;
  attackTypes : list string
}.

Definition randomInRange (min max : Z) : Rand Z :=
  r ← Math_random;
  mret (Math_floor (Number_mul r (inject_Z (max - min + 1))) + min).

(** [new Character(type, ability)] *)
Definition new (ty : CharacterType.t) (ab : Ability.t) : Rand t :=
  a ← randomInRange 15 20;
  d ← randomInRange 10 15;
  mret {| type := ty;
          name := CharacterTypeData.name (CharacterTypeData.get ty);
          health := 100;
          attackPower := a;
          defensePower := d;
          ability := ab;
          attackTypes := CharacterTypeData.attacks (CharacterTypeData.get ty) |}.

(** [c.health = h] *)
Definition set_health (h : Z) (c : t) : t :=
  {| type := type c; name := name c; health := h;
     attackPower := attackPower c; defensePower := defensePower c;
     ability := ability c; attackTypes := attackTypes c |}.

Definition parseType (i : string) : option CharacterType.t :=
  find (λ ty, String.eqb (CharacterType.value ty) i) CharacterType.values.

Definition allTypes : list CharacterType.t := CharacterType.values.

Definition allOffenseAbilities : list OffenseAbility.t := OffenseAbility.values.

Definition allDefenseAbilities : list DefenseAbility.t := DefenseAbility.values.
End Character.

(** ** models/Session.ts *)

(** A [NodeJS.Timeout] handle: the timer is still scheduled ([Armed]) or
    its callback has run ([Expired]).  [clearTimeout] on a handle is
    always followed in the sources by storing [null] in the field that
    held it, so a cleared handle is never observed. *)
Inductive Timeout : Type := Armed | Expired.

Module Session.
Record t : Type := {
  id : string;
  player1Id : string;
  player2Id : string;
  players : gmap string Character.t;
  sockets : gmap string string;
  pendingJoinTimer : option Timeout;
  disconnectTimer : option Timeout;
  takenSlots : gset Z
}.

Definition set_players (v : gmap string Character.t) (s : t) : t :=
  {| id := id s; player1Id := player1Id s; player2Id := player2Id s;
     players := v; sockets := sockets s;
     pendingJoinTimer := pendingJoinTimer s;
     disconnectTimer := disconnectTimer s; takenSlots := takenSlots s |}.

Definition set_sockets (v : gmap string string) (s : t) : t :=
  {| id := id s; player1Id := player1Id s; player2Id := player2Id s;
     players := players s; sockets := v;
     pendingJoinTimer := pendingJoinTimer s;
     disconnectTimer := disconnectTimer s; takenSlots := takenSlots s |}.

Definition set_pendingJoinTimer (v : option Timeout) (s : t) : t :=
  {| id := id s; player1Id := player1Id s; player2Id := player2Id s;
     players := players s; sockets := sockets s;
     pendingJoinTimer := v;
     disconnectTimer := disconnectTimer s; takenSlots := takenSlots s |}.

Definition set_disconnectTimer (v : option Timeout) (s : t) : t :=
  {| id := id s; player1Id := player1Id s; player2Id := player2Id s;
     players := players s; sockets := sockets s;
     pendingJoinTimer := pendingJoinTimer s;
     disconnectTimer := v; takenSlots := takenSlots s |}.

Definition set_takenSlots (v : gset Z) (s : t) : t :=
  {| id := id s; player1Id := player1Id s; player2Id := player2Id s;
     players := players s; sockets := sockets s;
     pendingJoinTimer := pendingJoinTimer s;
     disconnectTimer := disconnectTimer s; takenSlots := v |}.

(** [new Session()]: the three identifiers are the results of the three
    [uuidv4()] calls; the pending-join timer is scheduled. *)
Definition new (sessionId p1 p2 : string) : t :=
  {| id := sessionId; player1Id := p1; player2Id := p2;
     players := ∅; sockets := ∅;
     pendingJoinTimer := Some Armed;
     disconnectTimer := None; takenSlots := ∅ |}.

Definition getAvailableSlots (s : t) : list Z :=
  (if bool_decide (1 ∈ takenSlots s) then [] else [1])
    ++ (if bool_decide (2 ∈ takenSlots s) then [] else [2]).

(** JavaScript truthiness of an optional number. *)
Definition truthy (n : option Z) : bool :=
  match n with
  | Some z => negb (z =? 0)
  | None => false
  end.

(** [assignPlayerSlot(playerId, preferredSlot)].  In the first branch
    [players.get(playerId) === players.get(player1Id)] compares object
    references; [playerId] is a key there, every key holds its own
    object, so the two are the same object exactly when the keys are
    equal. *)
Definition assignPlayerSlot (playerId : string) (preferredSlot : option Z)
  : Eff t Z :=
  this ← get;
  if bool_decide (is_Some (players this !! playerId)) then
    mret (if bool_decide (1 ∈ takenSlots this)
             && bool_decide (playerId = player1Id this)
          then 1 else 2)
  else
    let claimLowest : Eff t Z :=
      let availableSlots := getAvailableSlots this in
      match availableSlots with
      | [] => throw NoSlotsAvailable
      | assignedSlot :: _ =>
          put (set_takenSlots ({[assignedSlot]} ∪ takenSlots this) this);;
          mret assignedSlot
      end in
    match preferredSlot with
    | Some p =>
        if truthy preferredSlot && negb (bool_decide (p ∈ takenSlots this))
        then
          put (set_takenSlots ({[p]} ∪ takenSlots this) this);;
          mret p
        else claimLowest
    | None => claimLowest
    end.

Definition addPlayer (characterTypeId abilityId : string)
    (preferredSlot : option Z) : Eff t string :=
  this ← get;
  (* 1) Prevent >2 players *)
  if bool_decide (2 ≤ size (players this))%nat then throw SessionFull else
  (* 2) Assign player slot and get player ID *)
  slot ← assignPlayerSlot "" preferredSlot;
  let playerId := if slot =? 1 then player1Id this else player2Id this in
  (* 3) Validate CharacterType *)
  match find (λ t, String.eqb (CharacterType.value t) characterTypeId)
             CharacterType.values with
  | None => throw (InvalidCharacterType characterTypeId)
  | Some charType =>
      (* 4) Lookup and validate the Ability object *)
      match Ability.findById abilityId with
      | None => throw (InvalidAbilityId abilityId)
      | Some ability =>
          (* 5) Instantiate the new Character *)
          character ← liftRand (Character.new charType ability);
          this ← get;
          put (set_players (<[playerId := character]> (players this)) this);;
          (* 6) If two players have now joined, cancel pending-join timer *)
          this ← get;
          (if bool_decide (size (players this) = 2%nat)
              && bool_decide (is_Some (pendingJoinTimer this))
           then put (set_pendingJoinTimer None this)
           else mret tt);;
          mret playerId
      end
  end.

Definition hasPlayer (playerId : string) (s : t) : bool :=
  bool_decide (is_Some (players s !! playerId)).

Definition bothConnected (s : t) : bool :=
  if negb (bool_decide (size (players s) = 2%nat)) then false
  else
    let connectedSet : gset string :=
      list_to_set ((map_to_list (sockets s)).*2) in
    forallb (λ pid, bool_decide (pid ∈ connectedSet))
            ((map_to_list (players s)).*1).

Definition attachSocket (socketId playerId : string) : Eff t unit :=
  this ← get;
  put (set_sockets (<[socketId := playerId]> (sockets this)) this);;
  this ← get;
  if bothConnected this && bool_decide (is_Some (disconnectTimer this))
  then put (set_disconnectTimer None this)
  else mret tt.

Definition detachSocket (socketId : string) : Eff t bool :=
  this ← get;
  let wasAttached := bool_decide (is_Some (sockets this !! socketId)) in
  put (set_sockets (delete socketId (sockets this)) this);;
  if negb wasAttached then mret false
  else
    this ← get;
    (if negb (bothConnected this)
        && negb (bool_decide (is_Some (disconnectTimer this)))
     then put (set_disconnectTimer (Some Armed) this)
     else mret tt);;
    mret true.

(** Field access through a reference to the [Character] stored for
    [pid]: [c.health] and [c.health = h]. *)
Definition health_of (pid : string) (s : t) : Z :=
  from_option Character.health 0 (players s !! pid).

Definition assign_health (pid : string) (h : Z) : Eff t unit :=
  this ← get;
  put (set_players (alter (Character.set_health h) pid (players this)) this).

Definition useAbility (fromPlayer toPlayer : string) : Eff t unit :=
  this ← get;
  match players this !! fromPlayer, players this !! toPlayer with
  | Some attacker, Some defender =>
      (* 1) Base attack value *)
      let attackValue := Character.attackPower attacker in
      (* 2) Attacker's ability *)
      let attackerAbility := Character.ability attacker in
      attackValue ←
        match Ability.kind attackerAbility with
        | offense =>
            match Ability.id attackerAbility with
            | off offId =>
                liftRand (onAttack (OffenseBehaviors offId) attackValue)
            | def _ => throw TypeError
            end
        | defense => mret attackValue
        end;
      (* 3) Compute netDamage *)
      let netDamage := attackValue - Character.defensePower defender in
      let netDamage := if netDamage <? 0 then 0 else netDamage in
      (* 4) Defender's ability *)
      let defenderAbility := Character.ability defender in
      netDamage ←
        match Ability.kind defenderAbility, Ability.id defenderAbility with
        | defense, def DefenseAbility.HalfDamageOnDefend =>
            match onDefend (DefenseBehaviors DefenseAbility.HalfDamageOnDefend) with
            | Some hook => liftRand (hook netDamage)
            | None => mret netDamage
            end
        | _, _ => mret netDamage
        end;
      (* 5) Apply damage *)
      this ← get;
      assign_health toPlayer (health_of toPlayer this - netDamage);;
      this ← get;
      (if health_of toPlayer this <? 0 then assign_health toPlayer 0
       else mret tt);;
      (* 6) Possibly heal if "HealUnder30" *)
      match Ability.kind defenderAbility, Ability.id defenderAbility with
      | defense, def DefenseAbility.HealUnder30 =>
          match afterDamage (DefenseBehaviors DefenseAbility.HealUnder30) with
          | Some hook =>
              this ← get;
              h ← liftRand (hook (health_of toPlayer this));
              assign_health toPlayer h
          | None => mret tt
          end
      | _, _ => mret tt
      end
  | _, _ => throw PlayersNotFound
  end.

(** [SerializedPlayer] and [SerializedSession].  The source lists the
    players in the insertion order of the [Map]; here they are listed in
    the order of [map_to_list].  No statement below depends on the
    order. *)
Record SerializedPlayer : Type := {
  sp_playerId : string;
  sp_name : string;
  sp_health : Z;
  sp_attackPower : Z;
  sp_defensePower : Z;
  sp_abilityId : string;
  sp_attackTypes : list string
}.

Record SerializedSession : Type := {
  ss_id : string;
  ss_players : list SerializedPlayer;
  ss_bothConnected : bool
}.

Definition serialize (s : t) : SerializedSession :=
  {| ss_id := id s;
     ss_players :=
       map (λ '(pid, char),
              {| sp_playerId := pid;
                 sp_name := Character.name char;
                 sp_health := Character.health char;
                 sp_attackPower := Character.attackPower char;
                 sp_defensePower := Character.defensePower char;
                 sp_abilityId := AbilityType_value (Ability.id (Character.ability char));
                 sp_attackTypes := Character.attackTypes char |})
           (map_to_list (players s));
     ss_bothConnected := bothConnected s |}.
End Session.

(** ** services/sessionManager.ts *)

Module SessionManager.
(** The singleton's [sessions] map. *)
Abbreviation t := (gmap string Session.t).

(** [create()], given the identifiers drawn by [new Session()]. *)
Definition create (sessionId p1 p2 : string) (m : t) : Session.t * t :=
  let sess := Session.new sessionId p1 p2 in
  (sess, <[Session.id sess := sess]> m).

Definition get (i : string) (m : t) : option Session.t := m !! i.

Definition delete (i : string) (m : t) : t := base.delete i m.

(** [all()]: the registered sessions.  The source lists them in insertion
    order, [map_to_list] in key order. *)
Definition all (m : t) : list Session.t := (map_to_list m).*2.
End SessionManager.

(** The two timer callbacks installed by [Session]: the closure given to
    [setTimeout] in the constructor, and the one given in [detachSocket].
    [this] is the session as it is when the timer fires. *)
Definition pendingJoinTimer_callback (this : Session.t)
    (m : SessionManager.t) : SessionManager.t :=
  if bool_decide (size (Session.players this) < 2)%nat
  then SessionManager.delete (Session.id this) m
  else m.

Definition disconnectTimer_callback (this : Session.t)
    (m : SessionManager.t) : SessionManager.t :=
  SessionManager.delete (Session.id this) m.

(** ** sockets/sessions.ts and routes/games.ts *)

Record RoundResult : Type := {
  roundNumber : Z;
  sessionId : string;
  attackerId : string;
  attackerName : string;
  defenderId : string;
  defenderName : string;
  abilityUsed : option string;
  damageDealt : Z;
  healthAfter : gmap string Z
}.

Inductive Message : Type :=
  | error (msg : string)
  | state (snapshot : Session.SerializedSession)
  | roundResult (r : RoundResult).

(** What a handler sends: [socket.emit], [io.in(room).emit], or the HTTP
    response of a route. *)
Inductive Output : Type :=
  | to_socket (socketId : string) (m : Message)
  | to_room (room : string) (m : Message)
  | res_created (sessionId : string)
  | res_availableSlots (slots : list Z)
  | res_playerId (playerId : string)
  | res_error (status : Z) (msg : string).

(** The state of the process: the session manager, the two module-level
    maps of [sockets/sessions.ts], and the random tape. *)
Record Server : Type := {
  sessions : SessionManager.t;
  socketToSession : gmap string string;
  sessionRounds : gmap string Z;
  random : Rng
}.

Definition set_sessions (v : SessionManager.t) (w : Server) : Server :=
  {| sessions := v; socketToSession := socketToSession w;
     sessionRounds := sessionRounds w; random := random w |}.

Definition set_socketToSession (v : gmap string string) (w : Server) : Server :=
  {| sessions := sessions w; socketToSession := v;
     sessionRounds := sessionRounds w; random := random w |}.

Definition set_sessionRounds (v : gmap string Z) (w : Server) : Server :=
  {| sessions := sessions w; socketToSession := socketToSession w;
     sessionRounds := v; random := random w |}.

Definition set_random (v : Rng) (w : Server) : Server :=
  {| sessions := sessions w; socketToSession := socketToSession w;
     sessionRounds := sessionRounds w; random := v |}.

Definition boot (g : Rng) : Server :=
  {| sessions := ∅; socketToSession := ∅; sessionRounds := ∅; random := g |}.

(** Runs a method of the session stored under [key] and stores the
    mutated object back. *)
Definition call {A} (key : string) (sess : Session.t) (m : Eff Session.t A)
    (w : Server) : Result A * Session.t * Server :=
  let '(r, sess', g') := m sess (random w) in
  (r, sess', set_random g' (set_sessions (<[key := sess']> (sessions w)) w)).

(** The body of the [try] block of the ['useAbility'] handler from step C
    on: the combat logic replicated at the transport layer.  A missing
    attacker or defender would make the first field access fail. *)
Definition useAbility_inline (sid fromPlayer toPlayer : string)
    (roundNo : Z) : Eff Session.t RoundResult :=
  this ← get;
  match Session.players this !! fromPlayer,
        Session.players this !! toPlayer with
  | Some attacker, Some defender =>
      (* C) Capture "before" stats *)
      let attackerName_ := Character.name attacker in
      let defenderName_ := Character.name defender in
      let baseAttack := Character.attackPower attacker in
      let defensePower := Character.defensePower defender in
      let beforeHealth := Character.health defender in
      (* D) Offense ability logic *)
      '(modifiedAttack, offenseAbilityUsed) ←
        match Ability.kind (Character.ability attacker) with
        | offense =>
            match Ability.id (Character.ability attacker) with
            | off offId =>
                tryAttack ← liftRand (onAttack (OffenseBehaviors offId) baseAttack);
                mret (tryAttack,
                      if negb (tryAttack =? baseAttack)
                      then Some (OffenseAbility.value offId) else None)
            | def _ => throw TypeError
            end
        | defense => mret (baseAttack, None)
        end;
      (* E) Compute raw netDamage before defense *)
      let netDamage := modifiedAttack - defensePower in
      let netDamage := if netDamage <? 0 then 0 else netDamage in
      (* F) Defense ability logic *)
      '(netDamage, defenseAbilityUsed) ←
        match Ability.kind (Character.ability defender),
              Ability.id (Character.ability defender) with
        | defense, def DefenseAbility.HalfDamageOnDefend =>
            match onDefend (DefenseBehaviors DefenseAbility.HalfDamageOnDefend) with
            | Some hook =>
                tryDamage ← liftRand (hook netDamage);
                mret (tryDamage,
                      if negb (tryDamage =? netDamage)
                      then Some (DefenseAbility.value DefenseAbility.HalfDamageOnDefend)
                      else None)
            | None => throw TypeError
            end
        | _, _ => mret (netDamage, None)
        end;
      (* G) Apply netDamage to defender's health *)
      let newHealth := beforeHealth - netDamage in
      let newHealth := if newHealth <? 0 then 0 else newHealth in
      (* H) Potential HealUnder30 *)
      '(newHealth, defenseAbilityUsed) ←
        match Ability.kind (Character.ability defender),
              Ability.id (Character.ability defender) with
        | defense, def DefenseAbility.HealUnder30 =>
            match afterDamage (DefenseBehaviors DefenseAbility.HealUnder30) with
            | Some hook =>
                tryHeal ← liftRand (hook newHealth);
                mret (tryHeal,
                      if negb (tryHeal =? newHealth)
                      then Some (DefenseAbility.value DefenseAbility.HealUnder30)
                      else defenseAbilityUsed)
            | None => throw TypeError
            end
        | _, _ => mret (newHealth, defenseAbilityUsed)
        end;
      (* I) Update the defender's health in the Session *)
      Session.assign_health toPlayer newHealth;;
      (* J) Prepare the combined "abilityUsed" string (or null) *)
      let abilityUsed_ :=
        match offenseAbilityUsed, defenseAbilityUsed with
        | Some o, Some d => Some (o +:+ "," +:+ d)
        | Some o, None => Some o
        | None, Some d => Some d
        | None, None => None
        end in
      (* K) Gather post-attack health for both players *)
      this ← get;
      let attackerHealthPost := Session.health_of fromPlayer this in
      let defenderHealthPost := Session.health_of toPlayer this in
      let healthAfter_ : gmap string Z :=
        <[toPlayer := defenderHealthPost]> {[fromPlayer := attackerHealthPost]} in
      (* L) Build the RoundResult object *)
      mret {| roundNumber := roundNo;
              sessionId := sid;
              attackerId := fromPlayer;
              attackerName := attackerName_;
              defenderId := toPlayer;
              defenderName := defenderName_;
              abilityUsed := abilityUsed_;
              damageDealt := netDamage;
              healthAfter := healthAfter_ |}
  | _, _ => throw TypeError
  end.

(** socket.on('join', ...) *)
Definition on_join (socketId sid playerId : string) (w : Server)
    : Server * list Output :=
  match SessionManager.get sid (sessions w) with
  | None => (w, [to_socket socketId (error "Session not found.")])
  | Some sess =>
      if negb (Session.hasPlayer playerId sess)
      then (w, [to_socket socketId
                  (error "You have not joined or invalid playerId")])
      else
        let '(_, sess, w) := call sid sess (Session.attachSocket socketId playerId) w in
        let w := set_socketToSession (<[socketId := sid]> (socketToSession w)) w in
        let serialized := Session.serialize sess in
        let w :=
          if Session.ss_bothConnected serialized
             && negb (bool_decide (is_Some (sessionRounds w !! sid)))
          then set_sessionRounds (<[sid := 0]> (sessionRounds w)) w
          else w in
        (w, [to_room sid (state (Session.serialize sess))])
  end.

(** socket.on('useAbility', ...) *)
Definition on_useAbility (socketId sid fromPlayer toPlayer : string)
    (w : Server) : Server * list Output :=
  match SessionManager.get sid (sessions w) with
  | None => (w, [to_socket socketId (error "Session not found.")])
  | Some sess =>
      if negb (Session.hasPlayer fromPlayer sess)
         || negb (Session.hasPlayer toPlayer sess)
      then (w, [to_socket socketId
                  (error "One or both players not recognized.")])
      else
        (* B) Round counter: increment it (or initialize to 1 if missing) *)
        let roundNo :=
          match sessionRounds w !! sid with
          | Some n => n + 1
          | None => 1
          end in
        let w := set_sessionRounds (<[sid := roundNo]> (sessionRounds w)) w in
        match call sid sess (useAbility_inline sid fromPlayer toPlayer roundNo) w with
        | (Ok result, sess, w) =>
            (w, [to_room sid (roundResult result);
                 to_room sid (state (Session.serialize sess))])
        | (Throw err, _, w) =>
            (w, [to_socket socketId (error (message err))])
        end
  end.

(** socket.on('disconnect', ...) *)
Definition on_disconnect (socketId : string) (w : Server)
    : Server * list Output :=
  match socketToSession w !! socketId with
  | None => (w, [])
  | Some sid =>
      let '(w, out) :=
        match SessionManager.get sid (sessions w) with
        | Some sess =>
            match call sid sess (Session.detachSocket socketId) w with
            | (Ok true, sess, w) =>
                (w, [to_room sid (state (Session.serialize sess))])
            | (_, _, w) => (w, [])
            end
        | None => (w, [])
        end in
      (set_socketToSession (base.delete socketId (socketToSession w)) w, out)
  end.

(** POST /games *)
Definition createGameHandler (newId p1 p2 : string) (w : Server)
    : Server * list Output :=
  let '(sess, m) := SessionManager.create newId p1 p2 (sessions w) in
  (set_sessions m w, [res_created (Session.id sess)]).

(** GET /games/:sessionId/slots *)
Definition getAvailableSlotsHandler (sid : string) (w : Server)
    : Server * list Output :=
  match SessionManager.get sid (sessions w) with
  | None => (w, [res_error 404 "Session not found"])
  | Some sess => (w, [res_availableSlots (Session.getAvailableSlots sess)])
  end.

(** POST /games/:sessionId/join *)
Definition joinGameHandler (sid characterTypeId abilityId : string)
    (preferredSlot : option Z) (w : Server) : Server * list Output :=
  match SessionManager.get sid (sessions w) with
  | None => (w, [res_error 404 "Session not found"])
  | Some sess =>
      match call sid sess (Session.addPlayer characterTypeId abilityId preferredSlot) w with
      | (Ok playerId, _, w) => (w, [res_playerId playerId])
      | (Throw err, _, w) => (w, [res_error 400 (message err)])
      end
  end.

(** A timer of the session registered under [sid] fires: the handle is
    spent and the callback runs.  The callbacks of a session that is no
    longer registered only delete an identifier that is already absent
    (session identifiers are v4 UUIDs and are taken never to repeat), so
    such firings are left out. *)
Definition fire_pendingJoinTimer (sid : string) (w : Server) : Server :=
  match sessions w !! sid with
  | Some sess =>
      match Session.pendingJoinTimer sess with
      | Some Armed =>
          let sess := Session.set_pendingJoinTimer (Some Expired) sess in
          set_sessions
            (pendingJoinTimer_callback sess (<[sid := sess]> (sessions w))) w
      | _ => w
      end
  | None => w
  end.

Definition fire_disconnectTimer (sid : string) (w : Server) : Server :=
  match sessions w !! sid with
  | Some sess =>
      match Session.disconnectTimer sess with
      | Some Armed =>
          let sess := Session.set_disconnectTimer (Some Expired) sess in
          set_sessions
            (disconnectTimer_callback sess (<[sid := sess]> (sessions w))) w
      | _ => w
      end
  | None => w
  end.

(** Everything that can happen to the server, one event at a time (the
    event loop runs each handler to completion). *)
Inductive Event : Type :=
  | POST_games (newId p1 p2 : string)
  | GET_slots (sid : string)
  | POST_join (sid characterTypeId abilityId : string) (preferredSlot : option Z)
  | socket_join (socketId sid playerId : string)
  | socket_useAbility (socketId sid fromPlayer toPlayer : string)
  | socket_disconnect (socketId : string)
  | pendingJoinTimer_fires (sid : string)
  | disconnectTimer_fires (sid : string).

Definition step (e : Event) (w : Server) : Server * list Output :=
  match e with
  | POST_games newId p1 p2 => createGameHandler newId p1 p2 w
  | GET_slots sid => getAvailableSlotsHandler sid w
  | POST_join sid c a p => joinGameHandler sid c a p w
  | socket_join k sid p => on_join k sid p w
  | socket_useAbility k sid f t => on_useAbility k sid f t w
  | socket_disconnect k => on_disconnect k w
  | pendingJoinTimer_fires sid => (fire_pendingJoinTimer sid w, [])
  | disconnectTimer_fires sid => (fire_disconnectTimer sid w, [])
  end.

Fixpoint run (es : list Event) (w : Server) : Server * list Output :=
  match es with
  | [] => (w, [])
  | e :: es =>
      let '(w1, out1) := step e w in
      let '(w2, out2) := run es w1 in
      (w2, out1 ++ out2)
  end.

(** ** States reached by calls, and the observations the properties use *)

(** The public methods of [Session] that change it. *)
Inductive Call : Type :=
  | call_addPlayer (characterTypeId abilityId : string) (preferredSlot : option Z)
  | call_attachSocket (socketId playerId : string)
  | call_detachSocket (socketId : string)
  | call_useAbility (fromPlayer toPlayer : string).

(** The session after a call, whether the call returned or threw. *)
Definition perform (c : Call) (s : Session.t) (g : Rng) : Session.t :=
  match c with
  | call_addPlayer ct ab p => state_after (Session.addPlayer ct ab p s g)
  | call_attachSocket k p => state_after (Session.attachSocket k p s g)
  | call_detachSocket k => state_after (Session.detachSocket k s g)
  | call_useAbility f t => state_after (Session.useAbility f t s g)
  end.


(** Sessions reached from [new Session()] by calls that satisfy [P]; the
    two player identifiers of a session are distinct UUIDs. *)
Inductive reachable_by (P : Call → Prop) : Session.t → Prop :=
  | reach_new sid p1 p2 :
      p1 ≠ p2 → reachable_by P (Session.new sid p1 p2)
  | reach_call c s g :
      P c → reachable_by P s → reachable_by P (perform c s g).

Definition reachable : Session.t → Prop := reachable_by (λ _, True).

(** A join asks for no slot, or for slot 1 or 2. *)
Definition slot_in_range (c : Call) : Prop :=
  match c with
  | call_addPlayer _ _ p => p = None ∨ p = Some 1 ∨ p = Some 2
  | _ => True
  end.

(** The player of slot [k] has joined. *)
Definition slot_bound (k : Z) (s : Session.t) : Prop :=
  (k = 1 ∧ is_Some (Session.players s !! Session.player1Id s))
  ∨ (k = 2 ∧ is_Some (Session.players s !! Session.player2Id s)).

(** Some live connection is mapped to [pid]. *)
Definition connected (pid : string) (s : Session.t) : Prop :=
  ∃ socketId, Session.sockets s !! socketId = Some pid.

(** The ability of a character is one of the catalog, whose [kind] agrees
    with its [id]. *)
Definition from_catalog (c : Character.t) : Prop :=
  In (Character.ability c) Ability.all.

(** The round counter of a session: the entry of [sessionRounds], read as
    0 while there is none (the handler stores 1 at the first resolution of
    a session without entry, and 0 is stored when both players connect). *)
Definition roundCounter (sid : string) (w : Server) : Z :=
  default 0 (sessionRounds w !! sid).

(** The successful resolutions of session [sid] among the outputs: the
    [roundResult] broadcasts to its room. *)
Definition is_resolution (sid : string) (o : Output) : bool :=
  match o with
  | to_room room (roundResult _) => String.eqb room sid
  | _ => false
  end.

Definition resolutions (sid : string) (out : list Output) : Z :=
  Z.of_nat (length (List.filter (is_resolution sid) out)).

(** Servers reached from an empty process by any sequence of events. *)
Inductive server_reachable : Server → Prop :=
  | reach_boot g : server_reachable (boot g)
  | reach_step e w : server_reachable w → server_reachable (step e w).1.

(** A tape on which no ability hook fires: every draw is at least 0.25. *)
Definition never_triggers (g : Rng) : Prop :=
  ∀ n, Qltb (g n) (1 # 4) = false.

(** Example tapes and sessions used to exercise the definitions. *)
Definition tape_half : Rng := λ _, (1 # 2)%Q.

(** A tape on which every hook that draws fires. *)
Definition tape_low : Rng := λ _, (1 # 8)%Q.

(** Draws 0.875 and 0 make a character of attack 20 and defense 10. *)
Definition tape_20_10 : Rng :=
  λ n, match n with
       | 0%nat | 2%nat => (7 # 8)%Q
       | 1%nat | 3%nat => 0%Q
       | _ => (1 # 2)%Q
       end.

(** A session with two joined players of attack 20 and defense 10, the
    first with an offense ability and the second with a defense ability. *)
Definition ex_new : Session.t := Session.new "s" "p1" "p2".

Definition ex_join1 : Result string * Session.t * Rng :=
  Session.addPlayer "warrior" "boostAttackOnAttack" None ex_new tape_20_10.

Definition ex_join2 : Result string * Session.t * Rng :=
  Session.addPlayer "mage" "halfDamageOnDefend" None
    (state_after ex_join1) (rng_after ex_join1).

Definition ex_duel : Session.t := state_after ex_join2.

(** The same session registered in a server. *)
Definition ex_server : Server :=
  set_sessions {[ "s" := ex_duel ]} (boot tape_half).

(** Both players of [ex_duel] connected, each through one socket. *)
Definition ex_connected : Session.t :=
  perform (call_attachSocket "k2" "p2")
    (perform (call_attachSocket "k1" "p1") ex_duel tape_half) tape_half.

(** Two joins with an unknown character type, on a new session. *)
Definition ex_leaked : Session.t :=
  perform (call_addPlayer "bogus" "healUnder30" None)
    (perform (call_addPlayer "bogus" "healUnder30" None) ex_new tape_half)
    tape_half.

(** One join that asks for slot 3, on a new session. *)
Definition ex_slot3 : Session.t :=
  perform (call_addPlayer "warrior" "healUnder30" (Some 3)) ex_new tape_half.



(** A server in which one session has just been created. *)
Definition ex_created : Server := (step (POST_games "s" "p1" "p2") (boot tape_20_10)).1.

(** Two players join and connect, the first attacks, the second
    disconnects and comes back, and attacks in turn. *)
Definition ex_events : list Event :=
  [ POST_games "s" "p1" "p2";
    POST_join "s" "warrior" "boostAttackOnAttack" None;
    POST_join "s" "mage" "halfDamageOnDefend" None;
    socket_join "k1" "s" "p1";
    socket_join "k2" "s" "p2";
    socket_useAbility "k1" "s" "p1" "p2";
    socket_disconnect "k2";
    socket_join "k3" "s" "p2";
    socket_useAbility "k3" "s" "p2" "p1";
    socket_useAbility "k3" "s" "p2" "nobody" ].

(** The server after the first eight of these events: both players
    have joined and are connected, the second again after a disconnect
    that scheduled the disconnect timer. *)
Definition ex_reconnected : Server :=
  (run (take 8 ex_events) (boot tape_20_10)).1.

(** ** Derived forms used in the proofs *)

(** Step 6 of [addPlayer] as a function of the session. *)
Definition join_finish (s : Session.t) : Session.t :=
  if bool_decide (size (Session.players s) = 2%nat)
     && bool_decide (is_Some (Session.pendingJoinTimer s))
  then Session.set_pendingJoinTimer None s
  else s.

(** [attachSocket] and [detachSocket] as functions of the session. *)
Definition attached (socketId playerId : string) (s : Session.t) : Session.t :=
  let s1 := Session.set_sockets (<[socketId := playerId]> (Session.sockets s)) s in
  if Session.bothConnected s1 && bool_decide (is_Some (Session.disconnectTimer s1))
  then Session.set_disconnectTimer None s1
  else s1.

Definition detached (socketId : string) (s : Session.t) : Session.t :=
  let s1 := Session.set_sockets (delete socketId (Session.sockets s)) s in
  if negb (bool_decide (is_Some (Session.sockets s !! socketId))) then s1
  else if negb (Session.bothConnected s1)
          && negb (bool_decide (is_Some (Session.disconnectTimer s1)))
       then Session.set_disconnectTimer (Some Armed) s1
       else s1.

(** Every character of the session carries a catalog ability. *)
Definition catalog_session (s : Session.t) : Prop :=
  ∀ pid c, Session.players s !! pid = Some c → from_catalog c.

(** The players of a session are those of its two slots, and the slot
    of a joined player is taken. *)
Definition slots_inv (s : Session.t) : Prop :=
  Session.player1Id s ≠ Session.player2Id s
  ∧ (∀ pid, is_Some (Session.players s !! pid) →
            pid = Session.player1Id s ∨ pid = Session.player2Id s)
  ∧ (is_Some (Session.players s !! Session.player1Id s) →
     1 ∈ Session.takenSlots s)
  ∧ (is_Some (Session.players s !! Session.player2Id s) →
     2 ∈ Session.takenSlots s).

(** The calls that the gateway makes on a session: a connection is
    attached, and an attack resolved, only for players that have joined. *)
Definition guarded (s : Session.t) (c : Call) : Prop :=
  match c with
  | call_attachSocket _ p => Session.hasPlayer p s = true
  | call_useAbility f t =>
      Session.hasPlayer f s = true ∧ Session.hasPlayer t s = true
  | _ => True
  end.

(** What the gateway maintains of each session: catalog abilities,
    connections of joined players only, and no scheduled disconnect timer
    while both players are connected. *)
Definition gateway_inv (s : Session.t) : Prop :=
  catalog_session s
  ∧ (∀ k p, Session.sockets s !! k = Some p → is_Some (Session.players s !! p))
  ∧ (Session.disconnectTimer s = Some Armed → Session.bothConnected s = false).

Definition server_inv (w : Server) : Prop :=
  ∀ sid s, sessions w !! sid = Some s → Session.id s = sid ∧ gateway_inv s.

(** [if (x < 0) x = 0] *)
Definition clamp0 (z : Z) : Z := if z <? 0 then 0 else z.

(** The three places of a resolution where an ability may act, each as a
    function of the character that owns the ability. *)
Definition attack_roll (attacker : Character.t) (g : Rng) : Result Z * Rng :=
  match Ability.kind (Character.ability attacker) with
  | offense =>
      match Ability.id (Character.ability attacker) with
      | off offId =>
          let '(v, g') :=
            onAttack (OffenseBehaviors offId) (Character.attackPower attacker) g in
          (Ok v, g')
      | def _ => (Throw TypeError, g)
      end
  | defense => (Ok (Character.attackPower attacker), g)
  end.

Definition defend_roll (defender : Character.t) (netDamage : Z) : Rand Z :=
  match Ability.kind (Character.ability defender),
        Ability.id (Character.ability defender) with
  | defense, def DefenseAbility.HalfDamageOnDefend =>
      match onDefend (DefenseBehaviors DefenseAbility.HalfDamageOnDefend) with
      | Some hook => hook netDamage
      | None => mret netDamage
      end
  | _, _ => mret netDamage
  end.

Definition heal_roll (defender : Character.t) (h : Z) : Rand Z :=
  match Ability.kind (Character.ability defender),
        Ability.id (Character.ability defender) with
  | defense, def DefenseAbility.HealUnder30 =>
      match afterDamage (DefenseBehaviors DefenseAbility.HealUnder30) with
      | Some hook => hook h
      | None => mret h
      end
  | _, _ => mret h
  end.

(** The labels recorded by the transport layer: an ability is reported
    when its hook returned a value different from its input. *)
Definition offense_label (attacker : Character.t) (attackValue : Z)
    : option string :=
  match Ability.kind (Character.ability attacker),
        Ability.id (Character.ability attacker) with
  | offense, off offId =>
      if negb (attackValue =? Character.attackPower attacker)
      then Some (OffenseAbility.value offId) else None
  | _, _ => None
  end.

Definition defense_label (defender : Character.t)
    (rawDamage netDamage healthBefore healthAfterHeal : Z) : option string :=
  match Ability.kind (Character.ability defender),
        Ability.id (Character.ability defender) with
  | defense, def DefenseAbility.HalfDamageOnDefend =>
      if negb (netDamage =? rawDamage)
      then Some (DefenseAbility.value DefenseAbility.HalfDamageOnDefend)
      else None
  | defense, def DefenseAbility.HealUnder30 =>
      if negb (healthAfterHeal =? healthBefore)
      then Some (DefenseAbility.value DefenseAbility.HealUnder30)
      else None
  | _, _ => None
  end.

Definition join_labels (o d : option string) : option string :=
  match o, d with
  | Some o, Some d => Some (o +:+ "," +:+ d)
  | Some o, None => Some o
  | None, Some d => Some d
  | None, None => None
  end.

(** The session in which the character stored for [pid] is [c]. *)
Definition store (pid : string) (c : Character.t) (s : Session.t) : Session.t :=
  Session.set_players (<[pid := c]> (Session.players s)) s.

(** ** Further observations *)

(** A value that [Math.random()] can return: a double in [0,1). *)
Definition valid_draw (q : Q) : Prop := is_double q ∧ (0 <= q)%Q ∧ (q < 1)%Q.

(** The ranges documented for the stats of a character. *)
Definition stats_in_range (c : Character.t) : Prop :=
  15 ≤ Character.attackPower c ≤ 20 ∧ 10 ≤ Character.defensePower c ≤ 15.

(** At most two players, and no scheduled pending-join timer once two
    have joined. *)
Definition lifecycle_inv (s : Session.t) : Prop :=
  (size (Session.players s) ≤ 2)%nat
  ∧ (size (Session.players s) = 2%nat →
     Session.pendingJoinTimer s ≠ Some Armed).

(** The players are keyed by the two identifiers of the session. *)
Definition keyed_by_slots (s : Session.t) : Prop :=
  ∀ pid, is_Some (Session.players s !! pid) →
         pid = Session.player1Id s ∨ pid = Session.player2Id s.

(** The health of every character is between 0 and 100. *)
Definition health_in_range (s : Session.t) : Prop :=
  ∀ pid c, Session.players s !! pid = Some c → 0 ≤ Character.health c ≤ 100.

(** The entry of a snapshot for one player. *)
Definition serialized_player (pid : string) (c : Character.t)
    : Session.SerializedPlayer :=
  {| Session.sp_playerId := pid;
     Session.sp_name := Character.name c;
     Session.sp_health := Character.health c;
     Session.sp_attackPower := Character.attackPower c;
     Session.sp_defensePower := Character.defensePower c;
     Session.sp_abilityId := AbilityType_value (Ability.id (Character.ability c));
     Session.sp_attackTypes := Character.attackTypes c |}.

(** * Properties *)

(** ** Running the method monad *)

Ltac eff :=
  unfold mbind, mret, Eff_bind, Eff_ret, eff_bind, eff_ret,
    Rand_bind, Rand_ret, rand_bind, rand_ret, get, put, throw, liftRand in *.

Ltac hooks_opaque :=
  cbn -[Session.assign_health Session.health_of Z.ltb
        BoostAttackOnAttack_onAttack HalfDamageOnDefend_onDefend
        HealUnder30_afterDamage].

Lemma assign_health_run pid h d s g :
  Session.players s !! pid = Some d →
  Session.assign_health pid h s g
  = (Ok tt, store pid (Character.set_health h d) s, g).
Proof.
  intros Hd. unfold Session.assign_health, store. eff. cbn.
  do 3 f_equal. apply map_eq. intros k.
  rewrite lookup_alter, lookup_insert.
  destruct (decide (pid = k)) as [->|]; [by rewrite Hd | done].
Qed.

Lemma store_store pid c c' s : store pid c (store pid c' s) = store pid c s.
Proof.
  unfold store, Session.set_players. cbn. f_equal. apply insert_insert_eq.
Qed.

Lemma players_store pid c s :
  Session.players (store pid c s) !! pid = Some c.
Proof. apply lookup_insert_eq. Qed.

Lemma players_store_ne pid pid' c s :
  pid ≠ pid' → Session.players (store pid c s) !! pid' = Session.players s !! pid'.
Proof. intros. by apply lookup_insert_ne. Qed.

Lemma health_of_store pid c s :
  Session.health_of pid (store pid c s) = Character.health c.
Proof. unfold Session.health_of. by rewrite players_store. Qed.

Lemma health_of_players pid c s :
  Session.players s !! pid = Some c →
  Session.health_of pid s = Character.health c.
Proof. intros H. unfold Session.health_of. by rewrite H. Qed.

Lemma assign_health_store pid h c s g :
  Session.assign_health pid h (store pid c s) g
  = (Ok tt, store pid (Character.set_health h c) s, g).
Proof.
  rewrite (assign_health_run pid h c) by apply players_store.
  by rewrite store_store.
Qed.

(** Symbolic execution of the combat code: field writes are resolved
    against the player found for the defender, comparisons with 0 are
    split, and the hooks are left as they are. *)
Ltac run_pipeline Hd :=
  repeat first
    [ rewrite (assign_health_run _ _ _ _ _ Hd)
    | rewrite assign_health_store
    | rewrite health_of_store
    | rewrite (health_of_players _ _ _ Hd)
    | progress hooks_opaque
    | match goal with
      | |- context [ if ?c then _ else _ ] =>
          lazymatch c with
          | (_ <? _) => destruct c eqn:?
          end
      end
    | match goal with
      | |- context [ let '(_, _) := ?X in _ ] =>
          lazymatch type of X with
          | (Z * Rng)%type => destruct X as [? ?] eqn:?
          end
      end ].

(** ** [Session.useAbility] and the inlined copy, in closed form *)

Lemma useAbility_closed fromPlayer toPlayer s g :
  Session.useAbility fromPlayer toPlayer s g =
  match Session.players s !! fromPlayer, Session.players s !! toPlayer with
  | Some attacker, Some defender =>
      match attack_roll attacker g with
      | (Throw e, g1) => (Throw e, s, g1)
      | (Ok attackValue, g1) =>
          let '(netDamage, g2) :=
            defend_roll defender
              (clamp0 (attackValue - Character.defensePower defender)) g1 in
          let '(h, g3) :=
            heal_roll defender
              (clamp0 (Character.health defender - netDamage)) g2 in
          (Ok tt, store toPlayer (Character.set_health h defender) s, g3)
      end
  | _, _ => (Throw PlayersNotFound, s, g)
  end.
Proof.
  unfold Session.useAbility, attack_roll, defend_roll, heal_roll, clamp0. eff.
  hooks_opaque.
  destruct (Session.players s !! fromPlayer) as [attacker|] eqn:Ha; [|done].
  destruct (Session.players s !! toPlayer) as [defender|] eqn:Hd; [|done].
  destruct (Ability.kind (Character.ability attacker)),
           (Ability.id (Character.ability attacker)) as [[]|d]; try done.
  all: destruct (Ability.kind (Character.ability defender)),
             (Ability.id (Character.ability defender)) as [o'|[|]].
  all: run_pipeline Hd.
  all: done.
Qed.

Lemma useAbility_inline_closed sid fromPlayer toPlayer roundNo s g :
  useAbility_inline sid fromPlayer toPlayer roundNo s g =
  match Session.players s !! fromPlayer, Session.players s !! toPlayer with
  | Some attacker, Some defender =>
      match attack_roll attacker g with
      | (Throw e, g1) => (Throw e, s, g1)
      | (Ok attackValue, g1) =>
          let rawDamage := clamp0 (attackValue - Character.defensePower defender) in
          let '(netDamage, g2) := defend_roll defender rawDamage g1 in
          let healthBefore := clamp0 (Character.health defender - netDamage) in
          let '(h, g3) := heal_roll defender healthBefore g2 in
          let s' := store toPlayer (Character.set_health h defender) s in
          (Ok {| roundNumber := roundNo;
                 sessionId := sid;
                 attackerId := fromPlayer;
                 attackerName := Character.name attacker;
                 defenderId := toPlayer;
                 defenderName := Character.name defender;
                 abilityUsed :=
                   join_labels (offense_label attacker attackValue)
                     (defense_label defender rawDamage netDamage healthBefore h);
                 damageDealt := netDamage;
                 healthAfter :=
                   <[toPlayer := Session.health_of toPlayer s']>
                     {[fromPlayer := Session.health_of fromPlayer s']} |},
           s', g3)
      end
  | _, _ => (Throw TypeError, s, g)
  end.
Proof.
  unfold useAbility_inline, attack_roll, defend_roll, heal_roll, clamp0,
    offense_label, defense_label, join_labels. eff.
  hooks_opaque.
  destruct (Session.players s !! fromPlayer) as [attacker|] eqn:Ha; [|done].
  destruct (Session.players s !! toPlayer) as [defender|] eqn:Hd; [|done].
  destruct (Ability.kind (Character.ability attacker)),
           (Ability.id (Character.ability attacker)) as [[]|d]; try done.
  all: destruct (Ability.kind (Character.ability defender)),
             (Ability.id (Character.ability defender)) as [o'|[|]].
  all: run_pipeline Hd.
  all: try done.
  all: repeat case_match; done.
Qed.

Lemma inline_agrees sid fromPlayer toPlayer roundNo s g :
  state_after (useAbility_inline sid fromPlayer toPlayer roundNo s g)
  = state_after (Session.useAbility fromPlayer toPlayer s g)
  ∧ rng_after (useAbility_inline sid fromPlayer toPlayer roundNo s g)
    = rng_after (Session.useAbility fromPlayer toPlayer s g).
Proof.
  rewrite useAbility_inline_closed, useAbility_closed.
  destruct (Session.players s !! fromPlayer) as [attacker|];
    destruct (Session.players s !! toPlayer) as [defender|]; try done.
  destruct (attack_roll attacker g) as [[av|e] g1]; [|done].
  cbn zeta.
  destruct (defend_roll _ _ _) as [nd g2].
  destruct (heal_roll _ _ _) as [h g3]. done.
Qed.

Lemma inline_succeeds_iff sid fromPlayer toPlayer roundNo s g :
  (∃ res, outcome (useAbility_inline sid fromPlayer toPlayer roundNo s g) = Ok res)
  ↔ outcome (Session.useAbility fromPlayer toPlayer s g) = Ok tt.
Proof.
  rewrite useAbility_inline_closed, useAbility_closed.
  destruct (Session.players s !! fromPlayer) as [attacker|];
    destruct (Session.players s !! toPlayer) as [defender|];
    try (split; [intros [? ?]|]; done).
  destruct (attack_roll attacker g) as [[av|e] g1];
    [|split; [intros [? ?]|]; done].
  cbn zeta.
  destruct (defend_roll _ _ _) as [nd g2].
  destruct (heal_roll _ _ _) as [h g3].
  split; [done|]. intros _. by eexists.
Qed.

(** ** Binary64 rounding *)

Lemma pow2_pos e : (0 < pow2 e)%Q.
Proof. by apply Qpower_0_lt. Qed.

Lemma pow2_add a b : (pow2 (a + b) == pow2 a * pow2 b)%Q.
Proof. by apply Qpower_plus. Qed.

Lemma pow2_Z k : 0 ≤ k → (pow2 k == inject_Z (2 ^ k))%Q.
Proof. intros Hk. unfold pow2. by rewrite Zpower_Qpower. Qed.

Lemma pow2_le a b : a ≤ b → (pow2 a <= pow2 b)%Q.
Proof. intros Hab. apply Qpower_le_compat_l; [done|]. by compute. Qed.

Lemma pow2_cancel e : (pow2 e * pow2 (- e) == 1)%Q.
Proof. rewrite <- pow2_add. by replace (e + - e) with 0 by lia. Qed.

(** The nearest integer: no integer is closer to [s] than
    [round_half_even s]. *)
Lemma round_half_even_nearest (s : Q) (M : Z) :
  (Qabs (inject_Z (round_half_even s) - s) <= Qabs (inject_Z M - s))%Q.
Proof.
  unfold round_half_even.
  pose proof (Qfloor_le s) as Hlo. pose proof (Qlt_floor s) as Hhi.
  set (f := Qfloor s) in *.
  rewrite inject_Z_plus in Hhi. change (inject_Z 1) with 1%Q in Hhi.
  assert (HM : (inject_Z M <= inject_Z f)%Q ∨ (inject_Z f + 1 <= inject_Z M)%Q).
  { destruct (Z_le_gt_dec M f) as [H|H].
    - left. by rewrite <- Zle_Qle.
    - right. change 1%Q with (inject_Z 1).
      rewrite <- inject_Z_plus, <- Zle_Qle. lia. }
  assert (Hcases : ∀ r : Z,
    (r = f ∧ (s - inject_Z f <= 1 # 2)%Q)
    ∨ (r = f + 1 ∧ (1 # 2 <= s - inject_Z f)%Q) →
    (Qabs (inject_Z r - s) <= Qabs (inject_Z M - s))%Q).
  { intros r [[-> Hd]|[-> Hd]].
    - apply Qabs_case; intros ?; apply Qabs_case; intros ?;
        destruct HM; lra.
    - rewrite inject_Z_plus. change (inject_Z 1) with 1%Q.
      apply Qabs_case; intros ?; apply Qabs_case; intros ?;
        destruct HM; lra. }
  destruct (s - inject_Z f ?= 1 # 2)%Q eqn:Hc.
  - apply Qeq_alt in Hc. destruct (Z.even f); apply Hcases; [left|right];
      (split; [done|lra]).
  - apply Qlt_alt in Hc. apply Hcases. left. split; [done|lra].
  - apply Qgt_alt in Hc. apply Hcases. right. split; [done|lra].
Qed.

Lemma round_half_even_nonneg (s : Q) : (0 <= s)%Q → 0 ≤ round_half_even s.
Proof.
  intros Hs. unfold round_half_even.
  assert (0 ≤ Qfloor s).
  { change 0 with (Qfloor 0). by apply Qfloor_resp_le. }
  destruct (_ ?= _)%Q; [destruct (Z.even _)|..]; lia.
Qed.

(** [ilog2 x] is not above the binary logarithm of [x]. *)
Lemma ilog2_le (x : Q) : (0 < x)%Q → (pow2 (ilog2 x) <= x)%Q.
Proof.
  intros Hx. unfold ilog2.
  set (k := Z.log2 (Qnum x) - Z.log2 (Z.pos (Qden x))).
  destruct (Qle_bool (pow2 k) x) eqn:Hb; [by apply Qle_bool_iff|].
  destruct x as [a b]. cbn [Qnum Qden] in *.
  assert (Ha : 0 < a) by (unfold Qlt in Hx; cbn in Hx; lia).
  pose proof (Z.log2_spec a Ha) as [Hla _].
  pose proof (Z.log2_spec (Z.pos b) ltac:(lia)) as [_ Hlb].
  pose proof (Z.log2_nonneg a). pose proof (Z.log2_nonneg (Z.pos b)).
  set (la := Z.log2 a) in *. set (lb := Z.log2 (Z.pos b)) in *.
  (* 2^la ≤ a and b < 2^(lb+1), so 2^(la - lb - 1) ≤ a / b *)
  assert (Hq : (pow2 (k - 1) * inject_Z (2 ^ Z.succ lb) == inject_Z (2 ^ la))%Q).
  { rewrite <- !pow2_Z by lia. rewrite <- pow2_add.
    by replace (k - 1 + Z.succ lb) with la by (unfold k; lia). }
  assert (H1 : (inject_Z (2 ^ la) <= inject_Z a)%Q) by by rewrite <- Zle_Qle.
  assert (H2 : (inject_Z (Z.pos b) <= inject_Z (2 ^ Z.succ lb))%Q)
    by (rewrite <- Zle_Qle; lia).
  pose proof (pow2_pos (k - 1)) as Hp.
  assert (H3 : (pow2 (k - 1) * inject_Z (Z.pos b) <= inject_Z a)%Q).
  { eapply Qle_trans; [|exact H1]. rewrite <- Hq.
    apply Qmult_le_l; [done|done]. }
  (* a # b is a / b *)
  assert (Hab : (a # b == inject_Z a / inject_Z (Z.pos b))%Q)
    by apply Qmake_Qdiv.
  rewrite Hab. apply Qle_shift_div_l; [by compute|done].
Qed.

(** No double is closer to [x] than [round_binary64 x]. *)
Lemma round_positive_nearest (x d : Q) :
  (0 < x)%Q → is_double d →
  (Qabs (round_positive x - x) <= Qabs (d - x))%Q.
Proof.
  intros Hx (m & e' & Hm & He' & Hd).
  unfold round_positive.
  set (e := Z.max (ilog2 x - 52) (-1074)).
  pose proof (pow2_pos e) as Hpe.
  set (s := (x / pow2 e)%Q).
  assert (Hxs : (x == s * pow2 e)%Q).
  { unfold s. field. lra. }
  (* it is enough to be at least as close as some multiple of 2^e *)
  assert (Hmult : ∀ M : Z,
    (Qabs (inject_Z M - s) <= Qabs (d / pow2 e - s))%Q →
    (Qabs (inject_Z (round_half_even s) * pow2 e - x) <= Qabs (d - x))%Q).
  { intros M HM.
    pose proof (round_half_even_nearest s M) as Hn.
    assert (E1 : (inject_Z (round_half_even s) * pow2 e - x
                  == (inject_Z (round_half_even s) - s) * pow2 e)%Q)
      by (rewrite Hxs at 1; ring).
    assert (E2 : (d - x == (d / pow2 e - s) * pow2 e)%Q)
      by (rewrite Hxs at 1; field; lra).
    rewrite E1, E2, !Qabs_Qmult, (Qabs_pos (pow2 e)) by lra.
    apply Qmult_le_compat_r; [|lra]. by eapply Qle_trans. }
  destruct (Z_le_gt_dec e e') as [Hle|Hgt].
  - (* [d] is a multiple of 2^e *)
    apply (Hmult (m * 2 ^ (e' - e))).
    assert (Hde : (d / pow2 e == inject_Z (m * 2 ^ (e' - e)))%Q).
    { rewrite Hd, inject_Z_mult, <- pow2_Z by lia.
      replace e' with ((e' - e) + e) at 1 by lia.
      rewrite pow2_add. field. lra. }
    rewrite Hde. apply Qle_refl.
  - (* [d] is below 2^(52+e), which is a multiple of 2^e below [x] *)
    assert (He : e = ilog2 x - 52) by (unfold e in *; lia).
    apply (Hmult (2 ^ 52)).
    assert (Hs : (inject_Z (2 ^ 52) <= s)%Q).
    { unfold s. apply Qle_shift_div_l; [done|].
      rewrite <- (pow2_Z 52) by lia. rewrite <- pow2_add.
      replace (52 + e) with (ilog2 x) by lia. by apply ilog2_le. }
    assert (Hds : (d / pow2 e <= inject_Z (2 ^ 52))%Q).
    { apply Qle_shift_div_r; [done|].
      rewrite Hd. rewrite <- (pow2_Z 52) by lia. rewrite <- pow2_add.
      pose proof (pow2_pos e') as Hpe'.
      assert (Hm' : (inject_Z m <= inject_Z (2 ^ 53))%Q)
        by (rewrite <- Zle_Qle; lia).
      eapply Qle_trans.
      { apply Qmult_le_compat_r; [exact Hm'|lra]. }
      rewrite <- (pow2_Z 53) by lia. rewrite <- pow2_add.
      apply pow2_le. lia. }
    apply Qabs_case; intros ?; apply Qabs_case; intros ?; lra.
Qed.

Lemma round_positive_nonneg (x : Q) : (0 < x)%Q → (0 <= round_positive x)%Q.
Proof.
  intros Hx. unfold round_positive.
  set (e := Z.max _ _). pose proof (pow2_pos e) as Hpe.
  apply Qmult_le_0_compat; [|lra].
  change 0%Q with (inject_Z 0). rewrite <- Zle_Qle.
  apply round_half_even_nonneg. apply Qle_shift_div_l; [done|lra].
Qed.

Lemma is_double_opp (d : Q) : is_double d → is_double (- d).
Proof.
  intros (m & e & Hm & He & Hd). exists (- m), e.
  split; [lia|]. split; [done|].
  rewrite Hd, inject_Z_opp. ring.
Qed.

(** A double is its own rounding. *)
Lemma round_binary64_exact (x : Q) :
  is_double x → (round_binary64 x == x)%Q.
Proof.
  intros Hd.
  assert (Hpos : ∀ y, (0 < y)%Q → is_double y → (round_positive y == y)%Q).
  { intros y Hy Hdy.
    pose proof (round_positive_nearest y y Hy Hdy) as Hn.
    assert (E : (y - y == 0)%Q) by ring.
    rewrite E in Hn. change (Qabs 0) with 0%Q in Hn.
    pose proof (Qabs_nonneg (round_positive y - y)) as H0.
    assert (Hz : (Qabs (round_positive y - y) == 0)%Q) by lra.
    revert Hz. apply Qabs_case; intros ? ?; lra. }
  unfold round_binary64. destruct (x ?= 0)%Q eqn:Hc.
  - apply Qeq_alt in Hc. by rewrite Hc.
  - apply Qlt_alt in Hc.
    rewrite (Hpos (- x)%Q); [ring|lra|by apply is_double_opp].
  - apply Qgt_alt in Hc. by apply Hpos.
Qed.

(** The largest double below 1 is [1 - 2^-53]. *)
Lemma double_below_one (r : Q) :
  is_double r → (r < 1)%Q → (r <= 1 - pow2 (-53))%Q.
Proof.
  intros (m & e & Hm & He & Hr) Hlt.
  pose proof (pow2_pos e) as Hpe.
  pose proof (pow2_cancel 53) as Hc. pose proof (pow2_pos 53) as Hp53.
  pose proof (pow2_pos (-53)) as Hn53.
  destruct (Z_le_gt_dec (-53) e) as [Hge|Hlow].
  - (* [r * 2^53] is an integer below 2^53 *)
    assert (Hint : (r * pow2 53 == inject_Z (m * 2 ^ (e + 53)))%Q).
    { rewrite Hr, inject_Z_mult, <- pow2_Z by lia. rewrite pow2_add. ring. }
    assert (Hb : (inject_Z (m * 2 ^ (e + 53)) < inject_Z (2 ^ 53))%Q).
    { rewrite <- Hint, <- pow2_Z by lia.
      rewrite <- (Qmult_1_l (pow2 53)) at 2.
      by apply Qmult_lt_compat_r. }
    rewrite <- Zlt_Qlt in Hb.
    assert (Hb' : (inject_Z (m * 2 ^ (e + 53)) <= inject_Z (2 ^ 53 - 1))%Q)
      by (rewrite <- Zle_Qle; lia).
    rewrite <- Hint in Hb'.
    unfold Z.sub in Hb'. rewrite inject_Z_plus, <- pow2_Z in Hb' by lia.
    change (inject_Z (- (1))) with (- (1))%Q in Hb'.
    assert (E : (r == r * pow2 53 * pow2 (-53))%Q)
      by (rewrite <- Qmult_assoc, Hc; ring).
    rewrite E.
    assert (E2 : (1 - pow2 (-53) == (pow2 53 + - (1)) * pow2 (-53))%Q)
      by (rewrite Qmult_plus_distr_l, Hc; ring).
    rewrite E2. apply Qmult_le_compat_r; [done|lra].
  - (* [r] is at most 2^53 * 2^-54 *)
    assert (Hm' : (inject_Z m <= pow2 53)%Q).
    { rewrite pow2_Z by lia. rewrite <- Zle_Qle. lia. }
    assert (He54 : (pow2 e <= pow2 (-54))%Q) by (apply pow2_le; lia).
    assert (Hr' : (r <= pow2 53 * pow2 (-54))%Q).
    { rewrite Hr.
      destruct (Qlt_le_dec (inject_Z m) 0) as [Hneg|Hnn].
      - apply Qle_trans with 0%Q.
        + assert (H0 : (inject_Z m * pow2 e <= 0 * pow2 e)%Q)
            by (apply Qmult_le_compat_r; lra).
          by rewrite Qmult_0_l in H0.
        + pose proof (pow2_pos (-54)).
          apply Qmult_le_0_compat; lra.
      - apply Qle_trans with (pow2 53 * pow2 e)%Q.
        + apply Qmult_le_compat_r; lra.
        + apply Qmult_le_l; [done|done]. }
    assert (E54 : (pow2 53 * pow2 (-54) == 1 # 2)%Q) by reflexivity.
    assert (E53 : (pow2 (-53) <= 1 # 2)%Q) by by compute.
    lra.
Qed.

(** The product of a draw and a positive integer [n] that a double
    holds, as the processor rounds it, is still below [n]: the largest
    draw is [1 - 2^-53], and [n - n * 2^-53] is more than half a step
    away from [n]. *)
Lemma Number_mul_draw (r : Q) (n : Z) :
  is_double r → (0 <= r)%Q → (r < 1)%Q → 1 ≤ n ≤ 2 ^ 53 →
  (0 <= Number_mul r (inject_Z n))%Q
  ∧ (Number_mul r (inject_Z n) < inject_Z n)%Q.
Proof.
  intros Hd H0 H1 Hn.
  pose proof (double_below_one r Hd H1) as Hr.
  assert (Ec : (pow2 (-53) == 1 # 9007199254740992)%Q) by reflexivity.
  rewrite Ec in Hr.
  assert (HN : (1 <= inject_Z n)%Q).
  { change 1%Q with (inject_Z 1). rewrite <- Zle_Qle. lia. }
  set (N := inject_Z n) in *.
  unfold Number_mul, round_binary64.
  set (x := (r * N)%Q).
  assert (Hx0 : (0 <= x)%Q) by (apply Qmult_le_0_compat; lra).
  assert (Hxn : (x <= N - N * (1 # 9007199254740992))%Q).
  { assert (E : (N - N * (1 # 9007199254740992)
                 == (1 - (1 # 9007199254740992)) * N)%Q) by ring.
    rewrite E. apply Qmult_le_compat_r; lra. }
  destruct (x ?= 0)%Q eqn:Hc.
  - split; lra.
  - apply Qlt_alt in Hc. lra.
  - apply Qgt_alt in Hc.
    split; [by apply round_positive_nonneg|].
    destruct (Qlt_le_dec (round_positive x) N) as [|Hge]; [done|exfalso].
    (* the power of two at or below [n] *)
    pose proof (Z.log2_spec n ltac:(lia)) as [HP1 HP2].
    pose proof (Z.log2_nonneg n) as Hk.
    set (k := Z.log2 n) in *.
    assert (HP0 : 1 ≤ 2 ^ k) by (apply (Z.pow_le_mono_r 2 0 k); lia).
    assert (HQP : (1 <= inject_Z (2 ^ k))%Q).
    { change 1%Q with (inject_Z 1). by rewrite <- Zle_Qle. }
    destruct (Z.eq_dec n (2 ^ k)) as [Heq|Hne].
    + (* [n] is a power of two: [n - n * 2^-53] is a double *)
      assert (Hk53 : k ≤ 53).
      { apply (Z.pow_le_mono_r_iff 2); lia. }
      assert (Hdd : is_double (N - N * (1 # 9007199254740992))%Q).
      { exists (2 ^ 53 - 1), (k - 53). split; [lia|]. split; [lia|].
        assert (E2 : (pow2 (k - 53) == pow2 k * pow2 (-53))%Q)
          by (rewrite <- pow2_add; by replace (k + -53) with (k - 53) by lia).
        rewrite E2, Ec, pow2_Z by lia. unfold N. rewrite <- Heq.
        change (inject_Z (2 ^ 53 - 1)) with (9007199254740991 # 1)%Q.
        field. }
      pose proof (round_positive_nearest x _ Hc Hdd) as Hnear.
      revert Hnear. apply Qabs_case; intros ?; apply Qabs_case; intros ?; lra.
    + (* otherwise the double one step of 2^(k-52) below [n] is closer *)
      assert (Hk52 : k ≤ 52).
      { assert (2 ^ k < 2 ^ 53) by lia.
        apply Z.pow_lt_mono_r_iff in H; lia. }
      assert (HPn : (inject_Z (2 ^ k) + 1 <= N)%Q).
      { unfold N. change 1%Q with (inject_Z 1).
        rewrite <- inject_Z_plus, <- Zle_Qle. lia. }
      assert (Ec2 : (pow2 (-52) == 1 # 4503599627370496)%Q) by reflexivity.
      assert (Hdd : is_double (N - inject_Z (2 ^ k) * (1 # 4503599627370496))%Q).
      { exists (n * 2 ^ (52 - k) - 1), (k - 52).
        assert (Hpw : 2 ^ Z.succ k * 2 ^ (52 - k) = 2 ^ 53).
        { rewrite <- Z.pow_add_r by lia. f_equal. lia. }
        assert (0 < 2 ^ (52 - k)) by (apply Z.pow_pos_nonneg; lia).
        split; [nia|]. split; [lia|].
        unfold Z.sub at 1. rewrite inject_Z_plus, inject_Z_mult.
        rewrite <- (pow2_Z (52 - k)), <- (pow2_Z k) by lia.
        change (inject_Z (- (1))) with (- (1))%Q.
        rewrite <- Ec2.
        assert (E1 : (pow2 (52 - k) * pow2 (k - 52) == 1)%Q).
        { rewrite <- pow2_add. by replace (52 - k + (k - 52)) with 0 by lia. }
        assert (E2 : (pow2 (k - 52) == pow2 k * pow2 (-52))%Q)
          by (rewrite <- pow2_add; by replace (k + -52) with (k - 52) by lia).
        fold N. rewrite E2.
        assert (E3 : ((N * pow2 (52 - k) + - (1)) * (pow2 k * pow2 (-52))
                      == N * (pow2 (52 - k) * (pow2 k * pow2 (-52)))
                         - pow2 k * pow2 (-52))%Q) by ring.
        rewrite E3, <- E2, E1. ring. }
      pose proof (round_positive_nearest x _ Hc Hdd) as Hnear.
      assert (HcP : (inject_Z (2 ^ k) * (1 # 9007199254740992)
                     < N * (1 # 9007199254740992))%Q) by lra.
      revert Hnear. apply Qabs_case; intros ?; apply Qabs_case; intros ?; lra.
Qed.

(** [ilog2 x] is the integer part of the binary logarithm of [x]. *)
Lemma ilog2_lt (x : Q) : (0 < x)%Q → (x < pow2 (ilog2 x + 1))%Q.
Proof.
  intros Hx. unfold ilog2.
  set (k := Z.log2 (Qnum x) - Z.log2 (Z.pos (Qden x))).
  destruct (Qle_bool (pow2 k) x) eqn:Hb.
  - destruct x as [a b]. cbn [Qnum Qden] in *. clear Hb.
    assert (Ha : 0 < a) by (unfold Qlt in Hx; cbn in Hx; lia).
    pose proof (Z.log2_spec a Ha) as [_ Hla].
    pose proof (Z.log2_spec (Z.pos b) ltac:(lia)) as [Hlb _].
    pose proof (Z.log2_nonneg a). pose proof (Z.log2_nonneg (Z.pos b)).
    set (la := Z.log2 a) in *. set (lb := Z.log2 (Z.pos b)) in *.
    assert (Hq : (pow2 (k + 1) * inject_Z (2 ^ lb) == inject_Z (2 ^ Z.succ la))%Q).
    { rewrite <- !pow2_Z by lia. rewrite <- pow2_add.
      by replace (k + 1 + lb) with (Z.succ la) by (unfold k; lia). }
    assert (H1 : (inject_Z a < inject_Z (2 ^ Z.succ la))%Q) by by rewrite <- Zlt_Qlt.
    assert (H2 : (inject_Z (2 ^ lb) <= inject_Z (Z.pos b))%Q)
      by by rewrite <- Zle_Qle.
    pose proof (pow2_pos (k + 1)) as Hp.
    assert (H3 : (inject_Z a < pow2 (k + 1) * inject_Z (Z.pos b))%Q).
    { eapply Qlt_le_trans; [exact H1|]. rewrite <- Hq.
      apply Qmult_le_l; [done|done]. }
    assert (Hab : (a # b == inject_Z a / inject_Z (Z.pos b))%Q)
      by apply Qmake_Qdiv.
    rewrite Hab. apply Qlt_shift_div_r; [by compute|done].
  - replace (k - 1 + 1) with k by lia.
    apply Qnot_le_lt. intros Hle. apply Qle_bool_iff in Hle. congruence.
Qed.

Lemma round_half_even_le (s : Q) (M : Z) :
  (s <= inject_Z M)%Q → round_half_even s ≤ M.
Proof.
  intros Hs. unfold round_half_even.
  pose proof (Qfloor_le s) as Hlo.
  set (f := Qfloor s) in *.
  assert (Hf : f ≤ M) by (rewrite Zle_Qle; lra).
  assert (Hup : (0 < s - inject_Z f)%Q → f + 1 ≤ M).
  { intros Hpos. assert (Hlt : (inject_Z f < inject_Z M)%Q) by lra.
    rewrite <- Zlt_Qlt in Hlt. lia. }
  destruct (s - inject_Z f ?= 1 # 2)%Q eqn:Hc.
  - apply Qeq_alt in Hc. destruct (Z.even f); [done|]. apply Hup. lra.
  - done.
  - apply Qgt_alt in Hc. apply Hup. lra.
Qed.

(** The result of the rounding is a double. *)
Lemma round_positive_double (x : Q) :
  (0 < x)%Q → is_double (round_positive x).
Proof.
  intros Hx. unfold round_positive.
  set (e := Z.max (ilog2 x - 52) (-1074)).
  pose proof (pow2_pos e) as Hpe.
  exists (round_half_even (x / pow2 e)), e.
  split; [|split; [lia|reflexivity]].
  assert (H0 : 0 ≤ round_half_even (x / pow2 e)).
  { apply round_half_even_nonneg. apply Qle_shift_div_l; [done|lra]. }
  assert (H1 : round_half_even (x / pow2 e) ≤ 2 ^ 53).
  { apply round_half_even_le. apply Qle_shift_div_r; [done|].
    rewrite <- (pow2_Z 53) by lia. rewrite <- pow2_add.
    apply Qle_trans with (pow2 (ilog2 x + 1)).
    - apply Qlt_le_weak. by apply ilog2_lt.
    - apply pow2_le. lia. }
  lia.
Qed.

Lemma round_binary64_double (x : Q) : is_double (round_binary64 x).
Proof.
  unfold round_binary64. destruct (x ?= 0)%Q eqn:Hc.
  - exists 0, 0. split; [done|]. split; [done|reflexivity].
  - apply Qlt_alt in Hc. apply is_double_opp, round_positive_double. lra.
  - apply Qgt_alt in Hc. by apply round_positive_double.
Qed.

(** No double is closer to [x] than its rounding. *)
Lemma round_binary64_nearest (x d : Q) :
  is_double d →
  (Qabs (round_binary64 x - x) <= Qabs (d - x))%Q.
Proof.
  intros Hd. unfold round_binary64. destruct (x ?= 0)%Q eqn:Hc.
  - apply Qeq_alt in Hc. rewrite Hc.
    assert (E : (0 - 0 == 0)%Q) by ring. rewrite E.
    apply Qabs_nonneg.
  - apply Qlt_alt in Hc.
    pose proof (round_positive_nearest (- x) (- d) ltac:(lra)
                  (is_double_opp d Hd)) as Hn.
    revert Hn. repeat (apply Qabs_case; intros ?); intros; lra.
  - apply Qgt_alt in Hc. by apply round_positive_nearest.
Qed.

(** ** The hooks *)

Lemma Math_floor_half (n : Z) : Math_floor (inject_Z n / inject_Z 2) = n / 2.
Proof.
  unfold Math_floor, Qfloor, Qdiv, Qmult, Qinv, inject_Z. cbn.
  by rewrite Z.mul_1_r.
Qed.

Lemma Math_floor_boost (n : Z) :
  Math_floor (inject_Z n * (3 # 2)) = 3 * n / 2.
Proof.
  unfold Math_floor, Qfloor, Qmult, inject_Z. cbn.
  f_equal. lia.
Qed.

Lemma never_triggers_tail g : never_triggers g → never_triggers (λ n, g (S n)).
Proof. intros H n. apply H. Qed.

(** [baseAttack * 1.5] is exact as long as three times the attack fits
    the mantissa. *)
Lemma Number_mul_boost (b : Z) :
  0 ≤ 3 * b ≤ 2 ^ 53 →
  Math_floor (Number_mul (inject_Z b) (3 # 2)) = 3 * b / 2.
Proof.
  intros Hb. rewrite <- Math_floor_boost. unfold Math_floor, Number_mul.
  apply Qfloor_comp, round_binary64_exact.
  exists (3 * b), (-1). split; [lia|]. split; [done|].
  rewrite inject_Z_mult. change (pow2 (-1)) with (1 # 2)%Q.
  change (inject_Z 3) with 3%Q. ring.
Qed.

Lemma onAttack_values b g :
  0 ≤ 3 * b ≤ 2 ^ 53 →
  (BoostAttackOnAttack_onAttack b g).1 = b
  ∨ (BoostAttackOnAttack_onAttack b g).1 = 3 * b / 2.
Proof.
  intros Hb. unfold BoostAttackOnAttack_onAttack. eff. cbn.
  destruct (Qltb _ _); cbn; [right; by apply Number_mul_boost | by left].
Qed.

Lemma onDefend_values n g :
  (HalfDamageOnDefend_onDefend n g).1 = n
  ∨ (HalfDamageOnDefend_onDefend n g).1 = n / 2.
Proof.
  unfold HalfDamageOnDefend_onDefend. eff. cbn.
  destruct (Qltb _ _); cbn; [right; apply Math_floor_half | by left].
Qed.

Lemma afterDamage_values h g :
  (HealUnder30_afterDamage h g).1 = h
  ∨ (0 < h < 30 ∧ (HealUnder30_afterDamage h g).1 = h + 5).
Proof.
  unfold HealUnder30_afterDamage. eff.
  destruct ((0 <? h) && (h <? 30)) eqn:Hc; cbn; [|by left].
  apply andb_true_iff in Hc as [?%Z.ltb_lt ?%Z.ltb_lt].
  destruct (Qltb _ _); cbn; [right; split; [lia | done] | by left].
Qed.

Lemma defend_roll_values d n g :
  (defend_roll d n g).1 = n ∨ (defend_roll d n g).1 = n / 2.
Proof.
  unfold defend_roll.
  destruct (Ability.kind (Character.ability d)),
    (Ability.id (Character.ability d)) as [?|[|]]; cbn; try by left.
  apply onDefend_values.
Qed.

Lemma heal_roll_values d h g :
  (heal_roll d h g).1 = h ∨ (0 < h < 30 ∧ (heal_roll d h g).1 = h + 5).
Proof.
  unfold heal_roll.
  destruct (Ability.kind (Character.ability d)),
    (Ability.id (Character.ability d)) as [?|[|]]; cbn; try by left.
  apply afterDamage_values.
Qed.

Lemma clamp0_nonneg z : 0 ≤ clamp0 z.
Proof. unfold clamp0. destruct (z <? 0) eqn:H; [done|]. apply Z.ltb_ge in H. lia. Qed.

Lemma heal_roll_nonneg d h g : 0 ≤ h → 0 ≤ (heal_roll d h g).1.
Proof. intros. destruct (heal_roll_values d h g) as [ -> | [_ ->] ]; lia. Qed.

Lemma defend_roll_nonneg d n g : 0 ≤ n → 0 ≤ (defend_roll d n g).1.
Proof.
  intros. destruct (defend_roll_values d n g) as [ -> | -> ]; [done|].
  by apply Z.div_pos.
Qed.

(** On a tape where no hook fires, each of the three rolls returns its
    input and leaves such a tape. *)
Lemma attack_roll_quiet a g :
  never_triggers g → from_catalog a →
  ∃ g', attack_roll a g = (Ok (Character.attackPower a), g') ∧ never_triggers g'.
Proof.
  intros Hg Hcat. unfold attack_roll, from_catalog in *.
  unfold Ability.all in Hcat. cbn in Hcat.
  destruct Hcat as [ <- | [ <- | [ <- | [] ] ] ]; cbn; eauto.
  unfold BoostAttackOnAttack_onAttack. eff. cbn.
  rewrite (Hg 0%nat). cbn. eauto using never_triggers_tail.
Qed.

Lemma defend_roll_quiet d n g :
  never_triggers g →
  ∃ g', defend_roll d n g = (n, g') ∧ never_triggers g'.
Proof.
  intros Hg. unfold defend_roll.
  destruct (Ability.kind (Character.ability d)),
    (Ability.id (Character.ability d)) as [?|[|]]; cbn; eauto.
  unfold HalfDamageOnDefend_onDefend. eff. cbn.
  rewrite (Hg 0%nat). cbn. eauto using never_triggers_tail.
Qed.

Lemma heal_roll_quiet d h g :
  never_triggers g →
  ∃ g', heal_roll d h g = (h, g') ∧ never_triggers g'.
Proof.
  intros Hg. unfold heal_roll.
  destruct (Ability.kind (Character.ability d)),
    (Ability.id (Character.ability d)) as [?|[|]]; cbn -[Z.ltb]; eauto.
  unfold HealUnder30_afterDamage. eff.
  destruct ((0 <? h) && (h <? 30)); cbn; eauto.
  rewrite (Hg 0%nat). cbn. eauto using never_triggers_tail.
Qed.

(** ** The methods of [Session] as functions of the session *)

Lemma hasPlayer_true p s :
  Session.hasPlayer p s = true ↔ is_Some (Session.players s !! p).
Proof. unfold Session.hasPlayer. apply bool_decide_eq_true. Qed.

Lemma attachSocket_run socketId playerId s g :
  Session.attachSocket socketId playerId s g
  = (Ok tt, attached socketId playerId s, g).
Proof.
  unfold Session.attachSocket, attached. eff. cbn.
  by destruct (Session.bothConnected _ && bool_decide _).
Qed.

Lemma detachSocket_run socketId s g :
  Session.detachSocket socketId s g
  = (Ok (bool_decide (is_Some (Session.sockets s !! socketId))),
     detached socketId s, g).
Proof.
  unfold Session.detachSocket, detached. eff. cbn.
  case_bool_decide; cbn; [|done].
  by destruct (negb (Session.bothConnected _) && negb (bool_decide _)).
Qed.

Lemma assignPlayerSlot_cases pid pref s g :
  (is_Some (Session.players s !! pid)
   ∧ Session.assignPlayerSlot pid pref s g =
       (Ok (if bool_decide (1 ∈ Session.takenSlots s)
               && bool_decide (pid = Session.player1Id s) then 1 else 2), s, g))
  ∨ (Session.players s !! pid = None
     ∧ ((∃ k, Session.assignPlayerSlot pid pref s g =
               (Ok k, Session.set_takenSlots ({[k]} ∪ Session.takenSlots s) s, g)
             ∧ (k ∉ Session.takenSlots s)
             ∧ ((pref = Some k ∧ k ≠ 0)
                ∨ (head (Session.getAvailableSlots s) = Some k)))
        ∨ (Session.assignPlayerSlot pid pref s g = (Throw NoSlotsAvailable, s, g)
           ∧ Session.getAvailableSlots s = []))).
Proof.
  unfold Session.assignPlayerSlot. eff. cbn.
  case_bool_decide as Hhas; [by left|].
  right. split; [by apply eq_None_not_Some|].
  assert (Hfall : ∀ k, head (Session.getAvailableSlots s) = Some k →
                       k ∉ Session.takenSlots s).
  { intros k. unfold Session.getAvailableSlots.
    repeat case_bool_decide; simpl; intros [= <-]; done. }
  assert (Hlow :
    (∃ k, match Session.getAvailableSlots s with
          | [] => λ s0 g0, (Throw NoSlotsAvailable, s0, g0)
          | assignedSlot :: _ => λ _ g0,
              (Ok assignedSlot,
               Session.set_takenSlots ({[assignedSlot]} ∪ Session.takenSlots s) s, g0)
          end s g
          = (Ok k, Session.set_takenSlots ({[k]} ∪ Session.takenSlots s) s, g)
          ∧ (k ∉ Session.takenSlots s)
          ∧ ((pref = Some k ∧ k ≠ 0)
             ∨ (head (Session.getAvailableSlots s) = Some k)))
    ∨ (match Session.getAvailableSlots s with
       | [] => λ s0 g0, (Throw NoSlotsAvailable, s0, g0)
       | assignedSlot :: _ => λ _ g0,
           (Ok assignedSlot,
            Session.set_takenSlots ({[assignedSlot]} ∪ Session.takenSlots s) s, g0)
       end s g = (Throw NoSlotsAvailable, s, g)
       ∧ Session.getAvailableSlots s = [])).
  { destruct (Session.getAvailableSlots s) as [|k l] eqn:Hav; [by right|].
    left. exists k. split; [done|]. split; [by apply Hfall|]. by right. }
  destruct pref as [p|]; cbn; [|done].
  destruct (negb (p =? 0)) eqn:Hz; cbn; [|done].
  case_bool_decide as Htaken; cbn; [done|].
  left. exists p. split; [done|]. split; [done|]. left. split; [done|].
  apply negb_true_iff in Hz. lia.
Qed.

Lemma addPlayer_unfold ct ab pref s g :
  Session.addPlayer ct ab pref s g =
  if bool_decide (2 ≤ size (Session.players s))%nat
  then (Throw SessionFull, s, g)
  else
    match Session.assignPlayerSlot "" pref s g with
    | (Throw e, s0, g0) => (Throw e, s0, g0)
    | (Ok slot, s0, g0) =>
        let pid :=
          if slot =? 1 then Session.player1Id s else Session.player2Id s in
        match Character.parseType ct with
        | None => (Throw (InvalidCharacterType ct), s0, g0)
        | Some ty =>
            match Ability.findById ab with
            | None => (Throw (InvalidAbilityId ab), s0, g0)
            | Some a =>
                let '(c, g') := Character.new ty a g0 in
                (Ok pid,
                 join_finish (store pid c s0),
                 g')
            end
        end
    end.
Proof.
  unfold Session.addPlayer. eff.
  change (find (λ t, String.eqb (CharacterType.value t) ct) CharacterType.values)
    with (Character.parseType ct).
  cbn -[Character.parseType Ability.findById Character.new
        Session.assignPlayerSlot].
  case_bool_decide; [done|].
  destruct (Session.assignPlayerSlot "" pref s g) as [[[slot|e] s0] g0]; [|done].
  destruct (Character.parseType ct) as [ty|]; [|done].
  destruct (Ability.findById ab) as [a|]; [|done].
  destruct (Character.new ty a g0) as [c g'].
  unfold join_finish, store. cbn.
  by destruct (bool_decide _ && bool_decide _).
Qed.

Lemma assignPlayerSlot_frame pid pref s g :
  ∃ r taken,
    Session.assignPlayerSlot pid pref s g
    = (r, Session.set_takenSlots taken s, g)
    ∧ Session.takenSlots s ⊆ taken.
Proof.
  assert (Hs : s = Session.set_takenSlots (Session.takenSlots s) s)
    by by destruct s.
  destruct (assignPlayerSlot_cases pid pref s g)
    as [[_ ->]|[_ [(k & -> & _)|[-> _]]]].
  - eexists _, _. split; [by rewrite <- Hs|done].
  - eexists _, _. split; [done|set_solver].
  - eexists _, _. split; [by rewrite <- Hs|done].
Qed.

Lemma findById_catalog i a : Ability.findById i = Some a → In a Ability.all.
Proof. intros H. by apply find_some in H as [? _]. Qed.

Lemma Character_new_fields ty a g :
  Character.health (Character.new ty a g).1 = 100
  ∧ Character.ability (Character.new ty a g).1 = a.
Proof. done. Qed.

(** What a join leaves behind: the identifiers, the connections and the
    disconnect timer are untouched, slots are only ever claimed, and the
    players either stay as they are or gain one fresh catalog character
    with health 100 under the returned identifier. *)
Lemma addPlayer_effect ct ab pref s g :
  let r := Session.addPlayer ct ab pref s g in
  let s' := state_after r in
  Session.id s' = Session.id s
  ∧ Session.player1Id s' = Session.player1Id s
  ∧ Session.player2Id s' = Session.player2Id s
  ∧ Session.sockets s' = Session.sockets s
  ∧ Session.disconnectTimer s' = Session.disconnectTimer s
  ∧ Session.takenSlots s ⊆ Session.takenSlots s'
  ∧ ((Session.players s' = Session.players s ∧ ∃ e, outcome r = Throw e)
     ∨ ∃ pid c,
         outcome r = Ok pid
         ∧ Session.players s' = <[pid := c]> (Session.players s)
         ∧ Character.health c = 100
         ∧ from_catalog c).
Proof.
  cbn zeta. rewrite addPlayer_unfold.
  case_bool_decide; [by cbn; eauto 10|].
  destruct (assignPlayerSlot_frame "" pref s g) as (r & taken & -> & Hsub).
  destruct r as [slot|e]; [|by cbn; eauto 10].
  destruct (Character.parseType ct) as [ty|]; [|by cbn; eauto 10].
  destruct (Ability.findById ab) as [a|] eqn:Ha; [|by cbn; eauto 10].
  apply findById_catalog in Ha.
  pose proof (Character_new_fields ty a g) as [Hh Hab].
  destruct (Character.new ty a g) as [c g'].
  unfold state_after, outcome, join_finish. cbn in *.
  destruct (bool_decide _ && bool_decide _); cbn;
    (repeat split; try done; right; eexists _, c;
     repeat split; try done;
     unfold from_catalog; by rewrite Hab).
Qed.

Lemma useAbility_effect fromPlayer toPlayer s g :
  state_after (Session.useAbility fromPlayer toPlayer s g) = s
  ∨ ∃ d h,
      Session.players s !! toPlayer = Some d
      ∧ state_after (Session.useAbility fromPlayer toPlayer s g)
        = store toPlayer (Character.set_health h d) s.
Proof.
  rewrite useAbility_closed.
  destruct (Session.players s !! fromPlayer) as [a|]; [|by left].
  destruct (Session.players s !! toPlayer) as [d|]; [|by left].
  destruct (attack_roll a g) as [[av|e] g1]; [|by left].
  cbn zeta. destruct (defend_roll _ _ _) as [nd g2].
  destruct (heal_roll _ _ _) as [h g3]. right. by exists d, h.
Qed.

(** ** Invariants of reachable sessions *)

Lemma catalog_store pid c s :
  catalog_session s → from_catalog c → catalog_session (store pid c s).
Proof.
  intros Hs Hc k c'. unfold store. cbn. rewrite lookup_insert.
  case_decide; [by intros [= <-] | apply Hs].
Qed.

Lemma catalog_perform c s g :
  catalog_session s → catalog_session (perform c s g).
Proof.
  intros Hs. destruct c as [ct ab p|k p|k|f t]; cbn.
  - destruct (addPlayer_effect ct ab p s g)
      as (_ & _ & _ & _ & _ & _ & [[Heq _]|(pid & c & _ & Heq & _ & Hc)]);
      intros k c'; rewrite Heq; [apply Hs|].
    rewrite lookup_insert. case_decide; [by intros [= <-] | apply Hs].
  - rewrite attachSocket_run. unfold state_after, attached. cbn.
    by destruct (Session.bothConnected _ && bool_decide _).
  - rewrite detachSocket_run. unfold state_after, detached. cbn.
    case_bool_decide; cbn; [|done].
    by destruct (negb (Session.bothConnected _) && negb (bool_decide _)).
  - destruct (useAbility_effect f t s g) as [->|(d & h & Hd & ->)]; [done|].
    apply catalog_store; [done|]. by apply (Hs t d).
Qed.

Lemma reachable_catalog P s : reachable_by P s → catalog_session s.
Proof.
  induction 1 as [sid p1 p2 _|c s g _ _ IH].
  - intros pid c. cbn. by rewrite lookup_empty.
  - by apply catalog_perform.
Qed.

(** ** Combat resolution *)

(** A resolution between two players of a session, on a tape where no
    hook fires: the attack value is the attacker's power, the damage is
    what exceeds the defender's defense, and no ability is reported. *)
Lemma quiet_resolution sid fromPlayer toPlayer roundNo s g a d :
  Session.players s !! fromPlayer = Some a →
  Session.players s !! toPlayer = Some d →
  from_catalog a →
  never_triggers g →
  ∃ res g',
    let dmg := clamp0 (Character.attackPower a - Character.defensePower d) in
    let h := clamp0 (Character.health d - dmg) in
    useAbility_inline sid fromPlayer toPlayer roundNo s g
    = (Ok res, store toPlayer (Character.set_health h d) s, g')
    ∧ damageDealt res = dmg
    ∧ abilityUsed res = None
    ∧ healthAfter res !! toPlayer = Some h.
Proof.
  intros Ha Hd Hcat Hg. rewrite useAbility_inline_closed, Ha, Hd.
  destruct (attack_roll_quiet a g Hg Hcat) as (g1 & -> & Hg1).
  cbn zeta.
  destruct (defend_roll_quiet d
              (clamp0 (Character.attackPower a - Character.defensePower d))
              g1 Hg1) as (g2 & -> & Hg2).
  destruct (heal_roll_quiet d
              (clamp0 (Character.health d
                       - clamp0 (Character.attackPower a - Character.defensePower d)))
              g2 Hg2) as (g3 & -> & _).
  eexists _, g3. cbn. repeat split.
  - unfold offense_label, defense_label, join_labels.
    rewrite !Z.eqb_refl. cbn.
    by destruct (Ability.kind (Character.ability a)),
      (Ability.id (Character.ability a)),
      (Ability.kind (Character.ability d)),
      (Ability.id (Character.ability d)) as [?|[|]].
  - cbn [healthAfter]. by rewrite lookup_insert_eq, health_of_store.
Qed.

(** The output of the ['useAbility'] handler when the combat logic
    returns a round result. *)
Lemma on_useAbility_resolved socketId sid f t w sess res s' g' :
  sessions w !! sid = Some sess →
  Session.hasPlayer f sess = true →
  Session.hasPlayer t sess = true →
  useAbility_inline sid f t
    (match sessionRounds w !! sid with Some n => n + 1 | None => 1 end)
    sess (random w) = (Ok res, s', g') →
  (on_useAbility socketId sid f t w).2
  = [to_room sid (roundResult res);
     to_room sid (state (Session.serialize s'))].
Proof.
  intros Hs Hf Ht Hrun. unfold on_useAbility, SessionManager.get, call.
  rewrite Hs, Hf, Ht. cbn [negb orb random set_sessionRounds].
  by rewrite Hrun.
Qed.

(** C1 (Scenario A).  A session is created and two players join, with
    identifiers [P1] and [P2]; both characters have attack power 20 and
    defense power 10, and no hook fires during the attack.  One
    ['useAbility'] event from [P1] against [P2] broadcasts a round result
    with [damageDealt = 10], [abilityUsed = null] and
    [healthAfter[P2] = 90]: the defender was created with health 100. *)
Theorem scenario_A_round_result
    sid p1 p2 ct1 ab1 pref1 ct2 ab2 pref2 g P1 P2 s1 g1 s2 g2 c1 c2
    socketId w :
  Session.addPlayer ct1 ab1 pref1 (Session.new sid p1 p2) g = (Ok P1, s1, g1) →
  Session.addPlayer ct2 ab2 pref2 s1 g1 = (Ok P2, s2, g2) →
  P1 ≠ P2 →
  Session.players s2 !! P1 = Some c1 →
  Session.players s2 !! P2 = Some c2 →
  Character.attackPower c1 = 20 → Character.defensePower c1 = 10 →
  Character.attackPower c2 = 20 → Character.defensePower c2 = 10 →
  sessions w !! sid = Some s2 →
  never_triggers (random w) →
  ∃ res snapshot,
    (on_useAbility socketId sid P1 P2 w).2
    = [to_room sid (roundResult res); to_room sid (state snapshot)]
    ∧ attackerId res = P1 ∧ defenderId res = P2
    ∧ damageDealt res = 10
    ∧ abilityUsed res = None
    ∧ healthAfter res !! P2 = Some 90.
Proof.
  intros Hj1 Hj2 Hne Hc1 Hc2 Ha1 _ _ Hd2 Hw Hquiet.
  pose proof (addPlayer_effect ct1 ab1 pref1 (Session.new sid p1 p2) g) as E1.
  pose proof (addPlayer_effect ct2 ab2 pref2 s1 g1) as E2.
  rewrite Hj1 in E1. rewrite Hj2 in E2.
  unfold state_after, outcome in E1, E2. cbn in E1, E2.
  destruct E1 as (_ & _ & _ & _ & _ & _ &
                  [[_ [? [=]]]|(q1 & k1 & [= <-] & Hp1 & _ & Hcat1)]).
  destruct E2 as (_ & _ & _ & _ & _ & _ &
                  [[_ [? [=]]]|(q2 & k2 & [= <-] & Hp2 & Hh2 & _)]).
  assert (Hs1 : Session.players s2 !! P1 = Some k1).
  { by rewrite Hp2, lookup_insert_ne, Hp1, lookup_insert_eq. }
  assert (Hs2 : Session.players s2 !! P2 = Some k2).
  { by rewrite Hp2, lookup_insert_eq. }
  rewrite Hs1 in Hc1. injection Hc1 as <-.
  rewrite Hs2 in Hc2. injection Hc2 as <-.
  destruct (quiet_resolution sid P1 P2
              (match sessionRounds w !! sid with Some n => n + 1 | None => 1 end)
              s2 (random w) k1 k2 Hs1 Hs2 Hcat1 Hquiet)
    as (res & g3 & Hrun & Hdmg & Hnone & Hafter).
  rewrite Ha1, Hd2, Hh2 in *.
  exists res. eexists. split.
  - eapply on_useAbility_resolved; [done| | |exact Hrun];
      apply hasPlayer_true; by eexists.
  - rewrite useAbility_inline_closed, Hs1, Hs2 in Hrun.
    destruct (attack_roll k1 (random w)) as [[av|e] ga]; [|done].
    cbn zeta in Hrun.
    destruct (defend_roll k2 _ ga) as [nd gb].
    destruct (heal_roll k2 _ gb) as [h gc].
    injection Hrun as <- _ _. cbn in *. by repeat split.
Qed.

Lemma scenario_A_round_result_witness :
  ∃ res snapshot,
    (on_useAbility "k1" "s" "p1" "p2" ex_server).2
    = [to_room "s" (roundResult res); to_room "s" (state snapshot)]
    ∧ attackerId res = "p1" ∧ defenderId res = "p2"
    ∧ damageDealt res = 10
    ∧ abilityUsed res = None
    ∧ healthAfter res !! "p2" = Some 90.
Proof.
  eapply (scenario_A_round_result "s" "p1" "p2"
            "warrior" "boostAttackOnAttack" None
            "mage" "halfDamageOnDefend" None
            tape_20_10 "p1" "p2"
            (state_after ex_join1) (rng_after ex_join1)
            ex_duel (rng_after ex_join2) _ _ "k1" ex_server).
  - vm_compute. reflexivity.
  - vm_compute. reflexivity.
  - discriminate.
  - vm_compute. reflexivity.
  - vm_compute. reflexivity.
  - reflexivity.
  - reflexivity.
  - reflexivity.
  - reflexivity.
  - reflexivity.
  - intros n. reflexivity.
Defined.

(** Scenarios B and C at once: on a tape where the hooks fire, the attack
    of 20 is boosted to 30, the net damage of 20 is halved to 10, and both
    abilities are reported, the offense one first. *)
Example ex_both_hooks_fire :
  match outcome (useAbility_inline "s" "p1" "p2" 1 ex_duel tape_low) with
  | Ok res => (damageDealt res, abilityUsed res, healthAfter res !! "p2")
  | Throw _ => (0, None, None)
  end = (10, Some "boostAttackOnAttack,halfDamageOnDefend", Some 90).
Proof. vm_compute. reflexivity. Qed.

(** C2, as amended.  After a resolution the defender's health is at least
    0, and the health of the attacker is what it was whenever the attacker
    is not the defender (a player may target itself, and is then the
    defender).  This holds for [Session.useAbility] and for the state left
    by the copy of the combat logic in the transport layer. *)
Theorem resolution_health_bounds sid roundNo fromPlayer toPlayer s g :
  outcome (Session.useAbility fromPlayer toPlayer s g) = Ok tt →
  let s' := state_after (Session.useAbility fromPlayer toPlayer s g) in
  let s'' := state_after (useAbility_inline sid fromPlayer toPlayer roundNo s g) in
  s'' = s'
  ∧ 0 ≤ Session.health_of toPlayer s'
  ∧ (fromPlayer ≠ toPlayer →
     Session.players s' !! fromPlayer = Session.players s !! fromPlayer
     ∧ Session.health_of fromPlayer s' = Session.health_of fromPlayer s).
Proof.
  intros Hok. cbn zeta.
  split; [apply inline_agrees|].
  revert Hok. rewrite useAbility_closed.
  destruct (Session.players s !! fromPlayer) as [a|] eqn:Ha; [|done].
  destruct (Session.players s !! toPlayer) as [d|] eqn:Hd; [|done].
  destruct (attack_roll a g) as [[av|e] g1]; [|done].
  cbn zeta.
  destruct (defend_roll d (clamp0 (av - Character.defensePower d)) g1)
    as [nd g2].
  pose proof (heal_roll_nonneg d (clamp0 (Character.health d - nd)) g2
                (clamp0_nonneg _)) as Hh.
  destruct (heal_roll d (clamp0 (Character.health d - nd)) g2) as [h g3].
  intros _. unfold state_after. cbn [fst snd] in *. split.
  - by rewrite health_of_store.
  - intros Hne. unfold Session.health_of.
    by rewrite players_store_ne, Ha by congruence.
Qed.

Lemma resolution_health_bounds_witness :
  let s' := state_after (Session.useAbility "p1" "p2" ex_duel tape_half) in
  let s'' := state_after (useAbility_inline "s" "p1" "p2" 1 ex_duel tape_half) in
  s'' = s'
  ∧ 0 ≤ Session.health_of "p2" s'
  ∧ ("p1" ≠ "p2" →
     Session.players s' !! "p1" = Session.players ex_duel !! "p1"
     ∧ Session.health_of "p1" s' = Session.health_of "p1" ex_duel).
Proof.
  apply (resolution_health_bounds "s" 1 "p1" "p2" ex_duel tape_half).
  vm_compute. reflexivity.
Defined.

(** C2 as stated fails when a player targets itself: the attacker of the
    resolution is its defender, and its health drops from 100 to 90. *)
Lemma attacker_health_changes_on_self_attack :
  let s := state_after ex_join1 in
  let r := Session.useAbility "p1" "p1" s tape_half in
  reachable s
  ∧ Session.hasPlayer "p1" s = true
  ∧ outcome r = Ok tt
  ∧ Session.health_of "p1" s = 100
  ∧ Session.health_of "p1" (state_after r) = 90
  ∧ Session.health_of "p1" (state_after r) ≠ Session.health_of "p1" s.
Proof.
  cbn zeta. split.
  - apply (reach_call _ (call_addPlayer _ _ _)); [done|].
    by apply reach_new.
  - repeat split; try (vm_compute; reflexivity).
    vm_compute. discriminate.
Qed.

(** C9.  The ['useAbility'] handler leaves the session exactly as
    [Session.useAbility] does from the same session and the same draws of
    [Math.random()]: the stored session, hence the defender's final health,
    and the position on the random tape are the same, and the handler
    broadcasts a round result exactly when [Session.useAbility] returns
    without throwing. *)
Theorem handler_refines_useAbility socketId sid fromPlayer toPlayer w sess :
  sessions w !! sid = Some sess →
  let w' := (on_useAbility socketId sid fromPlayer toPlayer w).1 in
  let out := (on_useAbility socketId sid fromPlayer toPlayer w).2 in
  let r := Session.useAbility fromPlayer toPlayer sess (random w) in
  sessions w' !! sid = Some (state_after r)
  ∧ Session.health_of toPlayer <$> sessions w' !! sid
    = Some (Session.health_of toPlayer (state_after r))
  ∧ random w' = rng_after r
  ∧ ((∃ res, to_room sid (roundResult res) ∈ out) ↔ outcome r = Ok tt).
Proof.
  intros Hs. cbn zeta.
  assert (Hgoal :
    sessions (on_useAbility socketId sid fromPlayer toPlayer w).1 !! sid
      = Some (state_after (Session.useAbility fromPlayer toPlayer sess (random w)))
    ∧ random (on_useAbility socketId sid fromPlayer toPlayer w).1
      = rng_after (Session.useAbility fromPlayer toPlayer sess (random w))
    ∧ ((∃ res, to_room sid (roundResult res)
               ∈ (on_useAbility socketId sid fromPlayer toPlayer w).2)
       ↔ outcome (Session.useAbility fromPlayer toPlayer sess (random w)) = Ok tt)).
  2:{ destruct Hgoal as (H1 & H2 & H3). by rewrite H1. }
  unfold on_useAbility, SessionManager.get. rewrite Hs.
  unfold Session.hasPlayer.
  destruct (negb (bool_decide (is_Some (Session.players sess !! fromPlayer)))
            || negb (bool_decide (is_Some (Session.players sess !! toPlayer))))
    eqn:Hguard.
  - (* the guard rejects the event *)
    rewrite useAbility_closed. cbn [fst snd].
    assert (Hnone : Session.players sess !! fromPlayer = None
                    ∨ Session.players sess !! toPlayer = None).
    { apply orb_true_iff in Hguard as [H|H];
        apply negb_true_iff, bool_decide_eq_false in H;
        apply eq_None_not_Some in H; auto. }
    assert (Hthrow :
      match Session.players sess !! fromPlayer,
            Session.players sess !! toPlayer with
      | Some attacker, Some defender =>
          match attack_roll attacker (random w) with
          | (Throw e, g1) => (Throw e, sess, g1)
          | (Ok attackValue, g1) =>
              let '(netDamage, g2) :=
                defend_roll defender
                  (clamp0 (attackValue - Character.defensePower defender)) g1 in
              let '(h, g3) :=
                heal_roll defender
                  (clamp0 (Character.health defender - netDamage)) g2 in
              (Ok tt, store toPlayer (Character.set_health h defender) sess, g3)
          end
      | _, _ => (Throw PlayersNotFound, sess, random w)
      end = (Throw PlayersNotFound, sess, random w)).
    { destruct Hnone as [-> | ->]; [done|].
      by destruct (Session.players sess !! fromPlayer). }
    rewrite Hthrow. unfold state_after, rng_after, outcome. cbn.
    repeat split; try done.
    intros [res Hin]. apply list_elem_of_singleton in Hin. done.
  - (* the combat logic runs *)
    pose proof (inline_agrees sid fromPlayer toPlayer
                  (match sessionRounds w !! sid with
                   | Some n => n + 1
                   | None => 1
                   end) sess (random w)) as [Hst Hrng].
    pose proof (inline_succeeds_iff sid fromPlayer toPlayer
                  (match sessionRounds w !! sid with
                   | Some n => n + 1
                   | None => 1
                   end) sess (random w)) as Hok.
    rewrite <- Hst, <- Hrng, <- Hok.
    unfold call. cbn [random set_sessionRounds].
    destruct (useAbility_inline _ _ _ _ _ _) as [[[res|e] s1] g1];
      unfold state_after, rng_after, outcome; cbn.
    + rewrite lookup_insert_eq. repeat split; try done.
      * intros _. by eexists.
      * intros _. exists res. apply list_elem_of_here.
    + rewrite lookup_insert_eq. repeat split; try done.
      * intros [res Hin]. apply list_elem_of_singleton in Hin. done.
      * intros [? [=]].
Qed.

Lemma handler_refines_useAbility_witness :
  let w' := (on_useAbility "k1" "s" "p1" "p2" ex_server).1 in
  let out := (on_useAbility "k1" "s" "p1" "p2" ex_server).2 in
  let r := Session.useAbility "p1" "p2" ex_duel (random ex_server) in
  sessions w' !! "s" = Some (state_after r)
  ∧ Session.health_of "p2" <$> sessions w' !! "s"
    = Some (Session.health_of "p2" (state_after r))
  ∧ random w' = rng_after r
  ∧ ((∃ res, to_room "s" (roundResult res) ∈ out) ↔ outcome r = Ok tt).
Proof.
  apply (handler_refines_useAbility "k1" "s" "p1" "p2" ex_server ex_duel).
  reflexivity.
Defined.

(** C10.  A player that has joined may target itself: the gateway's guard
    accepts the pair, [Session.useAbility] and the inlined copy both return
    without error, the player's own character is read as attacker (its
    attack power, its offense ability) and as defender (its defense power,
    its defense ability), and its own health is lowered by the resulting
    net damage through the usual steps: floor at 0, then the
    [HealUnder30] hook.  In particular the health drops by exactly the net
    damage whenever at least 30 remain. *)
Theorem self_target_is_resolved sid roundNo p c s g :
  reachable s →
  Session.players s !! p = Some c →
  ∃ av g1 nd g2 h g3 res,
    attack_roll c g = (Ok av, g1)
    ∧ defend_roll c (clamp0 (av - Character.defensePower c)) g1 = (nd, g2)
    ∧ heal_roll c (clamp0 (Character.health c - nd)) g2 = (h, g3)
    ∧ Session.hasPlayer p s = true
    ∧ Session.useAbility p p s g
      = (Ok tt, store p (Character.set_health h c) s, g3)
    ∧ useAbility_inline sid p p roundNo s g
      = (Ok res, store p (Character.set_health h c) s, g3)
    ∧ attackerId res = p ∧ defenderId res = p
    ∧ damageDealt res = nd
    ∧ healthAfter res !! p = Some h
    ∧ Session.health_of p (store p (Character.set_health h c) s) = h
    ∧ (30 ≤ Character.health c - nd → h = Character.health c - nd).
Proof.
  intros Hreach Hc.
  pose proof (reachable_catalog _ _ Hreach p c Hc) as Hcat.
  assert (Hroll : ∃ av g1, attack_roll c g = (Ok av, g1)).
  { unfold attack_roll, from_catalog, Ability.all in *. cbn in Hcat.
    destruct Hcat as [ <- | [ <- | [ <- | [] ] ] ]; cbn; eauto.
    destruct (BoostAttackOnAttack_onAttack _ _); eauto. }
  destruct Hroll as (av & g1 & Hav).
  destruct (defend_roll c (clamp0 (av - Character.defensePower c)) g1)
    as [nd g2] eqn:Hnd.
  pose proof (heal_roll_values c (clamp0 (Character.health c - nd)) g2) as Hheal.
  destruct (heal_roll c (clamp0 (Character.health c - nd)) g2)
    as [h g3] eqn:Hh.
  eexists av, g1, nd, g2, h, g3, _.
  rewrite useAbility_closed, useAbility_inline_closed, Hc, Hav.
  cbn zeta. rewrite Hnd, Hh.
  repeat split; try done.
  - unfold Session.hasPlayer. rewrite Hc. by apply bool_decide_eq_true.
  - cbn [healthAfter]. by rewrite lookup_insert_eq, health_of_store.
  - by rewrite health_of_store.
  - intros Hbig. cbn [fst] in Hheal. unfold clamp0 in Hheal.
    destruct (Character.health c - nd <? 0) eqn:Hneg.
    + apply Z.ltb_lt in Hneg. lia.
    + destruct Hheal as [->|[? _]]; [done | lia].
Qed.

Lemma self_target_is_resolved_witness :
  ∃ c, Session.players (state_after ex_join1) !! "p1" = Some c ∧
  ∃ av g1 nd g2 h g3 res,
    attack_roll c tape_half = (Ok av, g1)
    ∧ defend_roll c (clamp0 (av - Character.defensePower c)) g1 = (nd, g2)
    ∧ heal_roll c (clamp0 (Character.health c - nd)) g2 = (h, g3)
    ∧ Session.hasPlayer "p1" (state_after ex_join1) = true
    ∧ Session.useAbility "p1" "p1" (state_after ex_join1) tape_half
      = (Ok tt, store "p1" (Character.set_health h c) (state_after ex_join1), g3)
    ∧ useAbility_inline "s" "p1" "p1" 1 (state_after ex_join1) tape_half
      = (Ok res, store "p1" (Character.set_health h c) (state_after ex_join1), g3)
    ∧ attackerId res = "p1" ∧ defenderId res = "p1"
    ∧ damageDealt res = nd
    ∧ healthAfter res !! "p1" = Some h
    ∧ Session.health_of "p1"
        (store "p1" (Character.set_health h c) (state_after ex_join1)) = h
    ∧ (30 ≤ Character.health c - nd → h = Character.health c - nd).
Proof.
  eexists. split; [vm_compute; reflexivity|].
  apply (self_target_is_resolved "s" 1 "p1" _ (state_after ex_join1) tape_half).
  - apply (reach_call _ (call_addPlayer _ _ _)); [done|].
    by apply reach_new.
  - vm_compute. reflexivity.
Defined.

(** ** Connections *)

Lemma bothConnected_iff (s : Session.t) :
  Session.bothConnected s = true ↔
  size (Session.players s) = 2%nat
  ∧ ∀ pid, is_Some (Session.players s !! pid) → connected pid s.
Proof.
  unfold Session.bothConnected, connected.
  case_bool_decide as Hsz; simpl; [|by split; [|intros [? _]]].
  rewrite forallb_forall. split.
  - intros H. split; [done|]. intros pid [c Hc].
    specialize (H pid). rewrite bool_decide_eq_true in H.
    rewrite elem_of_list_to_set, list_elem_of_fmap in H.
    destruct H as [[k v] [-> Hkv]].
    { apply list_elem_of_In, list_elem_of_fmap. exists (pid, c).
      split; [done|]. by apply elem_of_map_to_list. }
    exists k. by apply elem_of_map_to_list in Hkv.
  - intros [_ H] pid Hin. apply bool_decide_eq_true.
    apply list_elem_of_In, list_elem_of_fmap in Hin.
    destruct Hin as [[p c] [-> Hpc]].
    apply elem_of_map_to_list in Hpc.
    destruct (H p) as [k Hk]; [by eexists|].
    apply elem_of_list_to_set, list_elem_of_fmap. exists (k, p).
    split; [done|]. by apply elem_of_map_to_list.
Qed.

(** C6.  In every session reached by [addPlayer], [attachSocket],
    [detachSocket] (and [useAbility]) calls, [bothConnected()] is true
    exactly when two players have joined and every joined player
    identifier is a value of the socket-to-player map. *)
Theorem bothConnected_spec (s : Session.t) :
  reachable s →
  Session.bothConnected s = true ↔
  size (Session.players s) = 2%nat
  ∧ ∀ pid, is_Some (Session.players s !! pid) →
           ∃ socketId, Session.sockets s !! socketId = Some pid.
Proof. intros _. apply bothConnected_iff. Qed.

Lemma ex_duel_reachable P : (∀ c, P c) → reachable_by P ex_duel.
Proof.
  intros HP.
  apply (reach_call P (call_addPlayer "mage" "halfDamageOnDefend" None)
           (state_after ex_join1) (rng_after ex_join1)); [done|].
  apply (reach_call P (call_addPlayer "warrior" "boostAttackOnAttack" None)
           ex_new tape_20_10); [done|].
  by apply reach_new.
Qed.

Lemma ex_connected_reachable : reachable ex_connected.
Proof.
  do 2 (apply reach_call; [done|]).
  by apply ex_duel_reachable.
Qed.

Lemma bothConnected_spec_witness :
  Session.bothConnected ex_connected = true ↔
  size (Session.players ex_connected) = 2%nat
  ∧ ∀ pid, is_Some (Session.players ex_connected !! pid) →
           ∃ socketId, Session.sockets ex_connected !! socketId = Some pid.
Proof.
  apply (bothConnected_spec ex_connected).
  do 2 (apply reach_call; [done|]).
  by apply ex_duel_reachable.
Defined.

Example ex_connected_both : Session.bothConnected ex_connected = true.
Proof. vm_compute. reflexivity. Qed.

Example ex_duel_not_connected : Session.bothConnected ex_duel = false.
Proof. vm_compute. reflexivity. Qed.

(** ** Slots *)

Lemma getAvailableSlots_range s k :
  k ∈ Session.getAvailableSlots s →
  (k = 1 ∨ k = 2) ∧ k ∉ Session.takenSlots s.
Proof.
  unfold Session.getAvailableSlots.
  repeat case_bool_decide; cbn; intros Hk;
    repeat (apply elem_of_cons in Hk as [->|Hk]); auto;
    by apply elem_of_nil in Hk.
Qed.

Lemma getAvailableSlots_head s k :
  head (Session.getAvailableSlots s) = Some k →
  (k = 1 ∧ 1 ∉ Session.takenSlots s)
  ∨ (k = 2 ∧ 1 ∈ Session.takenSlots s ∧ 2 ∉ Session.takenSlots s).
Proof.
  unfold Session.getAvailableSlots.
  repeat case_bool_decide; cbn; intros [= <-]; auto.
Qed.

(** What [assignPlayerSlot] does for a player that has not joined and a
    preferred slot that is absent, 1 or 2: a free preferred slot is
    claimed; otherwise the lowest free slot of 1 and 2 is claimed; and the
    call throws, changing nothing, when both are taken. *)
Lemma assignPlayerSlot_in_range pid pref s g :
  Session.players s !! pid = None →
  pref = None ∨ pref = Some 1 ∨ pref = Some 2 →
  match pref with
  | Some p =>
      p ∉ Session.takenSlots s →
      Session.assignPlayerSlot pid pref s g
      = (Ok p, Session.set_takenSlots ({[p]} ∪ Session.takenSlots s) s, g)
  | None => True
  end
  ∧ ((pref = None ∨ ∃ p, pref = Some p ∧ p ∈ Session.takenSlots s) →
     (1 ∉ Session.takenSlots s →
      Session.assignPlayerSlot pid pref s g
      = (Ok 1, Session.set_takenSlots ({[1]} ∪ Session.takenSlots s) s, g))
     ∧ (1 ∈ Session.takenSlots s → 2 ∉ Session.takenSlots s →
        Session.assignPlayerSlot pid pref s g
        = (Ok 2, Session.set_takenSlots ({[2]} ∪ Session.takenSlots s) s, g))
     ∧ (1 ∈ Session.takenSlots s → 2 ∈ Session.takenSlots s →
        Session.assignPlayerSlot pid pref s g
        = (Throw NoSlotsAvailable, s, g))).
Proof.
  intros Hnone Hpref.
  unfold Session.assignPlayerSlot, Session.getAvailableSlots. eff. cbn.
  rewrite Hnone. rewrite bool_decide_eq_false_2 by (by intros [? ?]).
  split.
  - destruct Hpref as [->|[->| ->]]; [done| |]; intros Hfree; cbn;
      by rewrite (bool_decide_eq_false_2 _ Hfree).
  - intros Hfall.
    assert (Hlow :
      match pref with
      | Some p =>
          Session.truthy pref && negb (bool_decide (p ∈ Session.takenSlots s))
          = false
      | None => True
      end).
    { destruct Hfall as [->|(p & -> & Hin)]; [done|].
      rewrite (bool_decide_eq_true_2 _ Hin). apply andb_false_r. }
    destruct pref as [p|]; [rewrite Hlow|];
      (repeat split; intros;
       repeat match goal with
         | H : _ ∈ Session.takenSlots s |- _ =>
             rewrite (bool_decide_eq_true_2 _ H); clear H
         | H : _ ∉ Session.takenSlots s |- _ =>
             rewrite (bool_decide_eq_false_2 _ H); clear H
         end; done).
Qed.

(** C7, the failing input.  With slots 1 and 2 both taken, a preferred
    slot 3 is claimed and returned where [NoSlotsAvailable] is due: the
    documentation of [assignPlayerSlot] promises a slot number that is 1
    or 2, and an error when no slot is available.  On a new session, -1 is
    claimed as well though it is no slot, while 0 is falsy and is treated
    as no preference (slot 1 is returned). *)
Theorem assignPlayerSlot_out_of_range :
  reachable ex_leaked
  ∧ Session.getAvailableSlots ex_leaked = []
  ∧ Session.players ex_leaked !! "" = None
  ∧ outcome (Session.assignPlayerSlot "" (Some 3) ex_leaked tape_half) = Ok 3
  ∧ 3 ∈ Session.takenSlots
          (state_after (Session.assignPlayerSlot "" (Some 3) ex_leaked tape_half))
  ∧ outcome (Session.assignPlayerSlot "" (Some 0) ex_new tape_half) = Ok 1
  ∧ outcome (Session.assignPlayerSlot "" (Some (-1)) ex_new tape_half)
    = Ok (-1).
Proof.
  split.
  { do 2 (apply reach_call; [done|]). by apply reach_new. }
  repeat split; vm_compute; reflexivity.
Qed.

(** C4, the failing input.  A join with an unknown character type throws
    [InvalidCharacterType], but slot 1 has been claimed before the check
    and stays claimed: [getAvailableSlots] goes from [1, 2] to [2] although
    nobody joined.  An unknown ability does the same. *)
Theorem addPlayer_failure_claims_slot :
  let r := Session.addPlayer "bogus" "healUnder30" None ex_new tape_half in
  let r' := Session.addPlayer "warrior" "bogus" None ex_new tape_half in
  outcome r = Throw (InvalidCharacterType "bogus")
  ∧ Session.getAvailableSlots ex_new = [1; 2]
  ∧ Session.getAvailableSlots (state_after r) = [2]
  ∧ size (Session.players (state_after r)) = 0%nat
  ∧ outcome r' = Throw (InvalidAbilityId "bogus")
  ∧ Session.getAvailableSlots (state_after r') = [2]
  ∧ size (Session.players (state_after r')) = 0%nat.
Proof. cbn zeta. repeat split; vm_compute; reflexivity. Qed.

(** The two failures that precede the claim of a slot leave the session
    as it was. *)
Lemma addPlayer_full_or_no_slot ct ab pref s g e :
  outcome (Session.addPlayer ct ab pref s g) = Throw e →
  e = SessionFull ∨ e = NoSlotsAvailable →
  state_after (Session.addPlayer ct ab pref s g) = s.
Proof.
  rewrite addPlayer_unfold. case_bool_decide; [done|].
  destruct (assignPlayerSlot_cases "" pref s g)
    as [[_ ->]|[_ [(k & -> & _)|[-> _]]]]; [| |done];
    (destruct (Character.parseType ct); [|by intros [= <-] [|]];
     destruct (Ability.findById ab); [|by intros [= <-] [|]];
     by destruct (Character.new _ _ _)).
Qed.

Lemma slots_inv_store pid c s :
  slots_inv s →
  (pid = Session.player1Id s ∧ 1 ∈ Session.takenSlots s)
  ∨ (pid = Session.player2Id s ∧ 2 ∈ Session.takenSlots s) →
  slots_inv (store pid c s).
Proof.
  intros (Hne & Hdom & H1 & H2) Hpid. unfold slots_inv, store. cbn.
  repeat split; [done|..].
  - intros k. rewrite lookup_insert. case_decide as Hk; [|apply Hdom].
    intros _. subst k. destruct Hpid as [[-> _]|[-> _]]; auto.
  - rewrite lookup_insert. case_decide as Hk; [|done].
    intros _. destruct Hpid as [[_ ?]|[-> ?]]; [done|congruence].
  - rewrite lookup_insert. case_decide as Hk; [|done].
    intros _. destruct Hpid as [[-> ?]|[_ ?]]; [congruence|done].
Qed.

Lemma slots_inv_claim k s :
  slots_inv s →
  slots_inv (Session.set_takenSlots ({[k]} ∪ Session.takenSlots s) s).
Proof.
  intros (Hne & Hdom & H1 & H2). unfold slots_inv. cbn.
  repeat split; [done|done|..]; intros H; apply elem_of_union_r; auto.
Qed.

Lemma slots_inv_join_finish s : slots_inv s → slots_inv (join_finish s).
Proof.
  unfold join_finish. by destruct (bool_decide _ && bool_decide _).
Qed.

Lemma slots_inv_addPlayer ct ab pref s g :
  pref = None ∨ pref = Some 1 ∨ pref = Some 2 →
  slots_inv s →
  slots_inv (state_after (Session.addPlayer ct ab pref s g)).
Proof.
  intros Hpref Hinv. rewrite addPlayer_unfold.
  case_bool_decide; [done|].
  destruct (assignPlayerSlot_cases "" pref s g)
    as [[Hjoined ->]|[_ [(k & -> & Hfree & Hk)|[-> _]]]]; [| |done].
  - (* the empty string is the identifier of a joined player *)
    destruct (Character.parseType ct) as [ty|]; [|done].
    destruct (Ability.findById ab) as [a|]; [|done].
    destruct (Character.new ty a g) as [c g'].
    unfold state_after. cbn [fst snd].
    apply slots_inv_join_finish, slots_inv_store; [done|].
    destruct Hinv as (Hne & Hdom & H1 & H2).
    destruct (Hdom "" Hjoined) as [Hp|Hp].
    + left. rewrite <- Hp in H1.
      rewrite (bool_decide_eq_true_2 _ (H1 Hjoined)).
      rewrite (bool_decide_eq_true_2 _ Hp). cbn. auto.
    + right. rewrite <- Hp in H2.
      rewrite (bool_decide_eq_false_2 ("" = Session.player1Id s))
        by congruence.
      rewrite andb_false_r. cbn. auto.
  - (* a slot is claimed for a new player *)
    assert (Hrange : k = 1 ∨ k = 2).
    { destruct Hk as [[Hp _]|Hk].
      - destruct Hpref as [->|[->| ->]]; [done|..]; injection Hp; auto.
      - apply getAvailableSlots_head in Hk as [[? _]|[? _]]; auto. }
    destruct (Character.parseType ct) as [ty|];
      [|by apply slots_inv_claim].
    destruct (Ability.findById ab) as [a|];
      [|by apply slots_inv_claim].
    destruct (Character.new ty a g) as [c g'].
    unfold state_after. cbn [fst snd].
    apply slots_inv_join_finish, slots_inv_store;
      [by apply slots_inv_claim|].
    cbn. destruct Hrange as [-> | ->]; cbn; [left|right];
      (split; [done|]; apply elem_of_union_l; by apply elem_of_singleton).
Qed.

Lemma slots_inv_perform c s g :
  slot_in_range c → slots_inv s → slots_inv (perform c s g).
Proof.
  intros Hc Hinv. destruct c as [ct ab p|k p|k|f t]; cbn.
  - by apply slots_inv_addPlayer.
  - rewrite attachSocket_run. unfold state_after, attached. cbn.
    by destruct (Session.bothConnected _ && bool_decide _).
  - rewrite detachSocket_run. unfold state_after, detached. cbn.
    case_bool_decide; cbn; [|done].
    by destruct (negb (Session.bothConnected _) && negb (bool_decide _)).
  - destruct (useAbility_effect f t s g) as [->|(d & h & Hd & ->)]; [done|].
    apply slots_inv_store; [done|].
    destruct Hinv as (Hne & Hdom & H1 & H2).
    assert (Ht : is_Some (Session.players s !! t)) by by eexists.
    pose proof (Hdom t Ht) as Hcase.
    destruct Hcase as [Heq|Heq]; [left|right]; (split; [done|]).
    + apply H1. by rewrite <- Heq.
    + apply H2. by rewrite <- Heq.
Qed.

Lemma reachable_slots_inv s : reachable_by slot_in_range s → slots_inv s.
Proof.
  induction 1 as [sid p1 p2 Hne|c s g Hc _ IH].
  - unfold slots_inv. cbn. repeat split; [done|intros pid|..];
      intros [? H]; by rewrite lookup_empty in H.
  - by apply slots_inv_perform.
Qed.

(** C8, as amended.  In every session reached by calls of its methods,
    [getAvailableSlots()] returns a subset of {1, 2}, and the whole of it
    while neither slot is taken; and, when every join asked for no slot or
    for slot 1 or 2, it contains no slot whose player has joined. *)
Theorem getAvailableSlots_spec (s : Session.t) :
  reachable s →
  list_to_set (Session.getAvailableSlots s) ⊆ ({[1; 2]} : gset Z)
  ∧ (1 ∉ Session.takenSlots s → 2 ∉ Session.takenSlots s →
     Session.getAvailableSlots s = [1; 2])
  ∧ (reachable_by slot_in_range s →
     ∀ k, slot_bound k s → k ∉ Session.getAvailableSlots s).
Proof.
  intros _. split; [|split].
  - intros k Hk. apply elem_of_list_to_set in Hk.
    apply getAvailableSlots_range in Hk as [[-> | ->] _];
      [apply elem_of_union_l|apply elem_of_union_r]; by apply elem_of_singleton.
  - intros H1 H2. unfold Session.getAvailableSlots.
    by rewrite !bool_decide_eq_false_2.
  - intros Hreach.
    destruct (reachable_slots_inv s Hreach) as (_ & _ & H1 & H2).
    intros k [[-> Hb]|[-> Hb]] Hk;
      apply getAvailableSlots_range in Hk as [_ Hfree]; auto.
Qed.

(** On a new session both slots are returned; after the first join, slot
    1, whose player has joined, is not. *)
Lemma getAvailableSlots_spec_witness :
  Session.getAvailableSlots ex_new = [1; 2]
  ∧ slot_bound 1 (state_after ex_join1)
  ∧ (1 ∉ Session.getAvailableSlots (state_after ex_join1))
  ∧ list_to_set (Session.getAvailableSlots (state_after ex_join1))
    ⊆ ({[1; 2]} : gset Z).
Proof.
  assert (Hbound : slot_bound 1 (state_after ex_join1)).
  { left. split; [done|]. vm_compute. by eexists. }
  split.
  - apply (getAvailableSlots_spec ex_new);
      [by apply reach_new|apply not_elem_of_empty..].
  - split; [exact Hbound|].
    destruct (getAvailableSlots_spec (state_after ex_join1))
      as (Hsub & _ & Hfree).
    { apply (reach_call (λ _, True)
               (call_addPlayer "warrior" "boostAttackOnAttack" None)
               ex_new tape_20_10); [done|by apply reach_new]. }
    split; [|exact Hsub].
    apply Hfree; [|exact Hbound].
    apply (reach_call slot_in_range
             (call_addPlayer "warrior" "boostAttackOnAttack" None)
             ex_new tape_20_10); [by left|by apply reach_new].
Defined.

(** C8 as stated fails twice.  On a new session [getAvailableSlots()] is
    the whole of {1, 2}, not a strict subset.  And after a join that asked
    for slot 3, the player of slot 2 has joined while slot 2 is still
    returned as available. *)
Lemma getAvailableSlots_counterexample :
  reachable ex_new
  ∧ Session.getAvailableSlots ex_new = [1; 2]
  ∧ ¬ (list_to_set (Session.getAvailableSlots ex_new) ⊂ ({[1; 2]} : gset Z))
  ∧ reachable ex_slot3
  ∧ slot_bound 2 ex_slot3
  ∧ 2 ∈ Session.getAvailableSlots ex_slot3.
Proof.
  split; [by apply reach_new|].
  split; [reflexivity|].
  split.
  { intros [_ Hstrict]. apply Hstrict. intros k Hk.
    apply elem_of_list_to_set.
    change (Session.getAvailableSlots ex_new) with [1; 2].
    apply elem_of_union in Hk as [Hk|Hk]; apply elem_of_singleton in Hk as ->.
    - apply list_elem_of_here.
    - apply list_elem_of_further, list_elem_of_here. }
  split; [apply reach_call; [done|by apply reach_new]|].
  split.
  - right. split; [done|]. vm_compute. by eexists.
  - vm_compute. apply list_elem_of_In. cbn. auto.
Qed.

(** ** The sessions of the server after one event *)

Lemma call_sessions {A} key sess (m : Eff Session.t A) w :
  sessions (call key sess m w).2
  = <[key := state_after (m sess (random w))]> (sessions w)
  ∧ (call key sess m w).1.2 = state_after (m sess (random w))
  ∧ (call key sess m w).1.1 = outcome (m sess (random w))
  ∧ socketToSession (call key sess m w).2 = socketToSession w
  ∧ sessionRounds (call key sess m w).2 = sessionRounds w.
Proof.
  unfold call, state_after, outcome.
  by destruct (m sess (random w)) as [[r s'] g'].
Qed.

(** Each session of the server after an event was there before, or is
    new, or is the result of a guarded call on the session that was there,
    or is that session with one of its timers spent. *)
Lemma step_sessions e w sid s' :
  sessions (step e w).1 !! sid = Some s' →
  sessions w !! sid = Some s'
  ∨ (∃ p1 p2, s' = Session.new sid p1 p2)
  ∨ (∃ s c g, sessions w !! sid = Some s ∧ guarded s c ∧ s' = perform c s g)
  ∨ (∃ s, sessions w !! sid = Some s
          ∧ (s' = Session.set_pendingJoinTimer (Some Expired) s
             ∨ s' = Session.set_disconnectTimer (Some Expired) s)).
Proof.
  destruct e as [newId p1 p2|sid0|sid0 ct ab pref|k sid0 p|k sid0 f t|k|sid0|sid0];
    cbn [step fst].
  - (* POST /games *)
    unfold createGameHandler, SessionManager.create. cbn.
    rewrite lookup_insert. case_decide as Hk; [|by left].
    intros [= <-]. subst. right. left. by eexists _, _.
  - (* GET slots *)
    unfold getAvailableSlotsHandler, SessionManager.get.
    destruct (sessions w !! sid0); by left.
  - (* POST join *)
    unfold joinGameHandler, SessionManager.get.
    destruct (sessions w !! sid0) as [sess|] eqn:Hs; [|by left].
    pose proof (call_sessions sid0 sess
                  (Session.addPlayer ct ab pref) w) as (Hm & _).
    destruct (call sid0 sess (Session.addPlayer ct ab pref) w)
      as [[[pid|e] sess'] w']; cbn [fst snd] in *;
      (rewrite Hm, lookup_insert; case_decide as Hk; [|by left];
       intros [= <-]; subst; right; right; left;
       by exists sess, (call_addPlayer ct ab pref), (random w)).
  - (* socket join *)
    unfold on_join, SessionManager.get.
    destruct (sessions w !! sid0) as [sess|] eqn:Hs; [|by left].
    destruct (Session.hasPlayer p sess) eqn:Hp; cbn [negb]; [|by left].
    pose proof (call_sessions sid0 sess
                  (Session.attachSocket k p) w) as (Hm & _).
    destruct (call sid0 sess (Session.attachSocket k p) w)
      as [[r sess'] w']; cbn [fst snd] in *.
    assert (Hsess : ∀ b : bool,
      sessions (if b
                then set_sessionRounds (<[sid0:=0]> (sessionRounds
                       (set_socketToSession (<[k:=sid0]> (socketToSession w')) w')))
                       (set_socketToSession (<[k:=sid0]> (socketToSession w')) w')
                else set_socketToSession (<[k:=sid0]> (socketToSession w')) w')
      = sessions w') by by intros [].
    rewrite Hsess, Hm, lookup_insert. case_decide as Hk; [|by left].
    intros [= <-]. subst. right. right. left.
    by exists sess, (call_attachSocket k p), (random w).
  - (* socket useAbility *)
    unfold on_useAbility, SessionManager.get.
    destruct (sessions w !! sid0) as [sess|] eqn:Hs; [|by left].
    destruct (Session.hasPlayer f sess) eqn:Hf; cbn [negb orb]; [|by left].
    destruct (Session.hasPlayer t sess) eqn:Ht; cbn [negb orb]; [|by left].
    match goal with
    | |- context [call sid0 sess ?m ?w0] =>
        pose proof (call_sessions sid0 sess m w0) as (Hm & Hst & _);
        destruct (call sid0 sess m w0) as [[r sess'] w'] eqn:Hcall
    end.
    cbn [fst snd random sessions set_sessionRounds] in *.
    assert (Hgoal : sessions w' !! sid = Some s' →
      sessions w !! sid = Some s'
      ∨ (∃ p1 p2, s' = Session.new sid p1 p2)
      ∨ (∃ s c g, sessions w !! sid = Some s ∧ guarded s c ∧ s' = perform c s g)
      ∨ (∃ s, sessions w !! sid = Some s
              ∧ (s' = Session.set_pendingJoinTimer (Some Expired) s
                 ∨ s' = Session.set_disconnectTimer (Some Expired) s))).
    { rewrite Hm, lookup_insert. case_decide as Hk; [|by left].
      intros [= <-]. subst. right. right. left.
      exists sess, (call_useAbility f t), (random w).
      split; [done|]. split; [done|]. cbn. apply inline_agrees. }
    by destruct r.
  - (* socket disconnect *)
    unfold on_disconnect, SessionManager.get.
    destruct (socketToSession w !! k) as [sid0|]; [|by left].
    destruct (sessions w !! sid0) as [sess|] eqn:Hs; [|by left].
    pose proof (call_sessions sid0 sess (Session.detachSocket k) w) as (Hm & _).
    destruct (call sid0 sess (Session.detachSocket k) w)
      as [[r sess'] w']; cbn [fst snd] in *.
    assert (Hgoal : sessions w' !! sid = Some s' →
      sessions w !! sid = Some s'
      ∨ (∃ p1 p2, s' = Session.new sid p1 p2)
      ∨ (∃ s c g, sessions w !! sid = Some s ∧ guarded s c ∧ s' = perform c s g)
      ∨ (∃ s, sessions w !! sid = Some s
              ∧ (s' = Session.set_pendingJoinTimer (Some Expired) s
                 ∨ s' = Session.set_disconnectTimer (Some Expired) s))).
    { rewrite Hm, lookup_insert. case_decide as Hk; [|by left].
      intros [= <-]. subst. right. right. left.
      by exists sess, (call_detachSocket k), (random w). }
    by destruct r as [[|]|].
  - (* the pending-join timer fires *)
    unfold fire_pendingJoinTimer.
    destruct (sessions w !! sid0) as [sess|] eqn:Hs; [|by left].
    destruct (Session.pendingJoinTimer sess) as [[|]|]; [|by left..].
    unfold pendingJoinTimer_callback, SessionManager.delete. cbn.
    case_bool_decide.
    + rewrite lookup_delete. case_decide; [done|].
      rewrite lookup_insert. case_decide as Hk; [|by left].
      intros [= <-]. subst. right. right. right. eauto.
    + rewrite lookup_insert. case_decide as Hk; [|by left].
      intros [= <-]. subst. right. right. right. eauto.
  - (* the disconnect timer fires *)
    unfold fire_disconnectTimer.
    destruct (sessions w !! sid0) as [sess|] eqn:Hs; [|by left].
    destruct (Session.disconnectTimer sess) as [[|]|]; [|by left..].
    unfold disconnectTimer_callback, SessionManager.delete. cbn.
    rewrite lookup_delete. case_decide; [done|].
    rewrite lookup_insert. case_decide as Hk; [|by left].
    intros [= <-]. subst. right. right. right. eauto.
Qed.

(** ** What the gateway maintains *)

Lemma bothConnected_ext s s' :
  dom (Session.players s') = dom (Session.players s) →
  Session.sockets s' = Session.sockets s →
  Session.bothConnected s' = Session.bothConnected s.
Proof.
  intros Hdom Hsock.
  apply eq_true_iff_eq. rewrite !bothConnected_iff. unfold connected.
  rewrite Hsock, <- !size_dom, Hdom.
  split; intros [Hsz Hall]; (split; [done|]); intros pid Hpid;
    apply Hall; apply elem_of_dom; apply elem_of_dom in Hpid;
    [by rewrite Hdom | by rewrite <- Hdom].
Qed.

Lemma bothConnected_store pid c s :
  is_Some (Session.players s !! pid) →
  Session.bothConnected (store pid c s) = Session.bothConnected s.
Proof.
  intros Hin. apply bothConnected_ext; [|done].
  unfold store. cbn. by apply dom_insert_lookup_L.
Qed.

Lemma bothConnected_detach k s :
  Session.bothConnected
    (Session.set_sockets (delete k (Session.sockets s)) s) = true →
  Session.bothConnected s = true.
Proof.
  rewrite !bothConnected_iff. unfold connected. cbn.
  intros [Hsz Hall]. split; [done|]. intros pid Hpid.
  destruct (Hall pid Hpid) as [k' Hk'].
  exists k'. rewrite lookup_delete in Hk'. by case_decide.
Qed.

(** A join cannot complete the connections of a session in which only
    joined players are connected. *)
Lemma bothConnected_insert pid c s :
  (∀ k p, Session.sockets s !! k = Some p → is_Some (Session.players s !! p)) →
  Session.bothConnected (store pid c s) = true →
  Session.bothConnected s = true.
Proof.
  intros Hsock Hboth.
  assert (Hin : is_Some (Session.players s !! pid)).
  { apply bothConnected_iff in Hboth as [_ Hall].
    destruct (Hall pid) as [k Hk]; [by rewrite players_store|].
    by apply (Hsock k). }
  by rewrite bothConnected_store in Hboth.
Qed.

Lemma perform_id c s g : Session.id (perform c s g) = Session.id s.
Proof.
  destruct c as [ct ab p|k p|k|f t]; cbn.
  - by destruct (addPlayer_effect ct ab p s g) as (? & _).
  - rewrite attachSocket_run. unfold state_after, attached. cbn.
    by destruct (Session.bothConnected _ && bool_decide _).
  - rewrite detachSocket_run. unfold state_after, detached. cbn.
    case_bool_decide; cbn; [|done].
    by destruct (negb (Session.bothConnected _) && negb (bool_decide _)).
  - by destruct (useAbility_effect f t s g) as [->|(d & h & Hd & ->)].
Qed.

Lemma gateway_inv_new sid p1 p2 : gateway_inv (Session.new sid p1 p2).
Proof.
  split; [|split]; cbn.
  - intros pid c. cbn. by rewrite lookup_empty.
  - intros k p. by rewrite lookup_empty.
  - done.
Qed.

Lemma gateway_inv_addPlayer ct ab pref s g :
  gateway_inv s →
  gateway_inv (state_after (Session.addPlayer ct ab pref s g)).
Proof.
  intros (Hcat & Hsock & Htimer).
  split; [by apply (catalog_perform (call_addPlayer ct ab pref))|].
  pose proof (addPlayer_effect ct ab pref s g)
    as (_ & _ & _ & Hs & Ht & _ & Hplayers).
  cbn zeta in *.
  set (s' := state_after (Session.addPlayer ct ab pref s g)) in *.
  assert (Hshape :
    (Session.players s' = Session.players s)
    ∨ ∃ pid c, Session.players s' = <[pid := c]> (Session.players s)).
  { destruct Hplayers as [[? _]|(pid & c & _ & ? & _)]; eauto. }
  split.
  - intros k p Hk. rewrite Hs in Hk. specialize (Hsock k p Hk).
    destruct Hshape as [-> |(pid & c & ->)]; [done|].
    rewrite lookup_insert. case_decide; [by eexists|done].
  - intros Harmed. rewrite Ht in Harmed. specialize (Htimer Harmed).
    destruct Hshape as [Heq|(pid & c & Heq)].
    + rewrite <- Htimer. apply bothConnected_ext; [by rewrite Heq|done].
    + destruct (Session.bothConnected s') eqn:Hboth; [|done].
      rewrite <- Htimer. symmetry.
      apply (bothConnected_insert pid c s Hsock).
      rewrite <- Hboth. apply bothConnected_ext; [by rewrite Heq|done].
Qed.

Lemma gateway_inv_attached k p s :
  Session.hasPlayer p s = true → gateway_inv s → gateway_inv (attached k p s).
Proof.
  intros Hp%hasPlayer_true (Hcat & Hsock & Htimer).
  assert (Hsock' : ∀ k' p',
    <[k := p]> (Session.sockets s) !! k' = Some p' →
    is_Some (Session.players s !! p')).
  { intros k' p'. rewrite lookup_insert.
    case_decide; [by intros [= <-] | apply Hsock]. }
  unfold attached. cbn.
  destruct (Session.bothConnected
              (Session.set_sockets (<[k:=p]> (Session.sockets s)) s))
    eqn:Hboth; cbn.
  - case_bool_decide as Hsome;
      (split; [exact Hcat|split; [exact Hsock'|]]); cbn; [done|].
    intros Harmed. destruct Hsome. by eexists.
  - split; [exact Hcat|split; [exact Hsock'|]]. intros _. exact Hboth.
Qed.

Lemma gateway_inv_detached k s : gateway_inv s → gateway_inv (detached k s).
Proof.
  intros (Hcat & Hsock & Htimer).
  assert (Hsock' : ∀ k' p',
    delete k (Session.sockets s) !! k' = Some p' →
    is_Some (Session.players s !! p')).
  { intros k' p'. rewrite lookup_delete.
    case_decide; [done | apply Hsock]. }
  assert (Hmono : Session.disconnectTimer s = Some Armed →
    Session.bothConnected
      (Session.set_sockets (delete k (Session.sockets s)) s) = false).
  { intros Harmed. specialize (Htimer Harmed).
    destruct (Session.bothConnected
                (Session.set_sockets (delete k (Session.sockets s)) s))
      eqn:Hboth; [|done].
    apply bothConnected_detach in Hboth. congruence. }
  unfold detached. cbn.
  case_bool_decide; cbn;
    [|by split; [exact Hcat|split; [exact Hsock'|exact Hmono]]].
  destruct (Session.bothConnected
              (Session.set_sockets (delete k (Session.sockets s)) s))
    eqn:Hboth; cbn.
  - split; [exact Hcat|split; [exact Hsock'|]]. cbn. intros Harmed.
    specialize (Hmono Harmed). congruence.
  - case_bool_decide; cbn;
      (split; [exact Hcat|split; [exact Hsock'|]]); cbn;
      intros _; exact Hboth.
Qed.

Lemma gateway_inv_useAbility f t s g :
  gateway_inv s → gateway_inv (state_after (Session.useAbility f t s g)).
Proof.
  intros Hinv.
  pose proof (catalog_perform (call_useAbility f t) s g (proj1 Hinv)) as Hcat'.
  cbn in Hcat'.
  destruct (useAbility_effect f t s g) as [->|(d & h & Hd & Heq)]; [done|].
  rewrite Heq in *. destruct Hinv as (Hcat & Hsock & Htimer).
  split; [done|]. split.
  - intros k p Hk. specialize (Hsock k p Hk). unfold store. cbn.
    rewrite lookup_insert. case_decide; [by eexists|done].
  - intros Harmed. rewrite bothConnected_store by by eexists.
    by apply Htimer.
Qed.

Lemma gateway_inv_perform c s g :
  guarded s c → gateway_inv s → gateway_inv (perform c s g).
Proof.
  intros Hg Hinv. destruct c as [ct ab p|k p|k|f t]; cbn.
  - by apply gateway_inv_addPlayer.
  - rewrite attachSocket_run. by apply gateway_inv_attached.
  - rewrite detachSocket_run. by apply gateway_inv_detached.
  - by apply gateway_inv_useAbility.
Qed.

Lemma server_inv_step e w : server_inv w → server_inv (step e w).1.
Proof.
  intros Hinv sid s' Hs'.
  destruct (step_sessions e w sid s' Hs')
    as [Hold|[(p1 & p2 & ->)|[(s & c & g & Hs & Hg & ->)|(s & Hs & Hexp)]]].
  - by apply Hinv.
  - split; [done|apply gateway_inv_new].
  - destruct (Hinv sid s Hs) as [Hid Hgw]. split.
    + by rewrite perform_id.
    + by apply gateway_inv_perform.
  - destruct (Hinv sid s Hs) as [Hid (Hcat & Hsock & Htimer)].
    destruct Hexp as [-> | ->]; (split; [done|]); by split; [|split].
Qed.

Lemma server_reachable_inv w : server_reachable w → server_inv w.
Proof.
  induction 1 as [g|e w _ IH].
  - intros sid s. cbn. by rewrite lookup_empty.
  - by apply server_inv_step.
Qed.

(** ** Timers *)

Example pendingJoinTimer_deletes_lonely_session :
  Session.pendingJoinTimer ex_new = Some Armed
  ∧ sessions (fire_pendingJoinTimer "s" ex_created) !! "s" = None.
Proof. split; reflexivity. Qed.



(** ** The round counter *)

Lemma attack_roll_ok a g :
  from_catalog a → ∃ av g1, attack_roll a g = (Ok av, g1).
Proof.
  unfold attack_roll, from_catalog, Ability.all. cbn.
  intros [ <- | [ <- | [ <- | [] ] ] ]; cbn; eauto.
  destruct (BoostAttackOnAttack_onAttack _ _); eauto.
Qed.










Example ex_events_counter :
  roundCounter "s" (run ex_events (boot tape_20_10)).1 = 2
  ∧ resolutions "s" (run ex_events (boot tape_20_10)).2 = 2.
Proof. split; vm_compute; reflexivity. Qed.

(** * Further properties *)

(** ** The catalogs *)

Lemma catalog_kinds (a : Ability.t) :
  In a Ability.all →
  match Ability.id a with
  | off _ => Ability.kind a = offense
  | def _ => Ability.kind a = defense
  end.
Proof.
  unfold Ability.all. cbn.
  intros [ <- | [ <- | [ <- | [] ] ] ]; reflexivity.
Qed.

(** X1.  [Ability.findById] returns an ability exactly for the three
    identifiers of the catalog, the ability it returns carries the
    identifier that was asked for, and its [kind] is the pool its [id]
    comes from. *)
Theorem findById_spec (i : string) (a : Ability.t) :
  (Ability.findById i = Some a ↔
   In a Ability.all ∧ AbilityType_value (Ability.id a) = i)
  ∧ (Ability.findById i = Some a →
     match Ability.id a with
     | off _ => Ability.kind a = offense
     | def _ => Ability.kind a = defense
     end).
Proof.
  assert (Hfwd : Ability.findById i = Some a →
                 In a Ability.all ∧ AbilityType_value (Ability.id a) = i).
  { intros H. apply find_some in H as [Hin Heq].
    split; [done|]. by apply String.eqb_eq. }
  split; [split; [exact Hfwd|]|].
  - intros [Hin <-]. unfold Ability.all in Hin. cbn in Hin.
    destruct Hin as [ <- | [ <- | [ <- | [] ] ] ]; reflexivity.
  - intros H. apply catalog_kinds. by apply Hfwd.
Qed.

(** X2.  [Character.parseType] accepts exactly the identifiers of the
    character types, and returns the type that carries the identifier;
    every other string gives [undefined]. *)
Theorem parseType_spec (i : string) (ty : CharacterType.t) :
  Character.parseType i = Some ty ↔ CharacterType.value ty = i.
Proof.
  split.
  - intros H. apply find_some in H as [_ Heq]. by apply String.eqb_eq.
  - intros <-. by destruct ty.
Qed.

Lemma draw_floor_range (r : Q) (n : Z) :
  valid_draw r → 0 < n ≤ 2 ^ 53 →
  0 ≤ Math_floor (Number_mul r (inject_Z n)) < n.
Proof.
  intros (Hd & H0 & H1) Hn.
  destruct (Number_mul_draw r n Hd H0 H1 ltac:(lia)) as [Hlo Hhi].
  unfold Math_floor. split.
  - change 0 with (Qfloor 0). by apply Qfloor_resp_le.
  - pose proof (Qfloor_le (Number_mul r (inject_Z n))) as Hfl.
    rewrite Zlt_Qlt. eapply Qle_lt_trans; eauto.
Qed.

Lemma randomInRange_range (min max : Z) (g : Rng) :
  valid_draw (g 0%nat) → min ≤ max → max - min < 2 ^ 53 →
  min ≤ (Character.randomInRange min max g).1 ≤ max
  ∧ (Character.randomInRange min max g).2 = (λ n, g (S n)).
Proof.
  intros Hg Hle Hsafe. unfold Character.randomInRange.
  unfold mbind, mret, Rand_bind, Rand_ret, rand_bind, rand_ret, Math_random.
  cbn [fst snd].
  pose proof (draw_floor_range (g 0%nat) (max - min + 1) Hg ltac:(lia)).
  split; [lia|done].
Qed.

Lemma Character_new_range ty a g :
  valid_draw (g 0%nat) → valid_draw (g 1%nat) →
  stats_in_range (Character.new ty a g).1
  ∧ (Character.new ty a g).2 = (λ n, g (S (S n)))
  ∧ Character.type (Character.new ty a g).1 = ty
  ∧ Character.name (Character.new ty a g).1
    = CharacterTypeData.name (CharacterTypeData.get ty)
  ∧ Character.attackTypes (Character.new ty a g).1
    = CharacterTypeData.attacks (CharacterTypeData.get ty).
Proof.
  intros H0 H1.
  pose proof (randomInRange_range 15 20 g H0 ltac:(lia) ltac:(lia))
    as [Ha Hga].
  pose proof (randomInRange_range 10 15 (λ n, g (S n)) H1 ltac:(lia) ltac:(lia))
    as [Hd Hgd].
  unfold Character.new, stats_in_range.
  unfold mbind, mret, Rand_bind, Rand_ret, rand_bind, rand_ret.
  destruct (Character.randomInRange 15 20 g) as [av ga]. cbn [fst snd] in *.
  subst ga.
  destruct (Character.randomInRange 10 15 (λ n, g (S n))) as [dv gd].
  cbn [fst snd] in *. subst gd. cbn. done.
Qed.

Lemma pipeline_health d x nd g :
  0 ≤ nd →
  0 ≤ (heal_roll d (clamp0 (x - nd)) g).1
  ∧ (heal_roll d (clamp0 (x - nd)) g).1 ≤ Z.max x 34
  ∧ (x ≤ 0 → (heal_roll d (clamp0 (x - nd)) g).1 = 0).
Proof.
  intros Hnd.
  pose proof (clamp0_nonneg (x - nd)) as Hc.
  assert (Hle : clamp0 (x - nd) ≤ Z.max x 0).
  { unfold clamp0. destruct (x - nd <? 0) eqn:E; [lia|].
    apply Z.ltb_ge in E. lia. }
  destruct (heal_roll_values d (clamp0 (x - nd)) g) as [ -> | [Hr ->] ].
  - repeat split; [done|lia|]. intros Hx. lia.
  - repeat split; [lia|lia|]. intros Hx. lia.
Qed.

Lemma net_damage_nonneg d av g :
  0 ≤ (defend_roll d (clamp0 av) g).1 ≤ clamp0 av.
Proof.
  pose proof (clamp0_nonneg av) as Hc.
  destruct (defend_roll_values d (clamp0 av) g) as [ -> | -> ]; [lia|].
  split; [by apply Z.div_pos|].
  apply Z.div_le_upper_bound; lia.
Qed.

(** X3.  For integers [min <= max] within 2^53 in magnitude and less
    than 2^53 apart, [randomInRange(min, max)] returns an integer between
    [min] and [max], both included, for every value that [Math.random()]
    can return, and consumes exactly one draw.  The product with the draw
    is the rounded one: the largest draw, [1 - 2^-53], times
    [max - min + 1] still rounds below [max - min + 1]. *)
Theorem randomInRange_bounds (min max : Z) (g : Rng) :
  valid_draw (g 0%nat) →
  - 2 ^ 53 ≤ min → min ≤ max → max ≤ 2 ^ 53 → max - min < 2 ^ 53 →
  min ≤ (Character.randomInRange min max g).1 ≤ max
  ∧ (Character.randomInRange min max g).2 = (λ n, g (S n)).
Proof. intros Hg _ Hle _ Hsafe. by apply randomInRange_range. Qed.

(** The largest draw, on the range of the attack power. *)
Lemma randomInRange_bounds_witness :
  let top : Rng := λ _, (9007199254740991 # 9007199254740992)%Q in
  (Character.randomInRange 15 20 top).1 = 20
  ∧ 15 ≤ (Character.randomInRange 15 20 top).1 ≤ 20
  ∧ (Character.randomInRange 15 20 top).2 = (λ n, top (S n)).
Proof.
  cbn zeta. split; [vm_compute; reflexivity|].
  apply (randomInRange_bounds 15 20
           (λ _, (9007199254740991 # 9007199254740992)%Q)); try lia.
  split; [|split; [discriminate | reflexivity]].
  exists 9007199254740991, (-53). split; [lia|]. split; [lia|reflexivity].
Defined.

(** A draw whose exact product with 6 is just below 5 and is rounded up
    to 5: the attack power is 20. *)
Example randomInRange_rounds_up :
  (Character.randomInRange 15 20
     (λ _, (3752999689475413 # 4503599627370496)%Q)).1 = 20.
Proof. vm_compute. reflexivity. Qed.

(** X4.  A new character has health 100, attack power between 15 and 20,
    defense power between 10 and 15, the name and the moves of its type
    and the ability it was given; the constructor draws twice, the attack
    power first. *)
Theorem Character_new_spec ty a g :
  valid_draw (g 0%nat) → valid_draw (g 1%nat) →
  let c := (Character.new ty a g).1 in
  Character.type c = ty
  ∧ Character.name c = CharacterTypeData.name (CharacterTypeData.get ty)
  ∧ Character.attackTypes c = CharacterTypeData.attacks (CharacterTypeData.get ty)
  ∧ Character.health c = 100
  ∧ stats_in_range c
  ∧ Character.ability c = a
  ∧ (Character.new ty a g).2 = (λ n, g (S (S n))).
Proof.
  intros H0 H1. cbn zeta.
  destruct (Character_new_range ty a g H0 H1) as (Hs & Hg & Ht & Hn & Hm).
  pose proof (Character_new_fields ty a g) as [Hh Ha].
  split; [exact Ht|]. split; [exact Hn|]. split; [exact Hm|].
  split; [exact Hh|]. split; [exact Hs|]. split; [exact Ha|exact Hg].
Qed.

Lemma Character_new_spec_witness :
  let c := (Character.new CharacterType.Mage
              {| Ability.id := def DefenseAbility.HealUnder30;
                 Ability.name := "Heal Under 30";
                 Ability.description := "";
                 Ability.kind := defense |} tape_half).1 in
  Character.type c = CharacterType.Mage
  ∧ Character.name c = CharacterTypeData.name (CharacterTypeData.get CharacterType.Mage)
  ∧ Character.attackTypes c
    = CharacterTypeData.attacks (CharacterTypeData.get CharacterType.Mage)
  ∧ Character.health c = 100
  ∧ stats_in_range c
  ∧ Character.ability c
    = {| Ability.id := def DefenseAbility.HealUnder30;
         Ability.name := "Heal Under 30";
         Ability.description := "";
         Ability.kind := defense |}
  ∧ (Character.new CharacterType.Mage
       {| Ability.id := def DefenseAbility.HealUnder30;
          Ability.name := "Heal Under 30";
          Ability.description := "";
          Ability.kind := defense |} tape_half).2
    = (λ n, tape_half (S (S n))).
Proof.
  apply (Character_new_spec CharacterType.Mage _ tape_half);
    (split; [|split; [discriminate | reflexivity]]);
    (exists 1, (-1); split; [lia|]; split; [lia|reflexivity]).
Defined.

(** ** The hooks *)

(** X5.  What the three hooks can return.  For an attack [b >= 0] with
    [3 * b <= 2^53], where [b * 1.5] is exact, the boost never lowers the
    attack and gives at most one and a half times it; the halving never
    raises a non-negative damage and never makes it negative; the heal
    adds 5 or nothing, and outside of 0 < health < 30 it returns the
    health as it is without drawing. *)
Theorem hooks_envelope (b n h : Z) (g : Rng) :
  0 ≤ b → 3 * b ≤ 2 ^ 53 → 0 ≤ n →
  b ≤ (BoostAttackOnAttack_onAttack b g).1 ≤ 3 * b / 2
  ∧ 0 ≤ (HalfDamageOnDefend_onDefend n g).1 ≤ n
  ∧ h ≤ (HealUnder30_afterDamage h g).1 ≤ h + 5
  ∧ (h ≤ 0 ∨ 30 ≤ h → HealUnder30_afterDamage h g = (h, g)).
Proof.
  intros Hb Hb53 Hn.
  assert (Hb2 : b ≤ 3 * b / 2) by (apply Z.div_le_lower_bound; lia).
  assert (Hn2 : 0 ≤ n / 2 ≤ n).
  { split; [by apply Z.div_pos|]. apply Z.div_le_upper_bound; lia. }
  split; [|split; [|split]].
  - destruct (onAttack_values b g ltac:(lia)) as [ -> | -> ]; lia.
  - destruct (onDefend_values n g) as [ -> | -> ]; lia.
  - destruct (afterDamage_values h g) as [ -> | [_ ->] ]; lia.
  - intros Hout. unfold HealUnder30_afterDamage.
    destruct ((0 <? h) && (h <? 30)) eqn:E; [|done].
    apply andb_true_iff in E as [?%Z.ltb_lt ?%Z.ltb_lt]. lia.
Qed.

Lemma hooks_envelope_witness :
  20 ≤ (BoostAttackOnAttack_onAttack 20 tape_low).1 ≤ 3 * 20 / 2
  ∧ 0 ≤ (HalfDamageOnDefend_onDefend 7 tape_low).1 ≤ 7
  ∧ 25 ≤ (HealUnder30_afterDamage 25 tape_low).1 ≤ 25 + 5
  ∧ (25 ≤ 0 ∨ 30 ≤ 25 → HealUnder30_afterDamage 25 tape_low = (25, tape_low)).
Proof. apply (hooks_envelope 20 7 25 tape_low); lia. Defined.

(** Beyond that range the product is rounded: at this attack
    [b * 1.5 = 9007199254740991.5] is a tie between two doubles and goes
    to the even one, above it. *)
Example onAttack_rounds_up :
  (BoostAttackOnAttack_onAttack 6004799503160661 tape_low).1
  = 9007199254740992.
Proof. vm_compute. reflexivity. Qed.

(** ** Combat resolution *)

(** X6.  [Session.useAbility] on a reachable session returns normally
    whenever both players have joined, and otherwise throws "One or both
    players not found" before any mutation: the session and the random
    tape are as they were. *)
Theorem useAbility_errors fromPlayer toPlayer s g :
  reachable s →
  (is_Some (Session.players s !! fromPlayer)
   ∧ is_Some (Session.players s !! toPlayer) →
   outcome (Session.useAbility fromPlayer toPlayer s g) = Ok tt)
  ∧ (Session.players s !! fromPlayer = None
     ∨ Session.players s !! toPlayer = None →
     Session.useAbility fromPlayer toPlayer s g = (Throw PlayersNotFound, s, g)).
Proof.
  intros Hreach. rewrite useAbility_closed. split.
  - intros [[a Ha] [d Hd]]. rewrite Ha, Hd.
    destruct (attack_roll_ok a g (reachable_catalog _ _ Hreach _ _ Ha))
      as (av & g1 & ->).
    cbn zeta. destruct (defend_roll _ _ _) as [nd g2].
    by destruct (heal_roll _ _ _) as [h g3].
  - intros [ -> | -> ]; [done|].
    by destruct (Session.players s !! fromPlayer).
Qed.

Lemma useAbility_errors_witness :
  (is_Some (Session.players ex_duel !! "p1")
   ∧ is_Some (Session.players ex_duel !! "p2") →
   outcome (Session.useAbility "p1" "p2" ex_duel tape_half) = Ok tt)
  ∧ (Session.players ex_duel !! "p1" = None
     ∨ Session.players ex_duel !! "p2" = None →
     Session.useAbility "p1" "p2" ex_duel tape_half
     = (Throw PlayersNotFound, ex_duel, tape_half)).
Proof.
  apply (useAbility_errors "p1" "p2" ex_duel tape_half).
  by apply ex_duel_reachable.
Defined.

Lemma health_perform c s g : health_in_range s → health_in_range (perform c s g).
Proof.
  intros Hs. destruct c as [ct ab p|k p|k|f t]; cbn.
  - destruct (addPlayer_effect ct ab p s g)
      as (_ & _ & _ & _ & _ & _ & [[Heq _]|(pid & c & _ & Heq & Hh & _)]);
      intros k c'; rewrite Heq; [apply Hs|].
    rewrite lookup_insert. case_decide; [|apply Hs].
    intros [= <-]. lia.
  - rewrite attachSocket_run. unfold state_after, attached. cbn.
    by destruct (Session.bothConnected _ && bool_decide _).
  - rewrite detachSocket_run. unfold state_after, detached. cbn.
    case_bool_decide; cbn; [|done].
    by destruct (negb (Session.bothConnected _) && negb (bool_decide _)).
  - rewrite useAbility_closed.
    destruct (Session.players s !! f) as [a|]; [|done].
    destruct (Session.players s !! t) as [d|] eqn:Hd; [|done].
    destruct (attack_roll a g) as [[av|e] g1]; [|done].
    cbn zeta.
    pose proof (net_damage_nonneg d (av - Character.defensePower d) g1) as Hnd.
    destruct (defend_roll d (clamp0 (av - Character.defensePower d)) g1)
      as [nd g2]. cbn [fst] in Hnd.
    pose proof (pipeline_health d (Character.health d) nd g2 (proj1 Hnd))
      as (H0 & Hmax & _).
    destruct (heal_roll d (clamp0 (Character.health d - nd)) g2) as [h g3].
    cbn [fst] in *. unfold state_after. cbn [fst snd].
    intros k c'. unfold store. cbn. rewrite lookup_insert.
    case_decide; [|apply Hs]. intros [= <-]. cbn.
    pose proof (Hs t d Hd). lia.
Qed.

(** X7.  In every session reached from [new Session()] by calls of its
    methods, the health of every character is between 0 and 100. *)
Theorem health_stays_in_range s pid c :
  reachable s →
  Session.players s !! pid = Some c →
  0 ≤ Character.health c ≤ 100.
Proof.
  intros Hreach. revert pid c.
  change (health_in_range s).
  induction Hreach as [sid p1 p2 _|call s g _ _ IH].
  - intros pid c. cbn. by rewrite lookup_empty.
  - by apply health_perform.
Qed.

Lemma health_stays_in_range_witness :
  ∃ c, Session.players ex_duel !! "p2" = Some c ∧ 0 ≤ Character.health c ≤ 100.
Proof.
  eexists. split; [vm_compute; reflexivity|].
  eapply (health_stays_in_range ex_duel "p2").
  - by apply ex_duel_reachable.
  - vm_compute. reflexivity.
Defined.

(** X8.  One resolution leaves the defender with at most its previous
    health or 34, whichever is larger (the heal only applies below 30),
    and a defender at health 0 stays at 0: no hook revives it. *)
Theorem defender_health_change fromPlayer toPlayer s g d :
  Session.players s !! toPlayer = Some d →
  let s' := state_after (Session.useAbility fromPlayer toPlayer s g) in
  Session.health_of toPlayer s' ≤ Z.max (Character.health d) 34
  ∧ (Character.health d = 0 → Session.health_of toPlayer s' = 0).
Proof.
  intros Hd. cbn zeta. rewrite useAbility_closed, Hd.
  assert (Hsame : Session.health_of toPlayer s = Character.health d)
    by by apply health_of_players.
  destruct (Session.players s !! fromPlayer) as [a|];
    [|unfold state_after; cbn; rewrite Hsame; lia].
  destruct (attack_roll a g) as [[av|e] g1];
    [|unfold state_after; cbn; rewrite Hsame; lia].
  cbn zeta.
  pose proof (net_damage_nonneg d (av - Character.defensePower d) g1) as Hnd.
  destruct (defend_roll d (clamp0 (av - Character.defensePower d)) g1)
    as [nd g2]. cbn [fst] in Hnd.
  pose proof (pipeline_health d (Character.health d) nd g2 (proj1 Hnd))
    as (H0 & Hmax & Hdead).
  destruct (heal_roll d (clamp0 (Character.health d - nd)) g2) as [h g3].
  cbn [fst] in *. unfold state_after. cbn [fst snd].
  rewrite health_of_store. cbn. split; [done|]. intros Hz. apply Hdead. lia.
Qed.

Lemma defender_health_change_witness :
  ∃ d, Session.players ex_duel !! "p2" = Some d ∧
  let s' := state_after (Session.useAbility "p1" "p2" ex_duel tape_low) in
  Session.health_of "p2" s' ≤ Z.max (Character.health d) 34
  ∧ (Character.health d = 0 → Session.health_of "p2" s' = 0).
Proof.
  eexists. split; [vm_compute; reflexivity|].
  apply (defender_health_change "p1" "p2" ex_duel tape_low).
  vm_compute. reflexivity.
Defined.

Lemma attack_roll_values a g av g1 :
  0 ≤ 3 * Character.attackPower a ≤ 2 ^ 53 →
  attack_roll a g = (Ok av, g1) →
  av = Character.attackPower a ∨ av = 3 * Character.attackPower a / 2.
Proof.
  intros Hsafe. unfold attack_roll.
  destruct (Ability.kind (Character.ability a));
    [|intros [= <- _]; by left].
  destruct (Ability.id (Character.ability a)) as [[]|]; [|done].
  cbn. pose proof (onAttack_values (Character.attackPower a) g Hsafe) as Hv.
  destruct (BoostAttackOnAttack_onAttack (Character.attackPower a) g).
  cbn in Hv. by intros [= <- _].
Qed.

(** X9.  The damage reported in a round result is never negative, and
    between two characters whose stats are in the documented ranges
    (attack 15 to 20, defense 10 to 15) it is at most 20. *)
Theorem damage_bounds sid fromPlayer toPlayer roundNo s g a d res s' g' :
  Session.players s !! fromPlayer = Some a →
  Session.players s !! toPlayer = Some d →
  useAbility_inline sid fromPlayer toPlayer roundNo s g = (Ok res, s', g') →
  0 ≤ damageDealt res
  ∧ (stats_in_range a → stats_in_range d → damageDealt res ≤ 20).
Proof.
  intros Ha Hd. rewrite useAbility_inline_closed, Ha, Hd.
  destruct (attack_roll a g) as [[av|e] g1] eqn:Hroll; [|done].
  cbn zeta.
  pose proof (net_damage_nonneg d (av - Character.defensePower d) g1) as Hnd.
  destruct (defend_roll d (clamp0 (av - Character.defensePower d)) g1)
    as [nd g2]. cbn [fst] in Hnd.
  destruct (heal_roll d (clamp0 (Character.health d - nd)) g2) as [h g3].
  intros [= <- _ _]. cbn. split; [lia|].
  intros [[Ha1 Ha2] _] [_ [Hd1 Hd2]].
  apply attack_roll_values in Hroll; [|lia].
  assert (Hav : av ≤ 30).
  { destruct Hroll as [ -> | -> ]; [lia|].
    apply Z.div_le_upper_bound; lia. }
  assert (clamp0 (av - Character.defensePower d) ≤ 20).
  { unfold clamp0. destruct (av - Character.defensePower d <? 0); lia. }
  lia.
Qed.

Lemma damage_bounds_witness :
  ∃ a d res s' g',
    Session.players ex_duel !! "p1" = Some a
    ∧ Session.players ex_duel !! "p2" = Some d
    ∧ useAbility_inline "s" "p1" "p2" 1 ex_duel tape_low = (Ok res, s', g')
    ∧ 0 ≤ damageDealt res
    ∧ (stats_in_range a → stats_in_range d → damageDealt res ≤ 20).
Proof.
  eexists _, _, _, _, _.
  split; [vm_compute; reflexivity|].
  split; [vm_compute; reflexivity|].
  split; [vm_compute; reflexivity|].
  eapply (damage_bounds "s" "p1" "p2" 1 ex_duel tape_low);
    vm_compute; reflexivity.
Defined.

(** X10.  When a round result reports no ability ([abilityUsed = null]),
    no hook had any effect: the damage is the attacker's power minus the
    defender's defense, floored at 0, and the defender is left with its
    health minus that damage, floored at 0. *)
Theorem unreported_means_plain sid fromPlayer toPlayer roundNo s g a d res s' g' :
  Session.players s !! fromPlayer = Some a →
  Session.players s !! toPlayer = Some d →
  useAbility_inline sid fromPlayer toPlayer roundNo s g = (Ok res, s', g') →
  abilityUsed res = None →
  damageDealt res
  = clamp0 (Character.attackPower a - Character.defensePower d)
  ∧ Session.health_of toPlayer s'
    = clamp0 (Character.health d - damageDealt res)
  ∧ healthAfter res !! toPlayer = Some (Session.health_of toPlayer s').
Proof.
  intros Ha Hd. rewrite useAbility_inline_closed, Ha, Hd.
  unfold attack_roll, defend_roll, heal_roll, offense_label, defense_label.
  destruct (Ability.kind (Character.ability a)),
           (Ability.id (Character.ability a)) as [[]|da]; try done;
    destruct (Ability.kind (Character.ability d)),
             (Ability.id (Character.ability d)) as [od|[|]];
    cbn -[Session.health_of];
    repeat match goal with
      | |- context [ let '(_, _) := ?X in _ ] =>
          lazymatch type of X with
          | (Z * Rng)%type => destruct X as [? ?]
          end
      end;
    intros [= <- <- _]; cbn -[Session.health_of];
    rewrite ?health_of_store, ?lookup_insert_eq;
    unfold join_labels;
    repeat match goal with
      | |- context [ negb (?x =? ?y) ] =>
          destruct (Z.eqb_spec x y); cbn -[Session.health_of]
      end;
    try done; intros _; subst; done.
Qed.

Lemma unreported_means_plain_witness :
  ∃ a d res s' g',
    Session.players ex_duel !! "p1" = Some a
    ∧ Session.players ex_duel !! "p2" = Some d
    ∧ useAbility_inline "s" "p1" "p2" 1 ex_duel tape_half = (Ok res, s', g')
    ∧ abilityUsed res = None
    ∧ damageDealt res
      = clamp0 (Character.attackPower a - Character.defensePower d)
    ∧ Session.health_of "p2" s'
      = clamp0 (Character.health d - damageDealt res)
    ∧ healthAfter res !! "p2" = Some (Session.health_of "p2" s').
Proof.
  eexists _, _, _, _, _.
  split; [vm_compute; reflexivity|].
  split; [vm_compute; reflexivity|].
  split; [vm_compute; reflexivity|].
  split; [vm_compute; reflexivity|].
  eapply (unreported_means_plain "s" "p1" "p2" 1 ex_duel tape_half);
    vm_compute; reflexivity.
Defined.

(** ** The gateway *)

(** X11.  Every round result that the ['useAbility'] handler broadcasts
    agrees with what the server stores: its round number is the previous
    counter of the session plus one and is the counter after the event,
    it names the session, the attacker and the defender of the event, and
    [healthAfter] gives for both the health found in the stored session. *)
Theorem roundResult_agrees_with_state socketId sid fromPlayer toPlayer w res :
  to_room sid (roundResult res)
    ∈ (on_useAbility socketId sid fromPlayer toPlayer w).2 →
  let w' := (on_useAbility socketId sid fromPlayer toPlayer w).1 in
  roundNumber res = roundCounter sid w + 1
  ∧ roundCounter sid w' = roundNumber res
  ∧ sessionId res = sid
  ∧ attackerId res = fromPlayer
  ∧ defenderId res = toPlayer
  ∧ ∃ s', sessions w' !! sid = Some s'
          ∧ healthAfter res !! toPlayer = Some (Session.health_of toPlayer s')
          ∧ healthAfter res !! fromPlayer
            = Some (Session.health_of fromPlayer s').
Proof.
  unfold on_useAbility, SessionManager.get.
  destruct (sessions w !! sid) as [sess|] eqn:Hs;
    [|intros Hin; apply list_elem_of_singleton in Hin; done].
  destruct (negb (Session.hasPlayer fromPlayer sess)
            || negb (Session.hasPlayer toPlayer sess));
    [intros Hin; apply list_elem_of_singleton in Hin; done|].
  unfold call. cbn [random set_sessionRounds].
  rewrite useAbility_inline_closed.
  assert (Hno : roundCounter sid w + 1
                = match sessionRounds w !! sid with
                  | Some n => n + 1
                  | None => 1
                  end).
  { unfold roundCounter. by destruct (sessionRounds w !! sid). }
  destruct (Session.players sess !! fromPlayer) as [a|] eqn:Ha;
    [|intros Hin; apply list_elem_of_singleton in Hin; done].
  destruct (Session.players sess !! toPlayer) as [d|] eqn:Hd;
    [|intros Hin; apply list_elem_of_singleton in Hin; done].
  destruct (attack_roll a (random w)) as [[av|e] g1];
    [|intros Hin; apply list_elem_of_singleton in Hin; done].
  cbn zeta.
  destruct (defend_roll d _ g1) as [nd g2].
  destruct (heal_roll d _ g2) as [h g3].
  intros Hin. cbn [fst snd] in *.
  apply elem_of_cons in Hin as [Hin|Hin];
    [|apply list_elem_of_singleton in Hin; done].
  injection Hin as ->. cbn.
  split; [by rewrite Hno|]. split.
  { unfold roundCounter. cbn. rewrite lookup_insert_eq. cbn.
    by destruct (sessionRounds w !! sid). }
  do 3 (split; [done|]).
  eexists. split; [apply lookup_insert_eq|].
  split; [by rewrite lookup_insert_eq|].
  rewrite lookup_insert. case_decide as Heq.
  - by subst.
  - by rewrite lookup_singleton_eq.
Qed.

Lemma roundResult_agrees_with_state_witness :
  ∃ res,
    to_room "s" (roundResult res)
      ∈ (on_useAbility "k1" "s" "p1" "p2" ex_server).2
    ∧ let w' := (on_useAbility "k1" "s" "p1" "p2" ex_server).1 in
      roundNumber res = roundCounter "s" ex_server + 1
      ∧ roundCounter "s" w' = roundNumber res
      ∧ sessionId res = "s"
      ∧ attackerId res = "p1"
      ∧ defenderId res = "p2"
      ∧ ∃ s', sessions w' !! "s" = Some s'
              ∧ healthAfter res !! "p2" = Some (Session.health_of "p2" s')
              ∧ healthAfter res !! "p1" = Some (Session.health_of "p1" s').
Proof.
  eexists. split.
  - vm_compute. apply list_elem_of_here.
  - apply (roundResult_agrees_with_state "k1" "s" "p1" "p2" ex_server).
    vm_compute. apply list_elem_of_here.
Defined.

(** ** Players and slots *)

Lemma addPlayer_shape ct ab pref s g :
  let s' := state_after (Session.addPlayer ct ab pref s g) in
  (Session.players s' = Session.players s
   ∧ Session.pendingJoinTimer s' = Session.pendingJoinTimer s)
  ∨ ∃ slot c,
      (size (Session.players s) < 2)%nat
      ∧ Session.players s'
        = <[if slot =? 1 then Session.player1Id s else Session.player2Id s := c]>
            (Session.players s)
      ∧ (size (Session.players s') = 2%nat →
         Session.pendingJoinTimer s' = None).
Proof.
  cbn zeta. rewrite addPlayer_unfold.
  case_bool_decide as Hsz; [by left|].
  destruct (assignPlayerSlot_frame "" pref s g) as (r & taken & -> & _).
  destruct r as [slot|e]; [|by left].
  destruct (Character.parseType ct) as [ty|]; [|by left].
  destruct (Ability.findById ab) as [a|]; [|by left].
  destruct (Character.new ty a g) as [c g'].
  right. exists slot, c. split; [lia|].
  unfold state_after, join_finish, store. cbn.
  destruct (bool_decide (size _ = 2%nat)) eqn:E1;
    destruct (bool_decide (is_Some (Session.pendingJoinTimer s))) eqn:E2;
    cbn; (split; [done|]); intros H2; try done.
  - apply bool_decide_eq_false in E2. by apply eq_None_not_Some.
  - by apply bool_decide_eq_false in E1.
  - by apply bool_decide_eq_false in E1.
Qed.

Lemma players_perform c s g :
  Session.player1Id (perform c s g) = Session.player1Id s
  ∧ Session.player2Id (perform c s g) = Session.player2Id s
  ∧ (Session.pendingJoinTimer (perform c s g) = Session.pendingJoinTimer s
     ∨ ∃ ct ab p, c = call_addPlayer ct ab p)
  ∧ (dom (Session.players (perform c s g)) = dom (Session.players s)
     ∨ ∃ ct ab p, c = call_addPlayer ct ab p).
Proof.
  destruct c as [ct ab p|k p|k|f t]; cbn.
  - destruct (addPlayer_effect ct ab p s g) as (_ & H1 & H2 & _).
    cbn zeta in *. repeat split; eauto 10.
  - rewrite attachSocket_run. unfold state_after, attached. cbn.
    destruct (Session.bothConnected _ && bool_decide _); cbn; auto.
  - rewrite detachSocket_run. unfold state_after, detached. cbn.
    case_bool_decide; cbn; auto.
    destruct (negb (Session.bothConnected _) && negb (bool_decide _));
      cbn; auto.
  - destruct (useAbility_effect f t s g) as [->|(d & h & Hd & ->)]; [auto|].
    cbn. repeat split; try by left. left.
    apply dom_insert_lookup_L. by eexists.
Qed.

Lemma keyed_perform c s g : keyed_by_slots s → keyed_by_slots (perform c s g).
Proof.
  intros Hk pid.
  destruct (players_perform c s g) as (H1 & H2 & _ & Hdom).
  rewrite H1, H2.
  destruct Hdom as [Hdom|(ct & ab & p & ->)].
  - rewrite <- !elem_of_dom, Hdom, elem_of_dom. apply Hk.
  - cbn. destruct (addPlayer_shape ct ab p s g)
      as [[-> _]|(slot & c & _ & -> & _)]; [apply Hk|].
    rewrite lookup_insert. case_decide as Heq; [|apply Hk].
    intros _. subst pid. destruct (slot =? 1); auto.
Qed.

Lemma lifecycle_perform c s g : lifecycle_inv s → lifecycle_inv (perform c s g).
Proof.
  intros [Hsz Htimer].
  destruct (players_perform c s g) as (_ & _ & Ht & Hdom).
  destruct c as [ct ab p|k p|k|f t];
    try (destruct Ht as [Ht|(? & ? & ? & [=])];
         destruct Hdom as [Hdom|(? & ? & ? & [=])];
         unfold lifecycle_inv; rewrite Ht, <- !size_dom, Hdom, !size_dom;
         done).
  cbn. destruct (addPlayer_shape ct ab p s g)
    as [[Hp Hq]|(slot & c & Hlt & Hp & Hq)]; unfold lifecycle_inv.
  - by rewrite Hp, Hq.
  - split.
    + rewrite Hp.
      destruct (Session.players s
                !! (if slot =? 1 then Session.player1Id s
                    else Session.player2Id s)) eqn:E.
      * rewrite map_size_insert_Some by by eexists. lia.
      * rewrite map_size_insert_None by done. lia.
    + intros H2. by rewrite (Hq H2).
Qed.

Lemma reachable_keyed P s : reachable_by P s → keyed_by_slots s ∧ lifecycle_inv s.
Proof.
  induction 1 as [sid p1 p2 _|c s g _ _ [IH1 IH2]].
  - split.
    + intros pid [? H]. cbn in H. by rewrite lookup_empty in H.
    + split; cbn; [rewrite map_size_empty; lia|].
      by rewrite map_size_empty.
  - split; [by apply keyed_perform | by apply lifecycle_perform].
Qed.

(** X12.  A session reached by any calls of its methods holds at most
    two players, each stored under one of the two identifiers allocated
    when the session was created; and once it holds two, its pending-join
    timer has been cancelled. *)
Theorem players_are_the_two_slots s :
  reachable s →
  (size (Session.players s) ≤ 2)%nat
  ∧ (∀ pid, Session.hasPlayer pid s = true →
            pid = Session.player1Id s ∨ pid = Session.player2Id s)
  ∧ (size (Session.players s) = 2%nat → Session.pendingJoinTimer s = None).
Proof.
  intros Hreach.
  destruct (reachable_keyed _ s Hreach) as [Hk [Hsz Ht]].
  split; [done|]. split.
  - intros pid Hp. apply Hk. by apply hasPlayer_true.
  - intros H2. specialize (Ht H2).
    assert (Hne : ∀ s0, reachable s0 →
                        Session.pendingJoinTimer s0 ≠ Some Expired).
    { clear. induction 1 as [sid p1 p2 _|c s g _ _ IH]; [done|].
      destruct (players_perform c s g) as (_ & _ & [->|(ct & ab & p & ->)] & _);
        [done|].
      cbn. rewrite addPlayer_unfold. case_bool_decide; [done|].
      destruct (assignPlayerSlot_frame "" p s g) as (r & taken & -> & _).
      destruct r as [slot|e]; [|done].
      destruct (Character.parseType ct); [|done].
      destruct (Ability.findById ab); [|done].
      destruct (Character.new _ _ g) as [c g'].
      unfold state_after, join_finish. cbn.
      by destruct (bool_decide _ && bool_decide _). }
    specialize (Hne s Hreach).
    by destruct (Session.pendingJoinTimer s) as [[|]|].
Qed.

Lemma players_are_the_two_slots_witness :
  (size (Session.players ex_duel) ≤ 2)%nat
  ∧ (∀ pid, Session.hasPlayer pid ex_duel = true →
            pid = Session.player1Id ex_duel ∨ pid = Session.player2Id ex_duel)
  ∧ (size (Session.players ex_duel) = 2%nat →
     Session.pendingJoinTimer ex_duel = None).
Proof.
  apply (players_are_the_two_slots ex_duel).
  by apply ex_duel_reachable.
Defined.

Lemma both_joined s :
  keyed_by_slots s → size (Session.players s) = 2%nat →
  is_Some (Session.players s !! Session.player1Id s)
  ∧ is_Some (Session.players s !! Session.player2Id s).
Proof.
  intros Hk Hsz.
  assert (Hsub : dom (Session.players s)
                 ⊆ {[Session.player1Id s; Session.player2Id s]}).
  { intros pid Hin. apply elem_of_dom, Hk in Hin as [ -> | -> ].
    - apply elem_of_union_l. by apply elem_of_singleton.
    - apply elem_of_union_r. by apply elem_of_singleton. }
  rewrite <- size_dom in Hsz.
  rewrite <- !elem_of_dom.
  split.
  - destruct (decide (Session.player1Id s ∈ dom (Session.players s)));
      [done|exfalso].
    assert (Hsub' : dom (Session.players s) ⊆ {[Session.player2Id s]}).
    { intros pid Hin. pose proof (Hsub pid Hin) as Hc.
      apply elem_of_union in Hc as [Hc|Hc]; [|done].
      apply elem_of_singleton in Hc. by subst. }
    apply subseteq_size in Hsub'. rewrite size_singleton in Hsub'. lia.
  - destruct (decide (Session.player2Id s ∈ dom (Session.players s)));
      [done|exfalso].
    assert (Hsub' : dom (Session.players s) ⊆ {[Session.player1Id s]}).
    { intros pid Hin. pose proof (Hsub pid Hin) as Hc.
      apply elem_of_union in Hc as [Hc|Hc]; [done|].
      apply elem_of_singleton in Hc. by subst. }
    apply subseteq_size in Hsub'. rewrite size_singleton in Hsub'. lia.
Qed.

(** X13.  In a session reached by calls whose joins ask for no slot or
    for slot 1 or 2, a join that succeeds never replaces a player: the
    identifier it returns is one of the two of the session, had not
    joined before, has joined now, and every other player is untouched. *)
Theorem join_takes_a_free_identifier ct ab pref s g pid s' g' :
  reachable_by slot_in_range s →
  Session.player1Id s ≠ "" → Session.player2Id s ≠ "" →
  pref = None ∨ pref = Some 1 ∨ pref = Some 2 →
  Session.addPlayer ct ab pref s g = (Ok pid, s', g') →
  (pid = Session.player1Id s ∨ pid = Session.player2Id s)
  ∧ Session.hasPlayer pid s = false
  ∧ Session.hasPlayer pid s' = true
  ∧ size (Session.players s') = S (size (Session.players s))
  ∧ ∀ q, q ≠ pid → Session.players s' !! q = Session.players s !! q.
Proof.
  intros Hreach Hp1 Hp2 Hpref.
  destruct (reachable_slots_inv s Hreach) as (Hne & Hdom & H1 & H2).
  rewrite addPlayer_unfold. case_bool_decide; [done|].
  destruct (assignPlayerSlot_cases "" pref s g)
    as [[Hjoined _]|[_ [(k & -> & Hfree & Hk)|[-> _]]]]; [| |done].
  { destruct (Hdom "" Hjoined); congruence. }
  assert (Hrange : k = 1 ∨ k = 2).
  { destruct Hk as [[Hp _]|Hk].
    - destruct Hpref as [ -> |[ -> | -> ]]; [done|..]; injection Hp; auto.
    - apply getAvailableSlots_head in Hk as [[? _]|[? _]]; auto. }
  destruct (Character.parseType ct) as [ty|]; [|done].
  destruct (Ability.findById ab) as [a|]; [|done].
  destruct (Character.new ty a g) as [c gc].
  intros [= <- <- _].
  assert (Hfresh :
    Session.players s
    !! (if k =? 1 then Session.player1Id s else Session.player2Id s) = None).
  { apply eq_None_not_Some. intros Hin.
    destruct Hrange as [ -> | -> ]; cbn in Hin; auto. }
  split; [destruct (k =? 1); auto|].
  split; [unfold Session.hasPlayer; by rewrite Hfresh, bool_decide_eq_false_2
            by by intros [? ?]|].
  assert (Hplayers :
    Session.players
      (join_finish
         (store (if k =? 1 then Session.player1Id s else Session.player2Id s) c
            (Session.set_takenSlots ({[k]} ∪ Session.takenSlots s) s)))
    = <[(if k =? 1 then Session.player1Id s else Session.player2Id s) := c]>
        (Session.players s)).
  { unfold join_finish, store. cbn.
    by destruct (bool_decide _ && bool_decide _). }
  rewrite Hplayers. split; [|split].
  - apply hasPlayer_true. rewrite Hplayers, lookup_insert_eq. by eexists.
  - by apply map_size_insert_None.
  - intros q Hq. by rewrite lookup_insert_ne.
Qed.

Lemma join_takes_a_free_identifier_witness :
  ("p2" = Session.player1Id (state_after ex_join1)
   ∨ "p2" = Session.player2Id (state_after ex_join1))
  ∧ Session.hasPlayer "p2" (state_after ex_join1) = false
  ∧ Session.hasPlayer "p2" ex_duel = true
  ∧ size (Session.players ex_duel)
    = S (size (Session.players (state_after ex_join1)))
  ∧ ∀ q, q ≠ "p2" →
         Session.players ex_duel !! q
         = Session.players (state_after ex_join1) !! q.
Proof.
  apply (join_takes_a_free_identifier "mage" "halfDamageOnDefend" None
           (state_after ex_join1) (rng_after ex_join1)
           "p2" ex_duel (rng_after ex_join2)).
  - apply (reach_call slot_in_range
             (call_addPlayer "warrior" "boostAttackOnAttack" None)
             ex_new tape_20_10); [by left|].
    by apply reach_new.
  - discriminate.
  - discriminate.
  - by left.
  - vm_compute. reflexivity.
Defined.

(** X14.  In such a session, once two players have joined no slot is
    available and every further join is refused with "Session is already
    full", leaving the session as it is. *)
Theorem full_session_refuses_joins ct ab pref s g :
  reachable_by slot_in_range s →
  size (Session.players s) = 2%nat →
  Session.getAvailableSlots s = []
  ∧ Session.addPlayer ct ab pref s g = (Throw SessionFull, s, g).
Proof.
  intros Hreach Hsz.
  destruct (reachable_slots_inv s Hreach) as (_ & _ & H1 & H2).
  destruct (reachable_keyed _ s Hreach) as [Hk _].
  destruct (both_joined s Hk Hsz) as [Hj1 Hj2].
  split.
  - unfold Session.getAvailableSlots.
    by rewrite (bool_decide_eq_true_2 _ (H1 Hj1)),
               (bool_decide_eq_true_2 _ (H2 Hj2)).
  - rewrite addPlayer_unfold.
    rewrite bool_decide_eq_true_2; [done|lia].
Qed.

Lemma full_session_refuses_joins_witness :
  Session.getAvailableSlots ex_duel = []
  ∧ Session.addPlayer "mage" "healUnder30" (Some 1) ex_duel tape_half
    = (Throw SessionFull, ex_duel, tape_half).
Proof.
  apply (full_session_refuses_joins "mage" "healUnder30" (Some 1)
           ex_duel tape_half).
  - apply (reach_call slot_in_range
             (call_addPlayer "mage" "halfDamageOnDefend" None)
             (state_after ex_join1) (rng_after ex_join1)); [by left|].
    apply (reach_call slot_in_range
             (call_addPlayer "warrior" "boostAttackOnAttack" None)
             ex_new tape_20_10); [by left|].
    by apply reach_new.
  - reflexivity.
Defined.

(** X15.  For a player that has already joined such a session,
    [assignPlayerSlot] changes nothing and returns the player's own slot:
    1 for the first identifier of the session, 2 for the second. *)
Theorem assignPlayerSlot_of_joined_player pid pref s g :
  reachable_by slot_in_range s →
  Session.hasPlayer pid s = true →
  ∃ k, Session.assignPlayerSlot pid pref s g = (Ok k, s, g)
       ∧ ((k = 1 ∧ pid = Session.player1Id s)
          ∨ (k = 2 ∧ pid = Session.player2Id s))
       ∧ k ∈ Session.takenSlots s.
Proof.
  intros Hreach Hjoined%hasPlayer_true.
  destruct (reachable_slots_inv s Hreach) as (Hne & Hdom & H1 & H2).
  destruct (assignPlayerSlot_cases pid pref s g)
    as [[_ ->]|[Hnone _]]; [|rewrite Hnone in Hjoined; by destruct Hjoined].
  destruct (Hdom pid Hjoined) as [ -> | -> ].
  - exists 1. rewrite (bool_decide_eq_true_2 _ (H1 Hjoined)).
    rewrite bool_decide_eq_true_2 by done. cbn. auto.
  - exists 2.
    rewrite (bool_decide_eq_false_2 (Session.player2Id s = Session.player1Id s))
      by congruence.
    rewrite andb_false_r. auto.
Qed.

Lemma assignPlayerSlot_of_joined_player_witness :
  ∃ k, Session.assignPlayerSlot "p2" (Some 1) ex_duel tape_half
       = (Ok k, ex_duel, tape_half)
       ∧ ((k = 1 ∧ "p2" = Session.player1Id ex_duel)
          ∨ (k = 2 ∧ "p2" = Session.player2Id ex_duel))
       ∧ k ∈ Session.takenSlots ex_duel.
Proof.
  apply (assignPlayerSlot_of_joined_player "p2" (Some 1) ex_duel tape_half).
  - apply (reach_call slot_in_range
             (call_addPlayer "mage" "halfDamageOnDefend" None)
             (state_after ex_join1) (rng_after ex_join1)); [by left|].
    apply (reach_call slot_in_range
             (call_addPlayer "warrior" "boostAttackOnAttack" None)
             ex_new tape_20_10); [by left|].
    by apply reach_new.
  - reflexivity.
Defined.

(** X16.  When [assignPlayerSlot] returns a slot for a player that has
    not joined, that slot was free, it is the only change to the session
    (it is now taken), and [getAvailableSlots()] afterwards is what it was
    before without that slot. *)
Theorem assignPlayerSlot_claims_one_slot pid pref s g k s' g' :
  Session.hasPlayer pid s = false →
  Session.assignPlayerSlot pid pref s g = (Ok k, s', g') →
  (k ∉ Session.takenSlots s)
  ∧ s' = Session.set_takenSlots ({[k]} ∪ Session.takenSlots s) s
  ∧ g' = g
  ∧ ∀ j, j ∈ Session.getAvailableSlots s'
         ↔ j ∈ Session.getAvailableSlots s ∧ j ≠ k.
Proof.
  intros Hnot. unfold Session.hasPlayer in Hnot.
  apply bool_decide_eq_false in Hnot.
  destruct (assignPlayerSlot_cases pid pref s g)
    as [[Hj _]|[_ [(k0 & -> & Hfree & _)|[-> _]]]]; [done| |done].
  intros [= <- <- <-]. split; [done|]. split; [done|]. split; [done|].
  intros j. unfold Session.getAvailableSlots. cbn.
  assert (Hin : ∀ i, i ∈ {[k0]} ∪ Session.takenSlots s
                     ↔ i = k0 ∨ i ∈ Session.takenSlots s).
  { intros i. rewrite elem_of_union, elem_of_singleton. done. }
  repeat case_bool_decide;
    repeat match goal with
      | H : _ ∈ {[k0]} ∪ _ |- _ => apply Hin in H
      | H : ¬ (_ ∈ {[k0]} ∪ _) |- _ => rewrite Hin in H
      end;
    cbn; rewrite ?elem_of_cons, ?elem_of_nil; split; intros; 
    intuition (subst; try lia; try done).
Qed.

Lemma assignPlayerSlot_claims_one_slot_witness :
  (1 ∉ Session.takenSlots ex_new)
  ∧ state_after (Session.assignPlayerSlot "" None ex_new tape_half)
    = Session.set_takenSlots ({[1]} ∪ Session.takenSlots ex_new) ex_new
  ∧ tape_half = tape_half
  ∧ ∀ j, j ∈ Session.getAvailableSlots
               (state_after (Session.assignPlayerSlot "" None ex_new tape_half))
         ↔ j ∈ Session.getAvailableSlots ex_new ∧ j ≠ 1.
Proof.
  apply (assignPlayerSlot_claims_one_slot "" None ex_new tape_half 1
           (state_after (Session.assignPlayerSlot "" None ex_new tape_half))
           tape_half).
  - reflexivity.
  - reflexivity.
Defined.

(** X17.  For a player that has not joined and a preferred slot that is
    absent, 1 or 2, [assignPlayerSlot] returns the preferred slot when it
    is free, otherwise slot 1 when it is free, otherwise slot 2 when it is
    free, and otherwise throws "No player slots available" without
    changing the session. *)
Theorem assignPlayerSlot_in_range_spec pid pref s g :
  Session.hasPlayer pid s = false →
  pref = None ∨ pref = Some 1 ∨ pref = Some 2 →
  let lowest : Result Z :=
    if bool_decide (1 ∉ Session.takenSlots s) then Ok 1
    else if bool_decide (2 ∉ Session.takenSlots s) then Ok 2
    else Throw NoSlotsAvailable in
  outcome (Session.assignPlayerSlot pid pref s g)
  = match pref with
    | Some p => if bool_decide (p ∉ Session.takenSlots s) then Ok p else lowest
    | None => lowest
    end
  ∧ (outcome (Session.assignPlayerSlot pid pref s g) = Throw NoSlotsAvailable →
     state_after (Session.assignPlayerSlot pid pref s g) = s).
Proof.
  intros Hnot Hpref. unfold Session.hasPlayer in Hnot. cbn zeta.
  unfold Session.assignPlayerSlot, Session.getAvailableSlots. eff. cbn.
  rewrite Hnot.
  destruct Hpref as [ -> | [ -> | -> ] ]; cbn;
    repeat case_bool_decide; cbn; try done; split; done.
Qed.

Lemma assignPlayerSlot_in_range_spec_witness :
  let lowest : Result Z :=
    if bool_decide (1 ∉ Session.takenSlots ex_leaked) then Ok 1
    else if bool_decide (2 ∉ Session.takenSlots ex_leaked) then Ok 2
    else Throw NoSlotsAvailable in
  outcome (Session.assignPlayerSlot "" (Some 2) ex_leaked tape_half)
  = (if bool_decide (2 ∉ Session.takenSlots ex_leaked) then Ok 2 else lowest)
  ∧ (outcome (Session.assignPlayerSlot "" (Some 2) ex_leaked tape_half)
     = Throw NoSlotsAvailable →
     state_after (Session.assignPlayerSlot "" (Some 2) ex_leaked tape_half)
     = ex_leaked).
Proof.
  apply (assignPlayerSlot_in_range_spec "" (Some 2) ex_leaked tape_half).
  - reflexivity.
  - by right; right.
Defined.

(** ** Sessions of a running server *)

Lemma run_reachable es w :
  server_reachable w → server_reachable (run es w).1.
Proof.
  revert w. induction es as [|e es IH]; intros w Hw; cbn; [done|].
  pose proof (reach_step e w Hw) as H1.
  destruct (step e w) as [w1 out1]. cbn in H1.
  specialize (IH w1 H1). by destruct (run es w1) as [w2 out2].
Qed.

Lemma ex_reconnected_reachable : server_reachable ex_reconnected.
Proof. apply run_reachable, reach_boot. Qed.

Lemma server_lifecycle w :
  server_reachable w →
  ∀ sid s, sessions w !! sid = Some s → lifecycle_inv s.
Proof.
  induction 1 as [g|e w _ IH]; intros sid s' Hs'.
  - cbn in Hs'. by rewrite lookup_empty in Hs'.
  - destruct (step_sessions e w sid s' Hs')
      as [Hold|[(p1 & p2 & ->)|[(s & c & g & Hs & _ & ->)|(s & Hs & Hexp)]]].
    + by apply (IH sid).
    + split; cbn; rewrite map_size_empty; [lia|done].
    + apply lifecycle_perform. by apply (IH sid).
    + destruct (IH sid s Hs) as [Hsz Ht].
      destruct Hexp as [ -> | -> ]; split; cbn; done.
Qed.

(** X18.  In a server reached through its routes, handlers and timers, a
    registered session never holds more than two players; the firing of
    the pending-join timer leaves a session with two players alone; the
    firing of the disconnect timer leaves a both-connected session alone;
    and a pending-join timer that is still scheduled always deletes its
    session when it fires (fewer than two players have joined whenever it
    is scheduled). *)
Theorem timers_spare_complete_sessions sid w s :
  server_reachable w →
  sessions w !! sid = Some s →
  (size (Session.players s) ≤ 2)%nat
  ∧ (size (Session.players s) = 2%nat → fire_pendingJoinTimer sid w = w)
  ∧ (Session.bothConnected s = true → fire_disconnectTimer sid w = w)
  ∧ (Session.pendingJoinTimer s = Some Armed →
     (size (Session.players s) < 2)%nat
     ∧ sessions (fire_pendingJoinTimer sid w) !! sid = None).
Proof.
  intros Hreach Hs.
  destruct (server_lifecycle w Hreach sid s Hs) as [Hsz Htimer].
  destruct (server_reachable_inv w Hreach sid s Hs)
    as [Hid (_ & _ & Hdisc)].
  split; [done|]. split; [|split].
  - intros H2. specialize (Htimer H2).
    unfold fire_pendingJoinTimer. rewrite Hs.
    by destruct (Session.pendingJoinTimer s) as [[|]|].
  - intros Hboth. unfold fire_disconnectTimer. rewrite Hs.
    destruct (Session.disconnectTimer s) as [[|]|] eqn:Hd; try done.
    specialize (Hdisc eq_refl). congruence.
  - intros Harmed.
    assert (Hlt : (size (Session.players s) < 2)%nat).
    { destruct (decide (size (Session.players s) = 2%nat)) as [H2|H2];
        [by destruct (Htimer H2)|lia]. }
    split; [done|].
    unfold fire_pendingJoinTimer, pendingJoinTimer_callback,
      SessionManager.delete.
    rewrite Hs, Harmed. cbn. rewrite Hid.
    rewrite bool_decide_eq_true_2 by done. apply lookup_delete_eq.
Qed.

(** In [ex_reconnected] the session holds two players, both connected
    again after a disconnect: neither timer touches it.  In [ex_created]
    the pending-join timer is scheduled and deletes the session. *)
Lemma timers_spare_complete_sessions_witness :
  ∃ s, sessions ex_reconnected !! "s" = Some s
       ∧ size (Session.players s) = 2%nat
       ∧ Session.bothConnected s = true
       ∧ fire_pendingJoinTimer "s" ex_reconnected = ex_reconnected
       ∧ fire_disconnectTimer "s" ex_reconnected = ex_reconnected
       ∧ Session.pendingJoinTimer ex_new = Some Armed
       ∧ sessions (fire_pendingJoinTimer "s" ex_created) !! "s" = None.
Proof.
  eexists. split; [vm_compute; reflexivity|].
  split; [vm_compute; reflexivity|].
  split; [vm_compute; reflexivity|].
  pose proof (timers_spare_complete_sessions "s" ex_reconnected _
                ex_reconnected_reachable ltac:(vm_compute; reflexivity))
    as (_ & Hjoin & Hdisc & _).
  split; [apply Hjoin; vm_compute; reflexivity|].
  split; [apply Hdisc; vm_compute; reflexivity|].
  split; [reflexivity|].
  apply (timers_spare_complete_sessions "s" ex_created ex_new);
    [apply reach_step, reach_boot|reflexivity..].
Defined.

(** X19.  In such a server every session is registered under its own
    identifier, every connection recorded in a session belongs to a
    player that has joined it, and every character carries an ability of
    the catalog, whose [kind] agrees with its [id]. *)
Theorem registered_sessions_are_consistent sid w s :
  server_reachable w →
  sessions w !! sid = Some s →
  Session.id s = sid
  ∧ (∀ socketId pid, Session.sockets s !! socketId = Some pid →
                     Session.hasPlayer pid s = true)
  ∧ (∀ pid c, Session.players s !! pid = Some c →
              Ability.findById (AbilityType_value (Ability.id (Character.ability c)))
              = Some (Character.ability c)).
Proof.
  intros Hreach Hs.
  destruct (server_reachable_inv w Hreach sid s Hs)
    as [Hid (Hcat & Hsock & _)].
  split; [done|]. split.
  - intros k p Hk. apply hasPlayer_true. by apply (Hsock k).
  - intros pid c Hc. specialize (Hcat pid c Hc).
    unfold from_catalog, Ability.all in Hcat. cbn in Hcat.
    destruct Hcat as [ <- | [ <- | [ <- | [] ] ] ]; reflexivity.
Qed.

(** In [ex_reconnected] socket k1 is recorded for p1, who has joined, and
    the ability of p1's character is the one the catalog holds. *)
Lemma registered_sessions_are_consistent_witness :
  ∃ s c, sessions ex_reconnected !! "s" = Some s
         ∧ Session.sockets s !! "k1" = Some "p1"
         ∧ Session.players s !! "p1" = Some c
         ∧ Session.id s = "s"
         ∧ Session.hasPlayer "p1" s = true
         ∧ Ability.findById
             (AbilityType_value (Ability.id (Character.ability c)))
           = Some (Character.ability c).
Proof.
  eexists _, _. split; [vm_compute; reflexivity|].
  split; [vm_compute; reflexivity|].
  split; [vm_compute; reflexivity|].
  pose proof (registered_sessions_are_consistent "s" ex_reconnected _
                ex_reconnected_reachable ltac:(vm_compute; reflexivity))
    as (Hid & Hsock & Hcat).
  split; [exact Hid|].
  split; [apply (Hsock "k1"); vm_compute; reflexivity|].
  apply (Hcat "p1"). vm_compute. reflexivity.
Defined.

(** X20.  A socket event that names an unknown session, or a player that
    has not joined the session, is answered with one [error] message to
    the sender alone and changes nothing: no connection is attached, no
    health is touched and the round counter does not move. *)
Theorem rejected_events_change_nothing socketId sid p q w :
  (∀ s, sessions w !! sid = Some s → Session.hasPlayer p s = false) →
  (∃ msg, on_join socketId sid p w = (w, [to_socket socketId (error msg)]))
  ∧ (∃ msg, on_useAbility socketId sid p q w
            = (w, [to_socket socketId (error msg)]))
  ∧ (∃ msg, on_useAbility socketId sid q p w
            = (w, [to_socket socketId (error msg)])).
Proof.
  intros Hguard.
  unfold on_join, on_useAbility, SessionManager.get.
  destruct (sessions w !! sid) as [s|] eqn:Hs;
    [|repeat split; eexists; reflexivity].
  rewrite (Hguard s eq_refl). cbn. rewrite orb_true_r.
  repeat split; eexists; reflexivity.
Qed.

Lemma rejected_events_change_nothing_witness :
  (∃ msg, on_join "k9" "s" "nobody" ex_server
          = (ex_server, [to_socket "k9" (error msg)]))
  ∧ (∃ msg, on_useAbility "k9" "s" "nobody" "p1" ex_server
            = (ex_server, [to_socket "k9" (error msg)]))
  ∧ (∃ msg, on_useAbility "k9" "s" "p1" "nobody" ex_server
            = (ex_server, [to_socket "k9" (error msg)])).
Proof.
  apply (rejected_events_change_nothing "k9" "s" "nobody" "p1" ex_server).
  intros s Hs. vm_compute in Hs. injection Hs as <-. reflexivity.
Defined.

Lemma delete_absent {A} (k : string) (m : gmap string A) :
  m !! k = None → delete k m = m.
Proof.
  intros H. apply map_eq. intros i. rewrite lookup_delete.
  case_decide; [by subst|done].
Qed.


(** X22.  The identifier returned by a successful [POST /games/:id/join]
    is accepted by the socket ['join'] that follows: the socket is
    attached to that player in the stored session, it is mapped to the
    session, and the snapshot of that session is broadcast to the room. *)
Theorem joined_player_can_connect socketId sid ct ab pref w pid :
  (joinGameHandler sid ct ab pref w).2 = [res_playerId pid] →
  let w1 := (joinGameHandler sid ct ab pref w).1 in
  let w2 := (on_join socketId sid pid w1).1 in
  ∃ s2,
    sessions w2 !! sid = Some s2
    ∧ Session.sockets s2 !! socketId = Some pid
    ∧ Session.hasPlayer pid s2 = true
    ∧ socketToSession w2 !! socketId = Some sid
    ∧ (on_join socketId sid pid w1).2
      = [to_room sid (state (Session.serialize s2))].
Proof.
  intros Hout. cbn zeta.
  unfold joinGameHandler, SessionManager.get in *.
  destruct (sessions w !! sid) as [sess|] eqn:Hs; [|done].
  pose proof (call_sessions sid sess (Session.addPlayer ct ab pref) w)
    as (Hm & Hst & Hres & _).
  pose proof (addPlayer_effect ct ab pref sess (random w)) as Heff.
  cbn zeta in Heff.
  destruct (call sid sess (Session.addPlayer ct ab pref) w)
    as [[[pid'|e] sess1] w1] eqn:Hcall; [|done].
  cbn [fst snd] in *. injection Hout as ->.
  subst sess1.
  destruct Heff as (_ & _ & _ & _ & _ & _ & [[_ [e He]]|(q & c & Hq & Hp & _)]);
    [congruence|].
  rewrite <- Hres in Hq. injection Hq as <-.
  assert (Hhas : Session.hasPlayer pid
                   (state_after (Session.addPlayer ct ab pref sess (random w)))
                 = true).
  { apply hasPlayer_true. rewrite Hp, lookup_insert_eq. by eexists. }
  unfold on_join, SessionManager.get.
  rewrite Hm, lookup_insert_eq, Hhas. cbn [negb].
  pose proof (call_sessions sid
                (state_after (Session.addPlayer ct ab pref sess (random w)))
                (Session.attachSocket socketId pid) w1) as (Hm2 & Hst2 & _).
  rewrite attachSocket_run in Hm2, Hst2. unfold state_after at 1 in Hm2.
  unfold state_after at 1 in Hst2. cbn [fst snd] in Hm2, Hst2.
  destruct (call sid _ (Session.attachSocket socketId pid) w1)
    as [[r sess2] w2]. cbn [fst snd] in *. subst sess2.
  match goal with
  | |- context [if ?c then _ else _] => destruct c
  end; cbn [fst snd sessions socketToSession set_sessionRounds
            set_socketToSession];
    (eexists; split; [rewrite Hm2; apply lookup_insert_eq|];
     split; [|split; [|split; [apply lookup_insert_eq|reflexivity]]];
     unfold attached; cbn;
     destruct (Session.bothConnected _ && bool_decide _); cbn;
     first [apply lookup_insert_eq | exact Hhas]).
Qed.

Lemma joined_player_can_connect_witness :
  let w1 := (joinGameHandler "s" "warrior" "healUnder30" None ex_created).1 in
  let w2 := (on_join "k1" "s" "p1" w1).1 in
  ∃ s2,
    sessions w2 !! "s" = Some s2
    ∧ Session.sockets s2 !! "k1" = Some "p1"
    ∧ Session.hasPlayer "p1" s2 = true
    ∧ socketToSession w2 !! "k1" = Some "s"
    ∧ (on_join "k1" "s" "p1" w1).2
      = [to_room "s" (state (Session.serialize s2))].
Proof.
  apply (joined_player_can_connect "k1" "s" "warrior" "healUnder30" None
           ex_created "p1").
  vm_compute. reflexivity.
Defined.

(** ** Connections *)

Lemma detached_timer k s :
  is_Some (Session.sockets s !! k) →
  Session.bothConnected (detached k s) = false →
  is_Some (Session.disconnectTimer (detached k s)).
Proof.
  intros Hk. unfold detached.
  rewrite bool_decide_eq_true_2 by done. cbn [negb].
  destruct (Session.bothConnected
              (Session.set_sockets (delete k (Session.sockets s)) s)) eqn:Hb;
    cbn [negb andb].
  - intros Hc. congruence.
  - intros _. case_bool_decide as Ht; cbn; [done|by eexists].
Qed.

(** X23.  Attaching a socket that was not attached and detaching it
    again restores the connections: [detachSocket] returns true, the
    socket map, the players and [bothConnected()] are what they were; and
    if the session is not both-connected, a disconnect timer is in
    place afterwards. *)
Theorem attach_then_detach socketId pid s g1 g2 :
  Session.sockets s !! socketId = None →
  let s1 := state_after (Session.attachSocket socketId pid s g1) in
  let r := Session.detachSocket socketId s1 g2 in
  outcome r = Ok true
  ∧ Session.sockets (state_after r) = Session.sockets s
  ∧ Session.players (state_after r) = Session.players s
  ∧ Session.takenSlots (state_after r) = Session.takenSlots s
  ∧ Session.bothConnected (state_after r) = Session.bothConnected s
  ∧ (Session.bothConnected s = false →
     is_Some (Session.disconnectTimer (state_after r))).
Proof.
  intros Hk. cbn zeta.
  rewrite attachSocket_run, detachSocket_run.
  unfold state_after, outcome. cbn [fst snd].
  assert (Hatt : Session.sockets (attached socketId pid s)
                 = <[socketId := pid]> (Session.sockets s)).
  { unfold attached. cbn.
    by destruct (Session.bothConnected _ && bool_decide _). }
  assert (Hpl : Session.players (attached socketId pid s) = Session.players s
                ∧ Session.takenSlots (attached socketId pid s)
                  = Session.takenSlots s).
  { unfold attached. cbn.
    by destruct (Session.bothConnected _ && bool_decide _). }
  destruct Hpl as [Hpl Htk].
  rewrite Hatt, lookup_insert_eq.
  rewrite bool_decide_eq_true_2 by by eexists.
  split; [done|].
  assert (Hsock : Session.sockets (detached socketId (attached socketId pid s))
                  = Session.sockets s).
  { unfold detached. rewrite Hatt, lookup_insert_eq.
    rewrite bool_decide_eq_true_2 by by eexists. cbn [negb].
    destruct (negb (Session.bothConnected _) && negb (bool_decide _));
      cbn -[attached]; rewrite delete_insert_eq; by apply delete_absent. }
  assert (Hpl2 : Session.players (detached socketId (attached socketId pid s))
                 = Session.players s
                 ∧ Session.takenSlots (detached socketId (attached socketId pid s))
                   = Session.takenSlots s).
  { unfold detached. cbn.
    case_bool_decide; cbn;
      [destruct (negb (Session.bothConnected _) && negb (bool_decide _))|];
      cbn; by rewrite ?Hpl, ?Htk. }
  destruct Hpl2 as [Hpl2 Htk2].
  assert (Hboth : Session.bothConnected
                    (detached socketId (attached socketId pid s))
                  = Session.bothConnected s).
  { apply bothConnected_ext; [by rewrite Hpl2|done]. }
  repeat (split; [done|]).
  intros Hnot. rewrite <- Hboth in Hnot.
  apply detached_timer; [|done].
  rewrite Hatt, lookup_insert_eq. by eexists.
Qed.

Lemma attach_then_detach_witness :
  let s1 := state_after (Session.attachSocket "k1" "p1" ex_duel tape_half) in
  let r := Session.detachSocket "k1" s1 tape_half in
  outcome r = Ok true
  ∧ Session.sockets (state_after r) = Session.sockets ex_duel
  ∧ Session.players (state_after r) = Session.players ex_duel
  ∧ Session.takenSlots (state_after r) = Session.takenSlots ex_duel
  ∧ Session.bothConnected (state_after r) = Session.bothConnected ex_duel
  ∧ (Session.bothConnected ex_duel = false →
     is_Some (Session.disconnectTimer (state_after r))).
Proof.
  apply (attach_then_detach "k1" "p1" ex_duel tape_half tape_half).
  reflexivity.
Defined.

(** ** The registry and the snapshots *)

(** X24.  The session registry: [create] registers the new session under
    its identifier, with both slots available, and leaves the other
    entries alone; [delete] removes exactly one entry, is idempotent, and
    does nothing when the identifier is absent; [all()] lists exactly the
    registered sessions. *)
Theorem registry_laws newId p1 p2 i (m : gmap string Session.t) :
  SessionManager.get newId (SessionManager.create newId p1 p2 m).2
  = Some (SessionManager.create newId p1 p2 m).1
  ∧ Session.getAvailableSlots (SessionManager.create newId p1 p2 m).1 = [1; 2]
  ∧ (i ≠ newId →
     SessionManager.get i (SessionManager.create newId p1 p2 m).2
     = SessionManager.get i m)
  ∧ SessionManager.get i (SessionManager.delete i m) = None
  ∧ SessionManager.delete i (SessionManager.delete i m)
    = SessionManager.delete i m
  ∧ (∀ j, j ≠ i →
          SessionManager.get j (SessionManager.delete i m)
          = SessionManager.get j m)
  ∧ (SessionManager.get i m = None → SessionManager.delete i m = m)
  ∧ (∀ s, s ∈ SessionManager.all m ↔ ∃ j, SessionManager.get j m = Some s).
Proof.
  unfold SessionManager.get, SessionManager.create, SessionManager.delete,
    SessionManager.all. cbn.
  split; [apply lookup_insert_eq|]. split; [done|].
  split; [intros Hne; by apply lookup_insert_ne|].
  split; [apply lookup_delete_eq|].
  split; [apply delete_absent, lookup_delete_eq|].
  split; [intros j Hne; by apply lookup_delete_ne|].
  split; [apply delete_absent|].
  intros s. rewrite list_elem_of_fmap. split.
  - intros [[j s'] [-> Hin]]. exists j. by apply elem_of_map_to_list.
  - intros [j Hj]. exists (j, s). split; [done|].
    by apply elem_of_map_to_list.
Qed.

Lemma serialize_players (s : Session.t) (e : Session.SerializedPlayer) :
  e ∈ Session.ss_players (Session.serialize s)
  ↔ ∃ pid c, Session.players s !! pid = Some c ∧ e = serialized_player pid c.
Proof.
  unfold Session.serialize. cbn.
  rewrite list_elem_of_In, in_map_iff. split.
  - intros [[pid c] [<- Hin]]. exists pid, c.
    split; [|done]. by apply elem_of_map_to_list, list_elem_of_In.
  - intros (pid & c & Hc & ->). exists (pid, c). split; [done|].
    by apply list_elem_of_In, elem_of_map_to_list.
Qed.

Lemma reachable_health P s : reachable_by P s → health_in_range s.
Proof.
  induction 1 as [sid p1 p2 _|c s g _ _ IH].
  - intros pid c. cbn. by rewrite lookup_empty.
  - by apply health_perform.
Qed.

(** X25.  The snapshot of a session reached by calls of its methods: it
    carries the identifier of the session and the value of
    [bothConnected()]; its player list has at most two entries, no two
    with the same [playerId], one for each joined player; and each entry
    shows one of the two identifiers of the session, the stored
    character's current values, a health between 0 and 100, and an
    ability identifier that [Ability.findById] resolves. *)
Theorem snapshot_of_reachable_session (s : Session.t) :
  reachable s →
  let snap := Session.serialize s in
  Session.ss_id snap = Session.id s
  ∧ Session.ss_bothConnected snap = Session.bothConnected s
  ∧ (length (Session.ss_players snap) ≤ 2)%nat
  ∧ NoDup (map Session.sp_playerId (Session.ss_players snap))
  ∧ (∀ pid c, Session.players s !! pid = Some c →
              serialized_player pid c ∈ Session.ss_players snap)
  ∧ ∀ e, e ∈ Session.ss_players snap →
         (Session.sp_playerId e = Session.player1Id s
          ∨ Session.sp_playerId e = Session.player2Id s)
         ∧ 0 ≤ Session.sp_health e ≤ 100
         ∧ is_Some (Ability.findById (Session.sp_abilityId e))
         ∧ ∃ c, Session.players s !! Session.sp_playerId e = Some c
                ∧ e = serialized_player (Session.sp_playerId e) c.
Proof.
  intros Hreach snap.
  destruct (reachable_keyed _ _ Hreach) as [Hkeyed [Hsize _]].
  pose proof (reachable_health _ _ Hreach) as Hhealth.
  pose proof (reachable_catalog _ _ Hreach) as Hcat.
  split; [done|]. split; [done|]. split.
  { subst snap. unfold Session.serialize. cbn.
    by rewrite length_map, length_map_to_list. }
  split.
  { subst snap. unfold Session.serialize. cbn.
    rewrite map_map.
    rewrite (map_ext _ fst) by (by intros [??]).
    apply NoDup_fst_map_to_list. }
  split.
  { intros pid c Hc. apply serialize_players. by exists pid, c. }
  intros e He. apply serialize_players in He as (pid & c & Hc & ->). cbn.
  split; [apply Hkeyed; by eexists|].
  split; [by eapply Hhealth|].
  split; [|by exists c].
  pose proof (Hcat pid c Hc) as Hfrom.
  unfold from_catalog, Ability.all in Hfrom. cbn in Hfrom.
  destruct Hfrom as [ <- | [ <- | [ <- | [] ] ] ]; by eexists.
Qed.

Lemma snapshot_of_reachable_session_witness :
  length (Session.ss_players (Session.serialize ex_duel)) = 2%nat
  ∧ NoDup (map Session.sp_playerId (Session.ss_players (Session.serialize ex_duel))).
Proof.
  split; [vm_compute; reflexivity|].
  apply (snapshot_of_reachable_session ex_duel).
  by apply ex_duel_reachable.
Defined.

(** ** The lobby *)

Lemma addPlayer_lowest ct ab s g ty a k :
  (size (Session.players s) < 2)%nat →
  Session.players s !! "" = None →
  head (Session.getAvailableSlots s) = Some k →
  Character.parseType ct = Some ty →
  Ability.findById ab = Some a →
  Session.addPlayer ct ab None s g
  = (Ok (if k =? 1 then Session.player1Id s else Session.player2Id s),
     join_finish
       (store (if k =? 1 then Session.player1Id s else Session.player2Id s)
          (Character.new ty a g).1
          (Session.set_takenSlots ({[k]} ∪ Session.takenSlots s) s)),
     (Character.new ty a g).2).
Proof.
  intros Hsize Hnone Hhead Hty Ha.
  rewrite addPlayer_unfold.
  rewrite bool_decide_eq_false_2 by lia.
  destruct (assignPlayerSlot_cases "" None s g)
    as [[[? Hsome] _]|[_ [(k' & Hrun & _ & [[[=] _]|Hk'])|[_ Hnil]]]].
  - by rewrite Hnone in Hsome.
  - rewrite Hhead in Hk'. injection Hk' as <-.
    rewrite Hrun. cbn -[Character.parseType Ability.findById Character.new].
    rewrite Hty, Ha. by destruct (Character.new ty a g).
  - by rewrite Hnil in Hhead.
Qed.
Lemma two_joins sid p1 p2 ct1 ab1 ct2 ab2 g :
  p1 ≠ p2 → p1 ≠ "" →
  is_Some (Character.parseType ct1) → is_Some (Ability.findById ab1) →
  is_Some (Character.parseType ct2) → is_Some (Ability.findById ab2) →
  let r1 := Session.addPlayer ct1 ab1 None (Session.new sid p1 p2) g in
  let r2 := Session.addPlayer ct2 ab2 None (state_after r1) (rng_after r1) in
  outcome r1 = Ok p1
  ∧ Session.getAvailableSlots (state_after r1) = [2]
  ∧ Session.pendingJoinTimer (state_after r1) = Some Armed
  ∧ outcome r2 = Ok p2
  ∧ Session.getAvailableSlots (state_after r2) = []
  ∧ Session.pendingJoinTimer (state_after r2) = None
  ∧ size (Session.players (state_after r2)) = 2%nat.
Proof.
  intros Hne Hp1 [ty1 Hty1] [a1 Ha1] [ty2 Hty2] [a2 Ha2] r1 r2.
  assert (Hr1 : r1 = (Ok p1,
                      store p1 (Character.new ty1 a1 g).1
                        (Session.set_takenSlots {[1]} (Session.new sid p1 p2)),
                      (Character.new ty1 a1 g).2)).
  { subst r1. rewrite (addPlayer_lowest ct1 ab1 _ g ty1 a1 1); try done.
    - cbn -[Character.new]. unfold join_finish.
      cbn -[Character.new]. rewrite ?insert_empty, map_size_singleton. cbn -[Character.new].
      unfold store. cbn -[Character.new]. do 3 f_equal.
    - cbn. rewrite map_size_empty. lia. }
  subst r2. rewrite Hr1.
  unfold state_after, rng_after, outcome. cbn [fst snd].
  set (s1 := store _ _ _).
  split; [done|]. split; [done|]. split; [done|].
  rewrite (addPlayer_lowest ct2 ab2 s1 _ ty2 a2 2); try done.
  - change (2 =? 1) with false. cbn iota.
    set (s2 := store _ _ (Session.set_takenSlots _ s1)).
    assert (Hsz : size (Session.players s2) = 2%nat).
    { subst s2 s1. cbn -[Character.new]. rewrite map_size_insert_None.
      - by rewrite insert_empty, map_size_singleton.
      - by rewrite insert_empty, lookup_singleton_ne. }
    assert (Hfin : join_finish s2 = Session.set_pendingJoinTimer None s2).
    { unfold join_finish. rewrite Hsz. by subst s2 s1. }
    rewrite Hfin. cbn [fst snd].
    split; [done|]. split; [|split; [done|exact Hsz]].
    unfold Session.getAvailableSlots. subst s2 s1. cbn.
    rewrite !bool_decide_eq_true_2; [done|set_solver..].
  - subst s1. cbn. rewrite insert_empty, map_size_singleton. lia.
  - subst s1. cbn. by rewrite insert_empty, lookup_singleton_ne.
Qed.

Lemma joinGameHandler_run sid ct ab pref w s :
  sessions w !! sid = Some s →
  joinGameHandler sid ct ab pref w
  = (set_random (rng_after (Session.addPlayer ct ab pref s (random w)))
       (set_sessions
          (<[sid := state_after (Session.addPlayer ct ab pref s (random w))]>
             (sessions w)) w),
     [match outcome (Session.addPlayer ct ab pref s (random w)) with
      | Ok pid => res_playerId pid
      | Throw e => res_error 400 (message e)
      end]).
Proof.
  intros Hs. unfold joinGameHandler, SessionManager.get, call. rewrite Hs.
  by destruct (Session.addPlayer ct ab pref s (random w)) as [[[pid|e] s'] g'].
Qed.

(** X26.  The lobby, end to end.  After [POST /games] both slots are
    offered; the first join of a known character type and ability that
    asks for no slot gets the first player identifier of the session and
    leaves slot 2 on offer; the second gets the second identifier and
    leaves none; and every further join is answered with status 400,
    "Session is already full", and changes nothing. *)
Theorem lobby_flow newId p1 p2 ct1 ab1 ct2 ab2 ct3 ab3 pref3 w :
  p1 ≠ p2 → p1 ≠ "" →
  is_Some (Character.parseType ct1) → is_Some (Ability.findById ab1) →
  is_Some (Character.parseType ct2) → is_Some (Ability.findById ab2) →
  let w0 := (createGameHandler newId p1 p2 w).1 in
  let j1 := joinGameHandler newId ct1 ab1 None w0 in
  let j2 := joinGameHandler newId ct2 ab2 None j1.1 in
  let j3 := joinGameHandler newId ct3 ab3 pref3 j2.1 in
  (getAvailableSlotsHandler newId w0).2 = [res_availableSlots [1; 2]]
  ∧ j1.2 = [res_playerId p1]
  ∧ (getAvailableSlotsHandler newId j1.1).2 = [res_availableSlots [2]]
  ∧ j2.2 = [res_playerId p2]
  ∧ (getAvailableSlotsHandler newId j2.1).2 = [res_availableSlots []]
  ∧ j3 = (j2.1, [res_error 400 "Session is already full"]).
Proof.
  intros Hne Hp1 H1 H2 H3 H4 w0 j1 j2 j3.
  pose proof (two_joins newId p1 p2 ct1 ab1 ct2 ab2 (random w) Hne Hp1 H1 H2 H3 H4)
    as (Ho1 & Hs1 & _ & Ho2 & Hs2 & _ & Hsz).
  assert (Hw0 : sessions w0 !! newId = Some (Session.new newId p1 p2)).
  { subst w0. unfold createGameHandler, SessionManager.create. cbn.
    apply lookup_insert_eq. }
  assert (Hg0 : random w0 = random w) by done.
  assert (Hj1 := joinGameHandler_run newId ct1 ab1 None w0 _ Hw0).
  fold j1 in Hj1. rewrite Hg0 in Hj1.
  set (r1 := Session.addPlayer ct1 ab1 None (Session.new newId p1 p2) (random w)) in *.
  assert (Hw1 : sessions j1.1 !! newId = Some (state_after r1)).
  { rewrite Hj1. cbn. apply lookup_insert_eq. }
  assert (Hg1 : random j1.1 = rng_after r1) by by rewrite Hj1.
  assert (Hj2 := joinGameHandler_run newId ct2 ab2 None j1.1 _ Hw1).
  fold j2 in Hj2. rewrite Hg1 in Hj2.
  set (r2 := Session.addPlayer ct2 ab2 None (state_after r1) (rng_after r1)) in *.
  assert (Hw2 : sessions j2.1 !! newId = Some (state_after r2)).
  { rewrite Hj2. cbn. apply lookup_insert_eq. }
  assert (Hj3 := joinGameHandler_run newId ct3 ab3 pref3 j2.1 _ Hw2).
  fold j3 in Hj3.
  split.
  { unfold getAvailableSlotsHandler, SessionManager.get. by rewrite Hw0. }
  split; [by rewrite Hj1, Ho1|].
  split.
  { unfold getAvailableSlotsHandler, SessionManager.get.
    rewrite Hw1. cbn [snd]. by rewrite Hs1. }
  split; [by rewrite Hj2, Ho2|].
  split.
  { unfold getAvailableSlotsHandler, SessionManager.get.
    rewrite Hw2. cbn [snd]. by rewrite Hs2. }
  rewrite Hj3, addPlayer_unfold.
  rewrite bool_decide_eq_true_2 by (rewrite Hsz; lia).
  unfold rng_after, state_after, outcome. cbn [fst snd].
  rewrite insert_id by done.
  f_equal. by destruct (j2.1).
Qed.

Lemma lobby_flow_witness :
  ∃ w', joinGameHandler "s" "knight" "halfDamageOnDefend" (Some 1) w'
        = (w', [res_error 400 "Session is already full"]).
Proof.
  eexists.
  refine (proj2 (proj2 (proj2 (proj2 (proj2
    (lobby_flow "s" "p1" "p2" "mage" "boostAttackOnAttack"
       "warrior" "healUnder30" "knight" "halfDamageOnDefend" (Some 1)
       (boot tape_half) _ _ _ _ _ _)))))); try done; by eexists.
Defined.
